(** * k-space-lab: spectral transform, masked reconstruction and mask controller

    A shallow embedding of

    - [lib/kspace.ts]            (module [Kspace]): [computeSpectrum],
      [renderKspace], [renderReconFromSpectrum], [renderReconFromCircle];
    - [workers/reconWorker.ts]   (module [ReconWorker]): the worker state,
      [idx], [complexAt], [reconFromCircle] and the [onmessage] handler;
    - [App.tsx]                  (module [App]): the worker reply handler of
      [ensureWorker], and [onOverlayMove];
    - [components/KSpaceOverlay.tsx] and [components/KSpaceCanvas.tsx]
      (modules [KSpaceOverlay], [KSpaceCanvas]): the pointer handlers and the
      debounce timer;
    - [lib/kspace.ts]            (module [Loading]): [loadAndGrayscale] and
      [computeSpectrumAndRecon];
    - [App.tsx]                  (modules [Handover], [Processing]):
      [flattenSpectrum] and [processImage];
    - [App.tsx] with the [KSpaceOverlay] that it mounts (module [Mounted]):
      the renders, the effect on [show, center] and the handlers of both
      components, as far as they decide which requests are posted;
    - the pixel loop of [lib/kspace.ts] and [workers/reconWorker.ts] as the
      doubles compute it (modules [Binary64], [Raster64], [Kspace64],
      [ReconWorker64]).

    Conventions.  A JavaScript [number] is an exact rational ([Q]): every
    finite double is one.  The arithmetic is the exact one, except in the
    modules [Raster64], [Kspace64] and [ReconWorker64], where the operations
    that produce a grey level are rounded as the doubles round them; the
    statements about single grey levels are made there.  Sizes by which the
    components divide are assumed not to be zero where a statement depends
    on the quotient.  [Infinity] only occurs
    as the initial value of the running minimum and maximum and is represented
    by the absence of a value.  Array sizes and loop counters are [nat];
    dimensions received from outside are [Z], because the code is handed
    arbitrary numbers there.  Thrown JavaScript exceptions are values of
    [JS.Result].  The transforms [math.fft] and [math.ifft] and the functions
    [Math.log1p (math.abs z)] and [Math.sqrt] belong to the JavaScript
    run-time and to mathjs; they are parameters of the definitions that call
    them, and so are the bytes that the browser reads back from a canvas and
    the rounding of a number stored in a [Float32Array]. *)

From Stdlib Require Import ZArith QArith Qround Qabs Lia Lqa.
From stdpp Require Import base option list.

Open Scope Q_scope.

(** ** JavaScript run-time *)

Module JS.

Inductive Error : Type :=
| RangeError      (* new Array(n) with n < 0: "Invalid array length" *)
| TypeError       (* property access on undefined, mathjs argument mismatch *)
| IndexSizeError. (* DOMException of createImageData / new ImageData *)

Inductive Result (A : Type) : Type :=
| Returned (a : A)
| Thrown (e : Error).

Arguments Returned {A} a.
Arguments Thrown {A} e.

Definition bind {A B : Type} (r : Result A) (k : A -> Result B) : Result B :=
  match r with
  | Returned a => k a
  | Thrown e => Thrown e
  end.

(** Statements executed one after the other, each of which may throw: the
    first exception wins. *)
Fixpoint collect {A : Type} (rs : list (Result A)) : Result (list A) :=
  match rs with
  | [] => Returned []
  | r :: rs' => bind r (fun a => bind (collect rs') (fun l => Returned (a :: l)))
  end.

(** [new Array(n)] for an integral [n] below 2^32: the length, or a
    RangeError.  (From 2^32 on the allocation throws as well; the statements
    bound the length where they depend on it.) *)
Definition newArray (n : Z) : Result nat :=
  if (n <? 0)%Z then Thrown RangeError else Returned (Z.to_nat n).

(** [Math.round]: the nearest integer, halves towards +Infinity. *)
Definition Math_round (q : Q) : Z := Qfloor (q + (1 # 2)).

(** [Math.max(a, Math.min(b, q))] on numbers. *)
Definition Math_max (a b : Q) : Q := if Qlt_le_dec a b then b else a.
Definition Math_min (a b : Q) : Q := if Qlt_le_dec b a then b else a.

End JS.

Notation "'try!' x := r 'in' k" := (JS.bind r (fun x => k))
  (at level 10, x name, r at level 100, k at level 200, only parsing).

(** ** Complex numbers of mathjs *)

Record Complex : Type := mkComplex { re : Q; im : Q }.

Definition czero : Complex := mkComplex 0 0.
Definition ofReal (v : Q) : Complex := mkComplex v 0.

Definition cadd (a b : Complex) : Complex := mkComplex (re a + re b) (im a + im b).
Definition cmul (a b : Complex) : Complex :=
  mkComplex (re a * re b - im a * im b) (re a * im b + im a * re b).
Definition cscale (k : Q) (a : Complex) : Complex := mkComplex (k * re a) (k * im a).
Definition csum (l : list Complex) : Complex := foldr cadd czero l.

(** Equality of complex values up to the representation of the rationals. *)
Definition ceq (a b : Complex) : Prop := re a == re b /\ im a == im b.

#[global] Instance Complex_inhabited : Inhabited Complex := populate czero.
#[global] Instance Q_inhabited : Inhabited Q := populate 0.

(** [math.complex(a, b)] where [a] and [b] were read from a typed array:
    reading past the end gives [undefined], for which mathjs has no signature. *)
Definition mathComplex (a b : option Q) : JS.Result Complex :=
  match a, b with
  | Some r, Some i => JS.Returned (mkComplex r i)
  | _, _ => JS.Thrown JS.TypeError
  end.

(** The sign [(x + y) % 2 === 0 ? 1 : -1] of the checkerboard. *)
Definition checker (x y : nat) : Q := if Nat.even (x + y) then 1 else -1.

(** [m[y][x]] for a grid that holds the entry. *)
Definition at2 {A : Type} `{Inhabited A} (m : list (list A)) (y x : nat) : A :=
  (m !!! y) !!! x.

(** ** Normalisation to bytes

    The same statements close [renderKspace], [renderReconFromSpectrum] and
    [reconFromCircle]: a running minimum and maximum, a scale, and a loop
    writing four bytes per pixel. *)

Module Raster.

(** [None] stands for the initial [minV = Infinity], [maxV = -Infinity]. *)
Definition Extremes : Type := option (Q * Q).

(** [if (v < minV) minV = v; if (v > maxV) maxV = v]. *)
Definition track (mm : Extremes) (v : Q) : Extremes :=
  match mm with
  | None => Some (v, v)
  | Some (lo, hi) =>
      Some (if Qlt_le_dec v lo then v else lo, if Qlt_le_dec hi v then v else hi)
  end.

Definition extremes (grid : list (list Q)) : Extremes :=
  foldl (fun mm row => foldl track mm row) None grid.

(** [maxV > minV ? 255 / (maxV - minV) : 1]. *)
Definition scaleOf (lo hi : Q) : Q :=
  if Qlt_le_dec lo hi then 255 / (hi - lo) else 1.

(** [Math.max(0, Math.min(255, Math.round((v - minV) * scale)))].  With the
    initial extremes the difference is [-Infinity], which the clamp sends
    to 0. *)
Definition level (mm : Extremes) (v : Q) : Z :=
  match mm with
  | None => 0%Z
  | Some (lo, hi) =>
      Z.max 0 (Z.min 255 (JS.Math_round ((v - lo) * scaleOf lo hi)))
  end.

(** [px[i] = v; px[i+1] = v; px[i+2] = v; px[i+3] = 255].  A typed array
    ignores a write past its end. *)
Definition writePixel (px : list Z) (i : nat) (v : Z) : list Z :=
  <[(i + 3)%nat := 255%Z]> (<[(i + 2)%nat := v]> (<[(i + 1)%nat := v]> (<[i := v]> px))).

Definition paintRow (grid : list (list Q)) (mm : Extremes) (cols y : nat)
  (px : list Z) : list Z :=
  foldl (fun px x => writePixel px ((y * cols + x) * 4) (level mm (at2 grid y x)))
        px (seq 0 cols).

(** The pixel loop over a zero-filled buffer of [rows * cols * 4] bytes. *)
Definition paint (grid : list (list Q)) (mm : Extremes) (rows cols : nat) : list Z :=
  foldl (fun px y => paintRow grid mm cols y px)
        (replicate (rows * cols * 4) 0%Z) (seq 0 rows).

Definition normalize (grid : list (list Q)) (rows cols : nat) : list Z :=
  paint grid (extremes grid) rows cols.

(** The least and the greatest sample of a grid. *)
Definition minimumOf (grid : list (list Q)) (lo : Q) : Prop :=
  lo ∈ concat grid /\ forall v, v ∈ concat grid -> lo <= v.
Definition maximumOf (grid : list (list Q)) (hi : Q) : Prop :=
  hi ∈ concat grid /\ forall v, v ∈ concat grid -> v <= hi.

(** The rescale as the specification words it:
    [(value - min) / (max - min) * 255], rounded and clamped to [0, 255]. *)
Definition specRescale (lo hi v : Q) : Z :=
  Z.max 0 (Z.min 255 (JS.Math_round ((v - lo) / (hi - lo) * 255))).

End Raster.

(** ** Shared pieces of the transform code *)

(** [for (y...) col[y] = m[y][x]]: column [x] of a grid of [rows] rows. *)
Definition column {A : Type} `{Inhabited A} (m : list (list A)) (rows x : nat) : list A :=
  map (fun y => at2 m y x) (seq 0 rows).

(** [for (y...) out[y][x] = t[y]] for the transform [t] of every column [x]:
    the grid whose columns are the given lists. *)
Definition scatter {A : Type} `{Inhabited A} (columns : list (list A)) (rows cols : nat)
  : list (list A) :=
  map (fun y => map (fun x => at2 columns x y) (seq 0 cols)) (seq 0 rows).

(** [for (y < rows) a[y] = new Array(cols)] after [a = new Array(rows)]: the
    inner allocation is reached, and can throw, only when there is a row. *)
Definition allocRows (rows : nat) (cols : Z) : JS.Result nat :=
  match rows with
  | O => JS.Returned (Z.to_nat cols)
  | S _ => JS.newArray cols
  end.

(** [createImageData(sw, sh)]: a zero extent is an IndexSizeError. *)
Definition createImageData (sw sh : nat) : JS.Result unit :=
  match sw, sh with
  | O, _ | _, O => JS.Thrown JS.IndexSizeError
  | _, _ => JS.Returned tt
  end.

(** [dx * dx + dy * dy <= r2] with [dx = x - cx], [dy = y - cy]. *)
Definition inside (cx cy r2 : Q) (x y : nat) : bool :=
  let dx := inject_Z (Z.of_nat x) - cx in
  let dy := inject_Z (Z.of_nat y) - cy in
  Qle_bool (dx * dx + dy * dy) r2.

(** ** lib/kspace.ts *)

Module Kspace.

Section Transforms.

(** [math.fft], [math.ifft]: called on a non-empty array they return as many
    coefficients as they are given; reads of their results rely on it. *)
Variables fft ifft : list Complex -> JS.Result (list Complex).
(** [Math.log1p(math.abs(z))]. *)
Variable log1pAbs : Complex -> Q.

(** [row.map((v, x) => ((x + y) % 2 === 0 ? v : -v))]. *)
Definition centered (y : nat) (row : list Q) : list Complex :=
  imap (fun x v => ofReal (if Nat.even (x + y) then v else - v)) row.

Definition computeSpectrum (gray : list (list Q)) (rows cols : Z)
  : JS.Result (list (list Complex)) :=
  try! n := JS.newArray rows in
  try! spectrum :=
    JS.collect (map (fun y => match gray !! y with
                              | Some row => fft (centered y row)
                              | None => JS.Thrown JS.TypeError
                              end) (seq 0 n)) in
  try! m := allocRows n cols in
  try! colFfts := JS.collect (map (fun x => fft (column spectrum n x)) (seq 0 m)) in
  JS.Returned (scatter colFfts n m).

(** The array [mags] of [renderKspace]. *)
Definition magnitudes (spectrumCols : list (list Complex)) (n m : nat) : list (list Q) :=
  map (fun y => map (fun x => log1pAbs (at2 spectrumCols y x)) (seq 0 m)) (seq 0 n).

(** The value is the image data put on the canvas, of which the returned
    data URL is the PNG encoding. *)
Definition renderKspace (spectrumCols : list (list Complex)) (rows cols : Z)
  : JS.Result (list Z) :=
  try! n := JS.newArray rows in
  try! m := allocRows n cols in
  let mags := magnitudes spectrumCols n m in
  try! _ := createImageData m n in
  JS.Returned (Raster.normalize mags n m).

(** [(typeof val === 'number' ? val : val.re ?? 0) * sign] along a row. *)
Definition realRow (y m : nat) (rowIfft : list Complex) : list Q :=
  map (fun x => re (rowIfft !!! x) * checker x y) (seq 0 m).

(** The reconstructed samples [recon] of [renderReconFromSpectrum], before
    they are normalised. *)
Definition reconSamples (spectrumCols : list (list Complex)) (n m : nat)
  : JS.Result (list (list Q)) :=
  try! colIffts := JS.collect (map (fun x => ifft (column spectrumCols n x)) (seq 0 m)) in
  let temp := scatter colIffts n m in
  JS.collect (map (fun y => try! rowIfft := ifft (temp !!! y) in
                            JS.Returned (realRow y m rowIfft)) (seq 0 n)).

Definition renderReconFromSpectrum (spectrumCols : list (list Complex)) (rows cols : Z)
  : JS.Result (list Z) :=
  try! n := JS.newArray rows in
  try! m := allocRows n cols in
  try! recon := reconSamples spectrumCols n m in
  try! _ := createImageData m n in
  JS.Returned (Raster.normalize recon n m).

(** The array [masked] of [renderReconFromCircle]. *)
Definition masked (spectrum : list (list Complex)) (n m : nat) (cx cy radius : Q)
  : list (list Complex) :=
  let r2 := radius * radius in
  map (fun y => map (fun x => if inside cx cy r2 x y then at2 spectrum y x else czero)
                    (seq 0 m)) (seq 0 n).

Definition renderReconFromCircle (spectrum : list (list Complex)) (rows cols : Z)
  (cx cy radius : Q) : JS.Result (list Z) :=
  try! n := JS.newArray rows in
  try! m := allocRows n cols in
  renderReconFromSpectrum (masked spectrum n m cx cy radius) rows cols.

End Transforms.

End Kspace.

(** ** workers/reconWorker.ts *)

Module ReconWorker.

(** The module variables [ROWS], [COLS], [SPEC_RE], [SPEC_IM]. *)
Record State : Type := mkState {
  ROWS : Z;
  COLS : Z;
  SPEC_RE : option (list Q);
  SPEC_IM : option (list Q)
}.

Definition initial : State :=
  {| ROWS := 0; COLS := 0; SPEC_RE := None; SPEC_IM := None |}.

Inductive InMsg : Type :=
| loadSpectrum (rows cols : Z) (re im : list Q)
| circleRecon (cx cy radius : Q).

(** The text of an error reply: the literal 'Spectrum not loaded', or
    [String(err)] of a caught exception. *)
Inductive ErrorText : Type :=
| SpectrumNotLoaded
| Caught (e : JS.Error).

Inductive OutMsg : Type :=
| loaded
| recon (rows cols : Z) (pixels : list Z)
| error (text : ErrorText).

Definition idx (x y width : Z) : Z := (y * width + x)%Z.

(** [a[i]] on a typed array: [undefined] outside of it. *)
Definition readAt (a : option (list Q)) (i : Z) : option Q :=
  match a with
  | Some l => if (i <? 0)%Z then None else l !! Z.to_nat i
  | None => None
  end.

Definition complexAt (st : State) (x y : nat) : JS.Result Complex :=
  let i := idx (Z.of_nat x) (Z.of_nat y) (COLS st) in
  mathComplex (readAt (SPEC_RE st) i) (readAt (SPEC_IM st) i).

Section Worker.

Variable ifft : list Complex -> JS.Result (list Complex).

(** The array [col] of the column loop for column [x]. *)
Definition maskedColumn (st : State) (cx cy r2 : Q) (n x : nat)
  : JS.Result (list Complex) :=
  JS.collect (map (fun y => if inside cx cy r2 x y then complexAt st x y
                            else JS.Returned czero) (seq 0 n)).

(** The array [recon] of [reconFromCircle]: the inverse transform of the
    masked columns, then of the rows, its real part with the checkerboard
    undone. *)
Definition reconSamples (st : State) (cx cy radius : Q) (n m : nat)
  : JS.Result (list (list Q)) :=
  let r2 := radius * radius in
  try! colIffts :=
    JS.collect (map (fun x => try! col := maskedColumn st cx cy r2 n x in ifft col)
                    (seq 0 m)) in
  let temp := scatter colIffts n m in
  JS.collect (map (fun y => try! rowIfft := ifft (temp !!! y) in
                            JS.Returned (Kspace.realRow y m rowIfft)) (seq 0 n)).

Definition reconFromCircle (st : State) (cx cy radius : Q) : JS.Result (list Z) :=
  try! n := JS.newArray (ROWS st) in
  try! m := allocRows n (COLS st) in
  try! recon := reconSamples st cx cy radius n m in
  JS.Returned (Raster.normalize recon n m).

(** [!SPEC_RE || !SPEC_IM || ROWS === 0 || COLS === 0]. *)
Definition notLoaded (st : State) : bool :=
  match SPEC_RE st, SPEC_IM st with
  | Some _, Some _ => (ROWS st =? 0)%Z || (COLS st =? 0)%Z
  | _, _ => true
  end.

(** [self.onmessage]: the new state and the messages posted. *)
Definition onmessage (st : State) (data : InMsg) : State * list OutMsg :=
  match data with
  | loadSpectrum rows cols re im =>
      ({| ROWS := rows; COLS := cols; SPEC_RE := Some re; SPEC_IM := Some im |},
       [loaded])
  | circleRecon cx cy radius =>
      if notLoaded st then (st, [error SpectrumNotLoaded])
      else match reconFromCircle st cx cy radius with
           | JS.Returned px => (st, [recon (ROWS st) (COLS st) px])
           | JS.Thrown e => (st, [error (Caught e)])
           end
  end.

(** Messages are handled one at a time, in the order of their arrival. *)
Fixpoint run (st : State) (inbox : list InMsg) : State * list OutMsg :=
  match inbox with
  | [] => (st, [])
  | data :: rest =>
      let '(st1, out1) := onmessage st data in
      let '(st2, out2) := run st1 rest in
      (st2, out1 ++ out2)
  end.

End Worker.

End ReconWorker.

(** ** Double-precision arithmetic

    A JavaScript [number] is an IEEE 754 binary64 value, and [a - b],
    [a * b], [a / b] are the exact results rounded to the nearest such value,
    ties to the even significand.  [fl] is that rounding for a significand
    of 53 bits; the exponent is not limited, so that it is the rounding of
    the doubles wherever a result neither overflows nor is subnormal. *)

Module Binary64.

(** [2 ^ e] for an integer [e] of either sign. *)
Definition pow2 (e : Z) : Q :=
  if (0 <=? e)%Z then inject_Z (2 ^ e) else 1 # Z.to_pos (2 ^ (- e)).

(** The integer nearest to [n / d], the even one of two that are equally
    near, for [0 <= n] and [0 < d]. *)
Definition nearestEven (n d : Z) : Z :=
  let q := (n / d)%Z in
  let r := (n mod d)%Z in
  match (2 * r ?= d)%Z with
  | Lt => q
  | Gt => (q + 1)%Z
  | Eq => if Z.even q then q else (q + 1)%Z
  end.

(** The significand of [a / d] and its exponent: [a / d = (N / M) * 2 ^ e]
    with [2 ^ 52 <= N / M < 2 ^ 53], for [0 < a] and [0 < d]. *)
Definition normalize (a d : Z) : Z * Z * Z :=
  let e0 := (Z.log2 a - Z.log2 d - 53)%Z in
  let N := if (0 <=? e0)%Z then a else (a * 2 ^ (- e0))%Z in
  let M := if (0 <=? e0)%Z then (d * 2 ^ e0)%Z else d in
  if (2 ^ 53 * M <=? N)%Z then (N, (2 * M)%Z, (e0 + 1)%Z) else (N, M, e0).

Definition fl (q : Q) : Q :=
  if (Qnum q =? 0)%Z then 0
  else
    let '(N, M, e) := normalize (Z.abs (Qnum q)) (Zpos (Qden q)) in
    inject_Z (Z.sgn (Qnum q) * nearestEven N M) * pow2 e.

Definition sub (a b : Q) : Q := fl (a - b).
Definition mul (a b : Q) : Q := fl (a * b).
Definition div (a b : Q) : Q := fl (a / b).

(** Half the distance between 1 and the next double. *)
Definition eps : Q := 1 # 9007199254740992.

End Binary64.

(** ** The pixel loop in double precision

    The loop of [Raster], with the subtraction, the division and the
    multiplication of [Math.round((v - min) * scale)] rounded as the doubles
    round them.  The comparisons that track the extremes, [Math.round],
    [Math.max] and [Math.min] are exact on doubles. *)

Module Raster64.

(** [maxV > minV ? 255 / (maxV - minV) : 1]. *)
Definition scaleOf (lo hi : Q) : Q :=
  if Qlt_le_dec lo hi then Binary64.div 255 (Binary64.sub hi lo) else 1.

(** [Math.max(0, Math.min(255, Math.round((v - minV) * scale)))]. *)
Definition level (mm : Raster.Extremes) (v : Q) : Z :=
  match mm with
  | None => 0%Z
  | Some (lo, hi) =>
      Z.max 0 (Z.min 255
        (JS.Math_round (Binary64.mul (Binary64.sub v lo) (scaleOf lo hi))))
  end.

Definition paintRow (grid : list (list Q)) (mm : Raster.Extremes) (cols y : nat)
  (px : list Z) : list Z :=
  foldl (fun px x => Raster.writePixel px ((y * cols + x) * 4) (level mm (at2 grid y x)))
        px (seq 0 cols).

Definition paint (grid : list (list Q)) (mm : Raster.Extremes) (rows cols : nat) : list Z :=
  foldl (fun px y => paintRow grid mm cols y px)
        (replicate (rows * cols * 4) 0%Z) (seq 0 rows).

Definition normalize (grid : list (list Q)) (rows cols : nat) : list Z :=
  paint grid (Raster.extremes grid) rows cols.

(** The difference of the extremes is far from the least and from the
    greatest double, so that neither [255 / (max - min)] nor the difference
    itself leaves the range of the doubles. *)
Definition moderate (d : Q) : Prop :=
  Binary64.pow2 (-1000) <= d /\ d <= Binary64.pow2 1000.

End Raster64.

(** [renderKspace] and the worker's [reconFromCircle] with that pixel loop. *)

Module Kspace64.

Definition renderKspace (log1pAbs : Complex -> Q) (spectrumCols : list (list Complex))
  (rows cols : Z) : JS.Result (list Z) :=
  try! n := JS.newArray rows in
  try! m := allocRows n cols in
  let mags := Kspace.magnitudes log1pAbs spectrumCols n m in
  try! _ := createImageData m n in
  JS.Returned (Raster64.normalize mags n m).

End Kspace64.

Module ReconWorker64.

Definition reconFromCircle (ifft : list Complex -> JS.Result (list Complex))
  (st : ReconWorker.State) (cx cy radius : Q) : JS.Result (list Z) :=
  try! n := JS.newArray (ReconWorker.ROWS st) in
  try! m := allocRows n (ReconWorker.COLS st) in
  try! recon := ReconWorker.reconSamples ifft st cx cy radius n m in
  JS.Returned (Raster64.normalize recon n m).

End ReconWorker64.

(** ** Points, rectangles and the coordinate helpers of the two overlays *)

Module Point.
Record t : Type := mk { x : Q; y : Q }.
End Point.

Module Rect.
Record t : Type := mk { left : Q; top : Q; width : Q; height : Q }.
End Rect.

(** [Math.SQRT2], the double nearest to the square root of two. *)
Definition Math_SQRT2 : Q := 6369051672525773 # 4503599627370496.

(** [KSpaceOverlay] and [KSpaceCanvas] define the same three helpers over
    [getRect()], the bounding rectangle of the mounted element ([None] while
    it is not mounted).  Widths and heights are not zero where they divide. *)
Definition toDisplay (rect : option Rect.t) (naturalWidth naturalHeight : Q)
  (nat : Point.t) : Point.t :=
  match rect with
  | None => Point.mk 0 0
  | Some rc =>
      let sx := Rect.width rc / naturalWidth in
      let sy := Rect.height rc / naturalHeight in
      Point.mk (Point.x nat * sx) (Point.y nat * sy)
  end.

Definition toNatural (rect : option Rect.t) (naturalWidth naturalHeight : Q)
  (disp : Point.t) : Point.t :=
  match rect with
  | None => Point.mk 0 0
  | Some rc =>
      let sx := naturalWidth / Rect.width rc in
      let sy := naturalHeight / Rect.height rc in
      Point.mk (inject_Z (JS.Math_round (Point.x disp * sx)))
               (inject_Z (JS.Math_round (Point.y disp * sy)))
  end.

Definition clampDisplay (rect : option Rect.t) (p : Point.t) (r : Q) : Point.t :=
  match rect with
  | None => p
  | Some rc =>
      Point.mk (JS.Math_max r (JS.Math_min (Rect.width rc - r) (Point.x p)))
               (JS.Math_max r (JS.Math_min (Rect.height rc - r) (Point.y p)))
  end.

(** [Math.max(5, Math.min(maxR, rawR))] with
    [maxR = Math.min(dc.x, dc.y, rect.width - dc.x, rect.height - dc.y)]. *)
Definition clampRadius (rc : Rect.t) (dc : Point.t) (rawR : Q) : Q :=
  let maxR := JS.Math_min (Point.x dc)
                (JS.Math_min (Point.y dc)
                   (JS.Math_min (Rect.width rc - Point.x dc) (Rect.height rc - Point.y dc))) in
  JS.Math_max 5 (JS.Math_min maxR rawR).

(** [Math.max(1, Math.round(rPx * sx))]. *)
Definition naturalRadius (rPx sx : Q) : Q :=
  JS.Math_max 1 (inject_Z (JS.Math_round (rPx * sx))).

(** What a component tells its parent. *)
Inductive Callback : Type :=
| onMove (center : Point.t) (radiusNatural : Q)
| onResize (radiusPx : Z).

(** [window.setTimeout(f, ms)] called at [now]: the time at which [f] runs
    unless the timeout is cleared. *)
Definition dueAt (now ms : Z) : Z := (now + Z.max 0 ms)%Z.

(** ** components/KSpaceCanvas.tsx *)

Module KSpaceCanvas.

Record Props : Type := mkProps {
  naturalWidth : Q;
  naturalHeight : Q;
  show : bool;
  radiusPx : Q;
  center : option Point.t;
  disabled : bool;
  debounceMs : Z;
  getRect : option Rect.t   (* canvasRef.current?.getBoundingClientRect() *)
}.

(** The React state and refs.  [timerRef] holds the time at which the
    pending timeout fires. *)
Record State : Type := mkState {
  dragging : bool;
  resizing : bool;
  localCenter : option Point.t;
  localRadiusPx : option Q;
  timerRef : option Z;
  lastArgsRef : option (Point.t * Q);
  lastNatRef : option Point.t
}.

Definition initial : State :=
  {| dragging := false; resizing := false; localCenter := None;
     localRadiusPx := None; timerRef := None; lastArgsRef := None;
     lastNatRef := None |}.

Inductive Event : Type :=
| PointerDown (clientX clientY : Q)
| PointerMove (clientX clientY : Q)
| PointerUp.

Section Handlers.

Variable Math_sqrt : Q -> Q.

Definition getScaleX (p : Props) : Q :=
  match getRect p with
  | Some rc => naturalWidth p / Rect.width rc
  | None => 1
  end.

(** [localRadiusPx ?? radiusPx]. *)
Definition currentRadius (p : Props) (st : State) : Q :=
  default (radiusPx p) (localRadiusPx st).

(** [localCenter ?? center]. *)
Definition effCenter (p : Props) (st : State) : option Point.t :=
  match localCenter st with
  | Some c => Some c
  | None => center p
  end.

Definition scheduleDebouncedRecon (p : Props) (now : Z) (st : State)
  (centerNat : Point.t) (rNat : Q) : State :=
  if disabled p then st
  else {| dragging := dragging st; resizing := resizing st;
          localCenter := localCenter st; localRadiusPx := localRadiusPx st;
          timerRef := Some (dueAt now (debounceMs p));
          lastArgsRef := Some (centerNat, rNat);
          lastNatRef := lastNatRef st |}.

(** The timeout callback: [timerRef.current = null] and [onMove] with the
    arguments last recorded. *)
Definition fire (st : State) : State * list Callback :=
  ({| dragging := dragging st; resizing := resizing st;
      localCenter := localCenter st; localRadiusPx := localRadiusPx st;
      timerRef := None; lastArgsRef := lastArgsRef st;
      lastNatRef := lastNatRef st |},
   match lastArgsRef st with
   | Some (c, r) => [onMove c r]
   | None => []
   end).

Definition hitHandle (displayPt dispCenter : Point.t) (rDisp : Q) : bool :=
  let hx := Point.x dispCenter + rDisp / Math_SQRT2 in
  let hy := Point.y dispCenter + rDisp / Math_SQRT2 in
  let dx := Point.x displayPt - hx in
  let dy := Point.y displayPt - hy in
  let dist := Math_sqrt (dx * dx + dy * dy) in
  Qle_bool dist 10.

Definition onPointerDown (p : Props) (clientX clientY : Q) (st : State) : State :=
  if negb (show p) || disabled p then st
  else match getRect p with
  | None => st
  | Some rc =>
      let rDisp := currentRadius p st in
      let disp := clampDisplay (getRect p)
                    (Point.mk (clientX - Rect.left rc) (clientY - Rect.top rc)) rDisp in
      let nat := toNatural (getRect p) (naturalWidth p) (naturalHeight p) disp in
      let eff := default nat (effCenter p st) in
      let dispCenter := toDisplay (getRect p) (naturalWidth p) (naturalHeight p) eff in
      if hitHandle disp dispCenter rDisp
      then {| dragging := dragging st; resizing := true;
              localCenter := localCenter st; localRadiusPx := localRadiusPx st;
              timerRef := timerRef st; lastArgsRef := lastArgsRef st;
              lastNatRef := lastNatRef st |}
      else {| dragging := true; resizing := resizing st;
              localCenter := Some nat; localRadiusPx := localRadiusPx st;
              timerRef := timerRef st; lastArgsRef := lastArgsRef st;
              lastNatRef := Some nat |}
  end.

Definition onPointerMove (p : Props) (now : Z) (clientX clientY : Q) (st : State)
  : State * list Callback :=
  if negb (show p) || disabled p then (st, [])
  else match getRect p with
  | None => (st, [])
  | Some rc =>
      let disp := Point.mk (clientX - Rect.left rc) (clientY - Rect.top rc) in
      if dragging st then
        let rDisp := currentRadius p st in
        let clamped := clampDisplay (getRect p) disp rDisp in
        let nat := toNatural (getRect p) (naturalWidth p) (naturalHeight p) clamped in
        let st1 := {| dragging := dragging st; resizing := resizing st;
                      localCenter := Some nat; localRadiusPx := localRadiusPx st;
                      timerRef := timerRef st; lastArgsRef := lastArgsRef st;
                      lastNatRef := Some nat |} in
        let rNat := naturalRadius (currentRadius p st) (getScaleX p) in
        (scheduleDebouncedRecon p now st1 nat rNat, [])
      else if resizing st then
        match effCenter p st with
        | None => (st, [])
        | Some eff =>
            let dc := toDisplay (getRect p) (naturalWidth p) (naturalHeight p) eff in
            let dx := Point.x disp - Point.x dc in
            let dy := Point.y disp - Point.y dc in
            let rawR := Math_sqrt (dx * dx + dy * dy) in
            let newR := clampRadius rc dc rawR in
            let st1 := {| dragging := dragging st; resizing := resizing st;
                          localCenter := localCenter st; localRadiusPx := Some newR;
                          timerRef := timerRef st; lastArgsRef := lastArgsRef st;
                          lastNatRef := lastNatRef st |} in
            let rNat := naturalRadius newR (getScaleX p) in
            (scheduleDebouncedRecon p now st1 eff rNat, [onResize (JS.Math_round newR)])
        end
      else (st, [])
  end.

Definition onPointerUp (p : Props) (st : State) : State * list Callback :=
  if disabled p then (st, [])
  else
    let st1 := {| dragging := false; resizing := false;
                  localCenter := localCenter st; localRadiusPx := localRadiusPx st;
                  timerRef := timerRef st; lastArgsRef := lastArgsRef st;
                  lastNatRef := lastNatRef st |} in
    if negb (dragging st) && negb (resizing st) then (st1, [])
    else
      let st2 := {| dragging := false; resizing := false;
                    localCenter := localCenter st; localRadiusPx := localRadiusPx st;
                    timerRef := None; lastArgsRef := lastArgsRef st;
                    lastNatRef := lastNatRef st |} in
      match getRect p with
      | None => (st2, [])
      | Some _ =>
          let rNat := naturalRadius (currentRadius p st) (getScaleX p) in
          match lastNatRef st with
          | Some latest => (st2, [onMove latest rNat])
          | None =>
              match center p with
              | Some latest => (st2, [onMove latest rNat])
              | None => (st2, [])
              end
          end
      end.

(** The pending timeout runs once its time has come. *)
Definition tick (now : Z) (st : State) : State * list Callback :=
  match timerRef st with
  | Some due => if (due <=? now)%Z then fire st else (st, [])
  | None => (st, [])
  end.

Definition handle (p : Props) (now : Z) (ev : Event) (st : State)
  : State * list Callback :=
  match ev with
  | PointerDown cx cy => (onPointerDown p cx cy st, [])
  | PointerMove cx cy => onPointerMove p now cx cy st
  | PointerUp => onPointerUp p st
  end.

(** Events with the time at which they are delivered; a timeout that is due
    runs before the event. *)
Fixpoint run (p : Props) (st : State) (events : list (Z * Event))
  : State * list Callback :=
  match events with
  | [] => (st, [])
  | (now, ev) :: rest =>
      let '(st1, out1) := tick now st in
      let '(st2, out2) := handle p now ev st1 in
      let '(st3, out3) := run p st2 rest in
      (st3, out1 ++ out2 ++ out3)
  end.

(** The events, and then the passing of time until [finish]. *)
Definition runUntil (p : Props) (st : State) (events : list (Z * Event)) (finish : Z)
  : State * list Callback :=
  let '(st1, out1) := run p st events in
  let '(st2, out2) := tick finish st1 in
  (st2, out1 ++ out2).

(** The arguments a pointer-move hands to [scheduleDebouncedRecon]. *)
Definition moveArgs (p : Props) (st : State) (clientX clientY : Q)
  : option (Point.t * Q) :=
  match getRect p with
  | None => None
  | Some rc =>
      let disp := Point.mk (clientX - Rect.left rc) (clientY - Rect.top rc) in
      if dragging st then
        Some (toNatural (getRect p) (naturalWidth p) (naturalHeight p)
                (clampDisplay (getRect p) disp (currentRadius p st)),
              naturalRadius (currentRadius p st) (getScaleX p))
      else if resizing st then
        match effCenter p st with
        | None => None
        | Some eff =>
            let dc := toDisplay (getRect p) (naturalWidth p) (naturalHeight p) eff in
            let dx := Point.x disp - Point.x dc in
            let dy := Point.y disp - Point.y dc in
            Some (eff, naturalRadius (clampRadius rc dc (Math_sqrt (dx * dx + dy * dy)))
                         (getScaleX p))
        end
      else None
  end.

End Handlers.

End KSpaceCanvas.

(** ** components/KSpaceOverlay.tsx

    The component on its own: the props are given, the container counts as
    mounted when [getRect] has a value, and a handler sees the state that
    the latest render has seen.  The renders, the effect on [show, center]
    and the props that [App] passes are the subject of [Mounted] below. *)

Module KSpaceOverlay.

Record Props : Type := mkProps {
  show : bool;
  naturalWidth : Q;
  naturalHeight : Q;
  radiusPx : Q;
  center : option Point.t;
  debounceMs : Z;
  disabled : bool;
  getRect : option Rect.t   (* containerRef.current?.getBoundingClientRect() *)
}.

(** [timerRef] holds the time at which the pending timeout fires together
    with the arguments its closure captured. *)
Record State : Type := mkState {
  dragging : bool;
  resizing : bool;
  localCenter : option Point.t;
  localRadiusPx : option Q;
  timerRef : option (Z * (Point.t * Q));
  lastNatRef : option Point.t
}.

Definition initial : State :=
  {| dragging := false; resizing := false; localCenter := None;
     localRadiusPx := None; timerRef := None; lastNatRef := None |}.

(** The circle and the resize handle are two elements with their own
    handlers. *)
Inductive Event : Type :=
| PointerDown (clientX clientY : Q)
| PointerMove (clientX clientY : Q)
| PointerUp
| ResizeDown
| ResizeMove (clientX clientY : Q)
| ResizeUp.

Section Handlers.

Variable Math_sqrt : Q -> Q.

(** The value [radiusNatural] computed at each render. *)
Definition radiusNatural (p : Props) (st : State) : Q :=
  match getRect p with
  | None => 0
  | Some rc =>
      let sx := naturalWidth p / Rect.width rc in
      let rPx := default (radiusPx p) (localRadiusPx st) in
      naturalRadius rPx sx
  end.

Definition withCenter (st : State) (nat : Point.t) (drag : bool) : State :=
  {| dragging := drag; resizing := resizing st;
     localCenter := Some nat; localRadiusPx := localRadiusPx st;
     timerRef := timerRef st; lastNatRef := Some nat |}.

Definition pointerNatural (p : Props) (rc : Rect.t) (clientX clientY : Q) : Point.t :=
  let r := radiusPx p in
  let disp := clampDisplay (getRect p)
                (Point.mk (clientX - Rect.left rc) (clientY - Rect.top rc)) r in
  toNatural (getRect p) (naturalWidth p) (naturalHeight p) disp.

Definition onPointerDown (p : Props) (clientX clientY : Q) (st : State) : State :=
  if negb (show p) || disabled p then st
  else match getRect p with
  | None => st
  | Some rc => withCenter st (pointerNatural p rc clientX clientY) true
  end.

Definition onPointerMove (p : Props) (clientX clientY : Q) (st : State) : State :=
  if negb (show p) || negb (dragging st) || disabled p then st
  else match getRect p with
  | None => st
  | Some rc => withCenter st (pointerNatural p rc clientX clientY) (dragging st)
  end.

(** [lastNatRef.current ?? center]. *)
Definition latest (p : Props) (st : State) : option Point.t :=
  match lastNatRef st with
  | Some c => Some c
  | None => center p
  end.

(** The common end of [onPointerUp] and [onResizeUp]: clear the pending
    timeout, and arm one that calls [onMove] if there is a centre. *)
Definition armCommit (p : Props) (now : Z) (st : State) (drag rsz : bool) : State :=
  {| dragging := drag; resizing := rsz;
     localCenter := localCenter st; localRadiusPx := localRadiusPx st;
     timerRef := match latest p st with
                 | Some c => Some (dueAt now (debounceMs p), (c, radiusNatural p st))
                 | None => None
                 end;
     lastNatRef := lastNatRef st |}.

Definition onPointerUp (p : Props) (now : Z) (st : State) : State :=
  if disabled p then st else armCommit p now st false (resizing st).

Definition onResizeDown (p : Props) (st : State) : State :=
  if negb (show p) || disabled p then st
  else {| dragging := dragging st; resizing := true;
          localCenter := localCenter st; localRadiusPx := localRadiusPx st;
          timerRef := timerRef st; lastNatRef := lastNatRef st |}.

Definition onResizeMove (p : Props) (clientX clientY : Q) (st : State)
  : State * list Callback :=
  if negb (show p) || negb (resizing st) || disabled p then (st, [])
  else match getRect p with
  | None => (st, [])
  | Some rc =>
      match (match localCenter st with Some c => Some c | None => center p end) with
      | None => (st, [])
      | Some eff =>
          let dc := toDisplay (getRect p) (naturalWidth p) (naturalHeight p) eff in
          let dx := (clientX - Rect.left rc) - Point.x dc in
          let dy := (clientY - Rect.top rc) - Point.y dc in
          let rawR := Math_sqrt (dx * dx + dy * dy) in
          let newR := clampRadius rc dc rawR in
          ({| dragging := dragging st; resizing := resizing st;
              localCenter := localCenter st; localRadiusPx := Some newR;
              timerRef := timerRef st; lastNatRef := lastNatRef st |},
           [onResize (JS.Math_round newR)])
      end
  end.

Definition onResizeUp (p : Props) (now : Z) (st : State) : State :=
  if negb (resizing st) then st else armCommit p now st (dragging st) false.

(** The timeout callback: [timerRef.current = null] and [onMove] with the
    captured arguments. *)
Definition tick (now : Z) (st : State) : State * list Callback :=
  match timerRef st with
  | Some (due, (c, r)) =>
      if (due <=? now)%Z
      then ({| dragging := dragging st; resizing := resizing st;
               localCenter := localCenter st; localRadiusPx := localRadiusPx st;
               timerRef := None; lastNatRef := lastNatRef st |},
            [onMove c r])
      else (st, [])
  | None => (st, [])
  end.

Definition handle (p : Props) (now : Z) (ev : Event) (st : State)
  : State * list Callback :=
  match ev with
  | PointerDown cx cy => (onPointerDown p cx cy st, [])
  | PointerMove cx cy => (onPointerMove p cx cy st, [])
  | PointerUp => (onPointerUp p now st, [])
  | ResizeDown => (onResizeDown p st, [])
  | ResizeMove cx cy => onResizeMove p cx cy st
  | ResizeUp => (onResizeUp p now st, [])
  end.

Fixpoint run (p : Props) (st : State) (events : list (Z * Event))
  : State * list Callback :=
  match events with
  | [] => (st, [])
  | (now, ev) :: rest =>
      let '(st1, out1) := tick now st in
      let '(st2, out2) := handle p now ev st1 in
      let '(st3, out3) := run p st2 rest in
      (st3, out1 ++ out2 ++ out3)
  end.

Definition runUntil (p : Props) (st : State) (events : list (Z * Event)) (finish : Z)
  : State * list Callback :=
  let '(st1, out1) := run p st events in
  let '(st2, out2) := tick finish st1 in
  (st2, out1 ++ out2).

End Handlers.

End KSpaceOverlay.

(** ** App.tsx *)

Module App.

(** A data URL of the reconstruction, as the image it encodes. *)
Record Image : Type := mkImage {
  imageRows : Z;
  imageCols : Z;
  imagePixels : list Z
}.

Record State : Type := mkState {
  reconUrl : option Image;
  reconBusy : bool;
  rows : option Z;
  cols : option Z;
  circleCenter : option Point.t
}.

(** [new ImageData(pixels, cols, rows)] accepts a buffer of four bytes for
    each of [cols * rows] pixels. *)
Definition newImageData (pixels : list Z) (sw sh : Z) : JS.Result Image :=
  if (0 <? sw)%Z && (0 <? sh)%Z && (Z.of_nat (length pixels) =? 4 * sw * sh)%Z
  then JS.Returned {| imageRows := sh; imageCols := sw; imagePixels := pixels |}
  else JS.Thrown JS.IndexSizeError.

(** [workerRef.current.onmessage] installed by [ensureWorker]. *)
Definition onWorkerMessage (app : State) (msg : ReconWorker.OutMsg) : State :=
  match msg with
  | ReconWorker.recon r c pixels =>
      match newImageData pixels c r with
      | JS.Returned url =>
          {| reconUrl := Some url; reconBusy := false;
             rows := rows app; cols := cols app; circleCenter := circleCenter app |}
      | JS.Thrown _ => app
      end
  | ReconWorker.error _ =>
      {| reconUrl := reconUrl app; reconBusy := false;
         rows := rows app; cols := cols app; circleCenter := circleCenter app |}
  | ReconWorker.loaded => app
  end.

(** Replies are handled in the order in which they arrive. *)
Definition deliver (app : State) (replies : list ReconWorker.OutMsg) : State :=
  foldl onWorkerMessage app replies.

(** [onOverlayMove]: the new state and the messages posted to the worker. *)
Definition onOverlayMove (app : State) (centerNat : Point.t) (radiusNat : Q)
  : State * list ReconWorker.InMsg :=
  match rows app, cols app with
  | Some _, Some _ =>
      ({| reconUrl := reconUrl app; reconBusy := true;
          rows := rows app; cols := cols app; circleCenter := Some centerNat |},
       [ReconWorker.circleRecon (Point.x centerNat) (Point.y centerNat) radiusNat])
  | _, _ =>
      ({| reconUrl := reconUrl app; reconBusy := reconBusy app;
          rows := rows app; cols := cols app; circleCenter := Some centerNat |},
       [])
  end.

(** The requests that the callbacks of a mask component cause. *)
Fixpoint requests (app : State) (calls : list Callback) : list ReconWorker.InMsg :=
  match calls with
  | [] => []
  | onMove c r :: rest =>
      let '(app1, out) := onOverlayMove app c r in out ++ requests app1 rest
  | onResize _ :: rest => requests app rest
  end.

End App.

(** ** App.tsx together with the KSpaceOverlay it mounts

    [App] hands its state to the overlay as props ([show = selecting],
    [center = circleCenter], [disabled = reconBusy], [naturalWidth = cols],
    [onMove = onOverlayMove], [onResize = setRadiusPx]) and renders it again
    whenever a state of either component changes.  What a render leaves
    behind is part of the state here: whether the container is mounted, the
    constant [radiusNatural] that the handlers and the effect of that render
    close over, and the dependencies [show, center] of the effect. *)

Module Mounted.

(** An object [{ x, y }] with its identity: React compares a state and the
    dependencies of an effect with [Object.is]. *)
Record Obj : Type := mkObj { ident : nat; point : Point.t }.

(** The state of [App] that reaches the overlay. *)
Record Parent : Type := mkParent {
  selecting : bool;
  circleCenter : option Obj;
  radiusPx : Q;
  reconBusy : bool
}.

(** The state and the refs of [KSpaceOverlay]. *)
Record Overlay : Type := mkOverlay {
  dragging : bool;
  resizing : bool;
  localCenter : option Obj;
  localRadiusPx : option Q;
  timerRef : option (Z * (Obj * Q));
  lastNatRef : option Obj
}.

(** What the last render has left: [containerRef.current] is the container
    (it is [null] until a render with [show] has been committed), the value
    of [radiusNatural], and the dependencies of the last run of the effect. *)
Record Rendered : Type := mkRendered {
  containerRef : bool;
  radiusNatural : Q;
  effectDeps : bool * option nat
}.

Record State : Type := mkState {
  parent : Parent;
  overlay : Overlay;
  last : Rendered;
  nextIdent : nat
}.

Inductive Event : Type :=
| PointerDown (clientX clientY : Q)
| PointerMove (clientX clientY : Q)
| PointerUp
| ResizeDown
| ResizeMove (clientX clientY : Q)
| ResizeUp
| WorkerReply (urlChanged : bool).

(** [Object.is] on two numbers, and on a state [number | null]. *)
Definition sameNumber (a : option Q) (b : Q) : bool :=
  match a with
  | Some a => Qeq_bool a b
  | None => false
  end.

Definition sameObject (a : option Obj) (b : Obj) : bool :=
  match a with
  | Some a => Nat.eqb (ident a) (ident b)
  | None => false
  end.

Definition sameDeps (a b : bool * option nat) : bool :=
  Bool.eqb (fst a) (fst b) &&
  match snd a, snd b with
  | Some i, Some j => Nat.eqb i j
  | None, None => true
  | _, _ => false
  end.

Section Selection.

Variable Math_sqrt : Q -> Q.

(** The bounding rectangle of the container once it is mounted, and the
    dimensions of the spectrum, known as long as the overlay is mounted. *)
Variable rc : Rect.t.
Variables rows cols : Z.

(** The default of the prop [debounceMs], which [App] does not pass. *)
Definition debounceMs : Z := 120.

Definition getRect (st : State) : option Rect.t :=
  if containerRef (last st) then Some rc else None.

(** [localCenter ?? center]. *)
Definition effectiveCenter (st : State) : option Obj :=
  match localCenter (overlay st) with
  | Some c => Some c
  | None => circleCenter (parent st)
  end.

(** The circle and the handle are rendered, and receive pointer events,
    only with [show] and a centre. *)
Definition circleShown (st : State) : bool :=
  selecting (parent st) &&
  match effectiveCenter st with Some _ => true | None => false end.

(** The value that the render body computes for [radiusNatural]. *)
Definition computeRadiusNatural (st : State) : Q :=
  match getRect st with
  | None => 0
  | Some rect =>
      naturalRadius (default (radiusPx (parent st)) (localRadiusPx (overlay st)))
                    (inject_Z cols / Rect.width rect)
  end.

(** [onOverlayMove]: the new state, whether a state of [App] has changed,
    and the message posted. *)
Definition onOverlayMove (st : State) (centerNat : Obj) (radiusNat : Q)
  : State * bool * list ReconWorker.InMsg :=
  let p := parent st in
  ({| parent := {| selecting := selecting p; circleCenter := Some centerNat;
                   radiusPx := radiusPx p; reconBusy := true |};
      overlay := overlay st; last := last st; nextIdent := nextIdent st |},
   negb (sameObject (circleCenter p) centerNat) || negb (reconBusy p),
   [ReconWorker.circleRecon (Point.x (point centerNat)) (Point.y (point centerNat))
      radiusNat]).

(** The render body and the commit: [radiusNatural] is computed with the
    container as the previous commit left it; afterwards the container is
    mounted exactly when the overlay is shown. *)
Definition paint (st : State) : State :=
  {| parent := parent st; overlay := overlay st;
     last := {| containerRef := selecting (parent st);
                radiusNatural := computeRadiusNatural st;
                effectDeps := effectDeps (last st) |};
     nextIdent := nextIdent st |}.

(** The effect on [show, center], run after a commit when one of the two
    has changed.  Its call of [onMove] makes [App] render again when a state
    of [App] changes; the dependencies are the same in that render. *)
Definition effect (st : State) : State * list ReconWorker.InMsg :=
  let p := parent st in
  let now := (selecting p, option_map ident (circleCenter p)) in
  if sameDeps (effectDeps (last st)) now then (st, [])
  else
    let st1 := {| parent := p; overlay := overlay st;
                  last := {| containerRef := containerRef (last st);
                             radiusNatural := radiusNatural (last st);
                             effectDeps := now |};
                  nextIdent := nextIdent st |} in
    match circleCenter p with
    | Some c =>
        if selecting p && negb (Qle_bool (radiusNatural (last st)) 0)
        then let '(st2, changed, out) := onOverlayMove st1 c (radiusNatural (last st)) in
             (if changed then paint st2 else st2, out)
        else (st1, [])
    | None => (st1, [])
    end.

(** A render caused by a change of state. *)
Definition render (st : State) : State * list ReconWorker.InMsg := effect (paint st).

(** The object that [toNatural(clampDisplay(...))] creates. *)
Definition pointerNatural (st : State) (clientX clientY : Q) : Point.t :=
  let disp := clampDisplay (Some rc)
                (Point.mk (clientX - Rect.left rc) (clientY - Rect.top rc))
                (radiusPx (parent st)) in
  toNatural (Some rc) (inject_Z cols) (inject_Z rows) disp.

Definition withCenter (st : State) (nat : Point.t) (drag : bool) : State :=
  let o := overlay st in
  let obj := mkObj (nextIdent st) nat in
  {| parent := parent st;
     overlay := {| dragging := drag; resizing := resizing o;
                   localCenter := Some obj; localRadiusPx := localRadiusPx o;
                   timerRef := timerRef o; lastNatRef := Some obj |};
     last := last st; nextIdent := S (nextIdent st) |}.

(** The handlers: the state they leave, and whether a state has changed. *)
Definition onPointerDown (clientX clientY : Q) (st : State) : State * bool :=
  if negb (selecting (parent st)) || reconBusy (parent st) then (st, false)
  else match getRect st with
  | None => (st, false)
  | Some _ => (withCenter st (pointerNatural st clientX clientY) true, true)
  end.

Definition onPointerMove (clientX clientY : Q) (st : State) : State * bool :=
  if negb (selecting (parent st)) || negb (dragging (overlay st)) || reconBusy (parent st)
  then (st, false)
  else match getRect st with
  | None => (st, false)
  | Some _ =>
      (withCenter st (pointerNatural st clientX clientY) (dragging (overlay st)), true)
  end.

(** [lastNatRef.current ?? center]. *)
Definition latest (st : State) : option Obj :=
  match lastNatRef (overlay st) with
  | Some c => Some c
  | None => circleCenter (parent st)
  end.

(** The common end of [onPointerUp] and [onResizeUp]: the pending timeout
    is cleared, and one is armed that calls [onMove] with the latest centre
    and with the [radiusNatural] of the render whose handler is running. *)
Definition armCommit (now : Z) (st : State) (drag rsz : bool) : State :=
  let o := overlay st in
  {| parent := parent st;
     overlay := {| dragging := drag; resizing := rsz;
                   localCenter := localCenter o; localRadiusPx := localRadiusPx o;
                   timerRef := match latest st with
                               | Some c => Some (dueAt now debounceMs,
                                                 (c, radiusNatural (last st)))
                               | None => None
                               end;
                   lastNatRef := lastNatRef o |};
     last := last st; nextIdent := nextIdent st |}.

Definition onPointerUp (now : Z) (st : State) : State * bool :=
  if reconBusy (parent st) then (st, false)
  else (armCommit now st false (resizing (overlay st)), dragging (overlay st)).

Definition onResizeDown (st : State) : State * bool :=
  if negb (selecting (parent st)) || reconBusy (parent st) then (st, false)
  else
    let o := overlay st in
    ({| parent := parent st;
        overlay := {| dragging := dragging o; resizing := true;
                      localCenter := localCenter o; localRadiusPx := localRadiusPx o;
                      timerRef := timerRef o; lastNatRef := lastNatRef o |};
        last := last st; nextIdent := nextIdent st |},
     negb (resizing o)).

(** [setLocalRadiusPx(newR)] and, through [onResize], [setRadiusPx] of
    [App] with the rounded radius. *)
Definition onResizeMove (clientX clientY : Q) (st : State) : State * bool :=
  if negb (selecting (parent st)) || negb (resizing (overlay st)) || reconBusy (parent st)
  then (st, false)
  else match getRect st with
  | None => (st, false)
  | Some rect =>
      match effectiveCenter st with
      | None => (st, false)
      | Some eff =>
          let dc := toDisplay (Some rect) (inject_Z cols) (inject_Z rows) (point eff) in
          let dx := (clientX - Rect.left rect) - Point.x dc in
          let dy := (clientY - Rect.top rect) - Point.y dc in
          let rawR := Math_sqrt (dx * dx + dy * dy) in
          let newR := clampRadius rect dc rawR in
          let rounded := inject_Z (JS.Math_round newR) in
          let p := parent st in
          let o := overlay st in
          ({| parent := {| selecting := selecting p; circleCenter := circleCenter p;
                           radiusPx := rounded; reconBusy := reconBusy p |};
              overlay := {| dragging := dragging o; resizing := resizing o;
                            localCenter := localCenter o; localRadiusPx := Some newR;
                            timerRef := timerRef o; lastNatRef := lastNatRef o |};
              last := last st; nextIdent := nextIdent st |},
           negb (sameNumber (localRadiusPx o) newR) || negb (Qeq_bool (radiusPx p) rounded))
      end
  end.

Definition onResizeUp (now : Z) (st : State) : State * bool :=
  if negb (resizing (overlay st)) then (st, false)
  else (armCommit now st (dragging (overlay st)) false, true).

(** The handler of the worker's replies in [App]: [reconBusy] is cleared,
    and a [recon] reply sets the URL of the reconstruction. *)
Definition onWorkerReply (urlChanged : bool) (st : State) : State * bool :=
  let p := parent st in
  ({| parent := {| selecting := selecting p; circleCenter := circleCenter p;
                   radiusPx := radiusPx p; reconBusy := false |};
      overlay := overlay st; last := last st; nextIdent := nextIdent st |},
   urlChanged || reconBusy p).

(** The pending timeout runs once its time has come:
    [timerRef.current = null; onMove(latest, radiusNatural)]. *)
Definition tick (now : Z) (st : State) : State * list ReconWorker.InMsg :=
  match timerRef (overlay st) with
  | Some (due, (c, r)) =>
      if (due <=? now)%Z then
        let o := overlay st in
        let st1 := {| parent := parent st;
                      overlay := {| dragging := dragging o; resizing := resizing o;
                                    localCenter := localCenter o;
                                    localRadiusPx := localRadiusPx o;
                                    timerRef := None; lastNatRef := lastNatRef o |};
                      last := last st; nextIdent := nextIdent st |} in
        let '(st2, changed, out) := onOverlayMove st1 c r in
        if changed then let '(st3, out') := render st2 in (st3, out ++ out')
        else (st2, out)
      else (st, [])
  | None => (st, [])
  end.

Definition dispatch (now : Z) (ev : Event) (st : State) : State * bool :=
  match ev with
  | WorkerReply urlChanged => onWorkerReply urlChanged st
  | _ =>
      if circleShown st then
        match ev with
        | PointerDown cx cy => onPointerDown cx cy st
        | PointerMove cx cy => onPointerMove cx cy st
        | PointerUp => onPointerUp now st
        | ResizeDown => onResizeDown st
        | ResizeMove cx cy => onResizeMove cx cy st
        | ResizeUp => onResizeUp now st
        | WorkerReply _ => (st, false)
        end
      else (st, false)
  end.

(** An event, and the render that follows a change of state. *)
Definition handle (now : Z) (ev : Event) (st : State) : State * list ReconWorker.InMsg :=
  let '(st1, changed) := dispatch now ev st in
  if changed then render st1 else (st1, []).

(** Events with the time at which they are delivered; a timeout that is due
    runs before the event.  The result lists the messages posted to the
    worker. *)
Fixpoint run (st : State) (events : list (Z * Event)) : State * list ReconWorker.InMsg :=
  match events with
  | [] => (st, [])
  | (now, ev) :: rest =>
      let '(st1, out1) := tick now st in
      let '(st2, out2) := handle now ev st1 in
      let '(st3, out3) := run st2 rest in
      (st3, out1 ++ out2 ++ out3)
  end.

Definition runUntil (st : State) (events : list (Z * Event)) (finish : Z)
  : State * list ReconWorker.InMsg :=
  let '(st1, out1) := run st events in
  let '(st2, out2) := tick finish st1 in
  (st2, out1 ++ out2).

End Selection.


End Mounted.

(** ** lib/kspace.ts: loading an image, and the whole pipeline *)

Module Loading.

(** [type GrayImage = { gray, rows, cols }]. *)
Record GrayImage : Type := mkGrayImage {
  gray : list (list Q);
  rows : Z;
  cols : Z
}.

(** The size of the canvas on which [loadAndGrayscale] draws an image of
    [width] x [height] pixels: the longer side is cut down to [maxDim], the
    other one in proportion.  The three numbers are non-negative integers. *)
Definition scaledSize (width height maxDim : Z) : Z * Z :=
  if (width >? height)%Z then
    if (width >? maxDim)%Z
    then (maxDim, JS.Math_round (inject_Z (height * maxDim) / inject_Z width))
    else (width, height)
  else
    if (height >? maxDim)%Z
    then (JS.Math_round (inject_Z (width * maxDim) / inject_Z height), maxDim)
    else (width, height).

(** [0.299 * r + 0.587 * g + 0.114 * b] of the pixel whose bytes start at
    [i]. *)
Definition luma (data : list Z) (i : nat) : Q :=
  (299 # 1000) * inject_Z (data !!! i)
  + (587 # 1000) * inject_Z (data !!! (i + 1)%nat)
  + (114 # 1000) * inject_Z (data !!! (i + 2)%nat).

Section Pipeline.

(** [ctx.getImageData(0, 0, width, height).data] after the image has been
    drawn at that size: [4 * width * height] bytes in [0, 255], produced by
    the browser. *)
Variable getImageData : Z -> Z -> list Z.
Variables fft ifft : list Complex -> JS.Result (list Complex).
Variable log1pAbs : Complex -> Q.

(** [loadAndGrayscale], from the moment the image has loaded with the
    natural size [width] x [height].  [getImageData] refuses a canvas
    without extent. *)
Definition loadAndGrayscale (width height maxDim : Z) : JS.Result GrayImage :=
  let '(w, h) := scaledSize width height maxDim in
  if (w =? 0)%Z || (h =? 0)%Z then JS.Thrown JS.IndexSizeError
  else
    let data := getImageData w h in
    let n := Z.to_nat h in
    let m := Z.to_nat w in
    JS.Returned
      {| gray := map (fun y => map (fun x => luma data ((y * m + x) * 4)) (seq 0 m))
                     (seq 0 n);
         rows := h; cols := w |}.

(** The result of [computeSpectrumAndRecon]; the two URLs as the image data
    they encode. *)
Record SpectrumAndRecon : Type := mkSpectrumAndRecon {
  spectrum : list (list Complex);
  outRows : Z;
  outCols : Z;
  kspaceUrl : list Z;
  reconUrl : list Z
}.

Definition computeSpectrumAndRecon (width height maxDim : Z)
  : JS.Result SpectrumAndRecon :=
  try! img := loadAndGrayscale width height maxDim in
  try! spec := Kspace.computeSpectrum fft (gray img) (rows img) (cols img) in
  try! kUrl := Kspace.renderKspace log1pAbs spec (rows img) (cols img) in
  try! rUrl := Kspace.renderReconFromSpectrum ifft spec (rows img) (cols img) in
  JS.Returned {| spectrum := spec; outRows := rows img; outCols := cols img;
                 kspaceUrl := kUrl; reconUrl := rUrl |}.

End Pipeline.

End Loading.

(** ** App.tsx: handing the spectrum to the worker *)

Module Handover.

Section Flatten.

(** The rounding of a number stored in a [Float32Array] ([Math.fround]). *)
Variable fround : Q -> Q.

(** [re[i] = z.re ?? 0; im[i] = z.im ?? 0] for the cell (x, y) of a row of
    [c] cells, [z = spec[y][x]] being a complex number that the spectrum
    holds.  A typed array ignores a store past its end. *)
Definition storeCell (spec : list (list Complex)) (c y : nat)
  (planes : list Q * list Q) (x : nat) : list Q * list Q :=
  let z := at2 spec y x in
  let i := (y * c + x)%nat in
  (<[i := fround (re z)]> (fst planes), <[i := fround (im z)]> (snd planes)).

(** [flattenSpectrum]: two zero-filled typed arrays of [r * c] numbers,
    filled row by row. *)
Definition flattenSpectrum (spec : list (list Complex)) (r c : Z)
  : JS.Result (list Q * list Q) :=
  try! len := JS.newArray (r * c) in
  let n := Z.to_nat r in
  let m := Z.to_nat c in
  JS.Returned
    (foldl (fun planes y => foldl (storeCell spec m y) planes (seq 0 m))
           (replicate len 0, replicate len 0) (seq 0 n)).

(** The message [{ type: 'loadSpectrum', rows, cols, re, im }] that
    [processImage] posts once the spectrum is computed. *)
Definition loadMessage (spec : list (list Complex)) (rows cols : Z)
  : JS.Result ReconWorker.InMsg :=
  try! planes := flattenSpectrum spec rows cols in
  JS.Returned (ReconWorker.loadSpectrum rows cols (fst planes) (snd planes)).

(** A coefficient as the worker holds it. *)
Definition stored (z : Complex) : Complex := mkComplex (fround (re z)) (fround (im z)).

End Flatten.

End Handover.

(** ** App.tsx: processImage

    The results handed to the state setters and the message posted to the
    worker, when nothing throws; an exception is caught and reported. *)

Module Processing.

Section ProcessImage.

Variable getImageData : Z -> Z -> list Z.
Variables fft ifft : list Complex -> JS.Result (list Complex).
Variable log1pAbs : Complex -> Q.
Variable fround : Q -> Q.

Definition processImage (width height : Z)
  : JS.Result (Loading.SpectrumAndRecon * ReconWorker.InMsg) :=
  try! out := Loading.computeSpectrumAndRecon getImageData fft ifft log1pAbs
                width height 256 in
  try! msg := Handover.loadMessage fround (Loading.spectrum out)
                (Loading.outRows out) (Loading.outCols out) in
  JS.Returned (out, msg).

End ProcessImage.

End Processing.

(** ** Exact instances of the run-time functions

    The powers of the N-th root of unity are complex rationals exactly when N
    divides 4, so the standard discrete Fourier transform can be written down
    exactly for the lengths 1, 2 and 4. *)

Module Exact.

(** The powers of the imaginary unit. *)
Definition iPower (k : nat) : Complex :=
  match (k mod 4)%nat with
  | 0%nat => mkComplex 1 0
  | 1%nat => mkComplex 0 1
  | 2%nat => mkComplex (-1) 0
  | _ => mkComplex 0 (-1)
  end.

(** [exp(-2 pi i j / N)] for the forward transform and [exp(2 pi i j / N)]
    for the inverse one, for [N] in 1, 2, 4. *)
Definition twiddle (inverse : bool) (N j : nat) : Complex :=
  iPower ((if inverse then j else 3 * j) * (4 / N)).

Definition supported (N : nat) : bool :=
  (N =? 1)%nat || (N =? 2)%nat || (N =? 4)%nat.

(** Modelled from the spec: [math.fft] and [math.ifft] belong to mathjs and
    are missing from the sources; the specification says that "each 1D
    transform is a standard length-N discrete Fourier transform",
    [X_k = sum_n x_n exp(-2 pi i k n / N)], with the inverse
    [x_n = (1 / N) sum_k X_k exp(2 pi i k n / N)].  Lengths other than 1, 2
    and 4 are outside of this instance. *)
Definition transform (inverse : bool) (l : list Complex) : JS.Result (list Complex) :=
  let N := length l in
  if supported N then
    JS.Returned
      (map (fun k =>
              let s := csum (imap (fun n v => cmul v (twiddle inverse N (k * n))) l) in
              if inverse then cscale (1 / inject_Z (Z.of_nat N)) s else s)
           (seq 0 N))
  else JS.Thrown JS.RangeError.

Definition fft : list Complex -> JS.Result (list Complex) := transform false.
Definition ifft : list Complex -> JS.Result (list Complex) := transform true.

(** A stand-in for [Math.log1p(math.abs(z))] with rational values: like it,
    zero at zero and growing with the modulus. *)
Definition energy (z : Complex) : Q := re z * re z + im z * im z.

(** A stand-in for [Math.sqrt] with rational values: the integer square
    root of the integer part. *)
Definition isqrt (q : Q) : Q := inject_Z (Z.sqrt (Qfloor q)).

(** The 4 x 4 grid whose samples are all 100. *)
Definition flat100 : list (list Q) := replicate 4 (replicate 4 100).

End Exact.

(** ** Vocabulary of the statements *)

(** The disc of a mask as the specification words it:
    [(x - cx)^2 + (y - cy)^2 <= radius^2]. *)
Definition inDisc (cx cy radius : Q) (x y : nat) : Prop :=
  (inject_Z (Z.of_nat x) - cx) ^ 2 + (inject_Z (Z.of_nat y) - cy) ^ 2 <= radius ^ 2.

(** A SampleGrid of [rows] rows of [cols] samples. *)
Definition sampleGrid (gray : list (list Q)) (rows cols : Z) : Prop :=
  Z.of_nat (length gray) = rows /\
  Forall (fun row => Z.of_nat (length row) = cols) gray.

(** The transform returns on arrays of [N] entries, with [N] coefficients. *)
Definition returnsOn (t : list Complex -> JS.Result (list Complex)) (N : Z) : Prop :=
  forall l, Z.of_nat (length l) = N ->
    exists l', t l = JS.Returned l' /\ length l' = length l.

(** [ifft] undoes [fft] on arrays of [N] entries, up to the representation
    of the rationals. *)
Definition undoes (fft ifft : list Complex -> JS.Result (list Complex)) (N : Z) : Prop :=
  forall l, Z.of_nat (length l) = N ->
    exists l' l'', fft l = JS.Returned l' /\ length l' = length l /\
                   ifft l' = JS.Returned l'' /\ Forall2 ceq l'' l.

(** Equal arrays of [N] entries have equal transforms. *)
Definition respects (t : list Complex -> JS.Result (list Complex)) (N : Z) : Prop :=
  forall l1 l2 r1, Z.of_nat (length l1) = N -> Forall2 ceq l1 l2 ->
    t l1 = JS.Returned r1 ->
    exists r2, t l2 = JS.Returned r2 /\ Forall2 ceq r1 r2.

(** Four bytes per pixel: three equal grey levels in [0, 255], and an alpha
    of 255. *)
Definition opaqueGray (px : list Z) (rows cols : Z) : Prop :=
  Z.of_nat (length px) = (rows * cols * 4)%Z /\
  forall p : nat, (Z.of_nat p < rows * cols)%Z ->
    exists v, (0 <= v <= 255)%Z /\
      px !! (4 * p)%nat = Some v /\
      px !! (4 * p + 1)%nat = Some v /\
      px !! (4 * p + 2)%nat = Some v /\
      px !! (4 * p + 3)%nat = Some 255%Z.

(** The samples seen so far and the extremes tracked over them. *)
Definition tracked (S : list Q) (mm : Raster.Extremes) : Prop :=
  match mm with
  | None => S = []
  | Some (lo, hi) => lo ∈ S /\ hi ∈ S /\ forall v, v ∈ S -> lo <= v /\ v <= hi
  end.

(** The cached planes read back as a grid: the coefficient (x, y) is at
    offset [y * cols + x]. *)
Definition cachedSpectrum (st : ReconWorker.State) (n m : nat) : list (list Complex) :=
  map (fun y => map (fun x =>
         mkComplex (default [] (ReconWorker.SPEC_RE st) !!! (y * m + x)%nat)
                   (default [] (ReconWorker.SPEC_IM st) !!! (y * m + x)%nat))
       (seq 0 m)) (seq 0 n).

(** Both planes are present and hold [ROWS * COLS] coefficients. *)
Definition planesLoaded (st : ReconWorker.State) : Prop :=
  exists re im, ReconWorker.SPEC_RE st = Some re /\ ReconWorker.SPEC_IM st = Some im /\
    (ReconWorker.ROWS st * ReconWorker.COLS st <= Z.of_nat (length re))%Z /\
    (ReconWorker.ROWS st * ReconWorker.COLS st <= Z.of_nat (length im))%Z.

Definition isCircleRecon (m : ReconWorker.InMsg) : Prop :=
  match m with
  | ReconWorker.circleRecon _ _ _ => True
  | ReconWorker.loadSpectrum _ _ _ _ => False
  end.

(** The spectrum of the flat 4 x 4 grid: 1600 in the middle, 0 elsewhere. *)
Definition flatSpectrum : list (list Complex) :=
  map (fun y => map (fun x => if (y =? 2)%nat && (x =? 2)%nat then ofReal 1600 else czero)
                    (seq 0 4)) (seq 0 4).

(** The calls of [onMove] among the callbacks. *)
Fixpoint commits (out : list Callback) : list (Point.t * Q) :=
  match out with
  | [] => []
  | onMove c r :: rest => (c, r) :: commits rest
  | onResize _ :: rest => commits rest
  end.

(** Consecutive events are less than the debounce delay apart. *)
Fixpoint rapid (debounceMs : Z) (times : list Z) : Prop :=
  match times with
  | t1 :: rest =>
      match rest with
      | t2 :: _ => (t1 <= t2 < t1 + debounceMs)%Z
      | [] => True
      end /\ rapid debounceMs rest
  | [] => True
  end.

Module CanvasSpec.
Import KSpaceCanvas.

(** Pointer moves, each with its time and its client coordinates. *)
Definition moveEvents (moves : list (Z * (Q * Q))) : list (Z * Event) :=
  map (fun m => (fst m, PointerMove (fst (snd m)) (snd (snd m)))) moves.

(** A drag, or a resize around a known centre, is in progress. *)
Definition active (p : Props) (st : State) : Prop :=
  dragging st = true \/ (resizing st = true /\ is_Some (effCenter p st)).

(** The part of the state that the arguments of a move depend on. *)
Definition sameGesture (st st' : State) : Prop :=
  dragging st' = dragging st /\ resizing st' = resizing st /\
  (dragging st = true -> localRadiusPx st' = localRadiusPx st) /\
  (dragging st = false -> localCenter st' = localCenter st).

(** The time and the arguments recorded by the last of a list of moves. *)
Definition lastDue (p : Props) (moves : list (Z * (Q * Q))) (d : option Z) : option Z :=
  foldl (fun _ m => Some (dueAt (fst m) (debounceMs p))) d moves.

Definition lastArgs (Math_sqrt : Q -> Q) (p : Props) (st : State)
  (moves : list (Z * (Q * Q))) (a : option (Point.t * Q)) : option (Point.t * Q) :=
  foldl (fun _ m => moveArgs Math_sqrt p st (fst (snd m)) (snd (snd m))) a moves.

(** The pending timeout does not fire before the first of the moves. *)
Definition notDue (st : State) (moves : list (Z * (Q * Q))) : Prop :=
  match moves, timerRef st with
  | m :: _, Some due => (fst m < due)%Z
  | _, _ => True
  end.


(** The natural size is not empty, and neither is the bounding rectangle of
    the canvas: no scale divides by zero. *)
Definition sized (p : Props) : Prop :=
  0 < naturalWidth p /\ 0 < naturalHeight p /\
  forall rc, getRect p = Some rc -> 0 < Rect.width rc /\ 0 < Rect.height rc.

End CanvasSpec.

Module OverlaySpec.
Import KSpaceOverlay.

Definition moveEvents (moves : list (Z * (Q * Q))) : list (Z * Event) :=
  map (fun m => (fst m, PointerMove (fst (snd m)) (snd (snd m)))) moves.


(** A mounted, shown and enabled overlay over a 256 x 256 spectrum. *)
Definition sampleProps : Props :=
  {| show := true; naturalWidth := 256; naturalHeight := 256; radiusPx := 35;
     center := Some (Point.mk 128 128); debounceMs := 120; disabled := false;
     getRect := Some (Rect.mk 0 0 256 256) |}.

End OverlaySpec.

Module MountedSpec.
Import Mounted.

(** Pointer moves on the circle, each with its time and client coordinates. *)
Definition moveEvents (moves : list (Z * (Q * Q))) : list (Z * Event) :=
  map (fun m => (fst m, PointerMove (fst (snd m)) (snd (snd m)))) moves.







End MountedSpec.


Module CanvasSample.
Import KSpaceCanvas.

Definition sampleProps : Props :=
  {| naturalWidth := 256; naturalHeight := 256; show := true; radiusPx := 35;
     center := Some (Point.mk 128 128); disabled := false; debounceMs := 300;
     getRect := Some (Rect.mk 0 0 256 256) |}.

End CanvasSample.

(** Ten moves of the pointer, 10 ms apart: nine and a last one. *)
Definition nineMoves : list (Z * (Q * Q)) :=
  map (fun k => ((10 * Z.of_nat k)%Z, (inject_Z (100 + Z.of_nat k), 90))) (seq 0 9).
Definition tenMoves : list (Z * (Q * Q)) := nineMoves ++ [(90%Z, (109, 90))].

(** A worker holding a 2 x 2 spectrum, and an application waiting for its
    replies. *)
Definition sampleWorker : ReconWorker.State :=
  {| ReconWorker.ROWS := 2; ReconWorker.COLS := 2;
     ReconWorker.SPEC_RE := Some [1; -3; -7; 13];
     ReconWorker.SPEC_IM := Some [0; 0; 0; 0] |}.

Definition sampleApp : App.State :=
  {| App.reconUrl := None; App.reconBusy := true;
     App.rows := Some 2%Z; App.cols := Some 2%Z; App.circleCenter := None |}.

(** ** Vocabulary of the further statements *)

(** A grid of [rows] rows of [cols] entries. *)
Definition hasShape {A : Type} (g : list (list A)) (rows cols : Z) : Prop :=
  Z.of_nat (length g) = rows /\ Forall (fun row => Z.of_nat (length row) = cols) g.

(** The browser hands back four bytes in [0, 255] for every pixel. *)
Definition canvasBytes (getImageData : Z -> Z -> list Z) : Prop :=
  forall w h, (0 < w)%Z -> (0 < h)%Z ->
    Z.of_nat (length (getImageData w h)) = (4 * w * h)%Z /\
    Forall (fun b => (0 <= b <= 255)%Z) (getImageData w h).

(** The spectrum as the worker holds it after the handover. *)
Definition roundedSpectrum (fround : Q -> Q) (spec : list (list Complex)) (n m : nat)
  : list (list Complex) :=
  map (fun y => map (fun x => Handover.stored fround (at2 spec y x)) (seq 0 m)) (seq 0 n).

(** Every position of an [n] x [m] grid lies in the disc. *)
Definition coversGrid (cx cy radius : Q) (n m : nat) : Prop :=
  forall x y, (x < m)%nat -> (y < n)%nat -> inDisc cx cy radius x y.

(** A radius in natural pixels: a whole number, at least 1. *)
Definition wholeRadius (r : Q) : Prop := exists z : Z, (1 <= z)%Z /\ r = inject_Z z.

Module ResizeSpec.
Import KSpaceOverlay.



End ResizeSpec.

(** The reply [r] is one that the worker gives to the message [m]. *)
Definition answers (m : ReconWorker.InMsg) (r : ReconWorker.OutMsg) : Prop :=
  match m, r with
  | ReconWorker.loadSpectrum _ _ _ _, ReconWorker.loaded => True
  | ReconWorker.circleRecon _ _ _, ReconWorker.recon _ _ _ => True
  | ReconWorker.circleRecon _ _ _, ReconWorker.error _ => True
  | _, _ => False
  end.

(** Every call of [onMove] among the callbacks passes a whole radius. *)
Definition commitsWhole (out : list Callback) : Prop :=
  Forall (fun a => wholeRadius (snd a)) (commits out).

(** The arguments recorded for the pending timeout of the canvas hold a
    whole radius. *)
Definition recordedWhole (st : KSpaceCanvas.State) : Prop :=
  forall c r, KSpaceCanvas.lastArgsRef st = Some (c, r) -> wholeRadius r.

(** Every coefficient of the [n] x [m] spectrum is a pair of float32 values:
    the rounding leaves it as it is. *)
Definition float32Exact (fround : Q -> Q) (spec : list (list Complex)) (n m : nat) : Prop :=
  forall y x, (y < n)%nat -> (x < m)%nat ->
    Handover.stored fround (at2 spec y x) = at2 spec y x.

(** The stores of one row of [flattenSpectrum] into one of the two typed
    arrays, [g y x] being the number stored for the cell (x, y). *)
Definition storeRow (g : nat -> nat -> Q) (m y : nat) (a : list Q) : list Q :=
  foldl (fun a x => <[(y * m + x)%nat := g y x]> a) a (seq 0 m).

(** ** Sample inputs *)

(** A canvas on which every byte is 128. *)
Definition flatCanvas (w h : Z) : list Z := replicate (Z.to_nat (4 * w * h)) 128%Z.

(** Rounding to the nearest multiple of 1/8, in lowest terms: a stand-in
    for [Math.fround], whose values are multiples of a power of two. *)
Definition toEighths (q : Q) : Q := Qred (inject_Z (JS.Math_round (q * 8)) / 8).

(** A 2 x 2 spectrum. *)
Definition sampleSpectrum : list (list Complex) :=
  [[mkComplex 1 0; mkComplex (-3) (1 # 3)]; [mkComplex (-7) 0; mkComplex 13 (5 # 16)]].

Module OverlaySample.
Import KSpaceOverlay.


Definition disabledProps : Props :=
  {| show := true; naturalWidth := 256; naturalHeight := 256; radiusPx := 35;
     center := Some (Point.mk 128 128); debounceMs := 120; disabled := true;
     getRect := Some (Rect.mk 0 0 256 256) |}.

End OverlaySample.

Module CanvasIdle.
Import KSpaceCanvas.

Definition hiddenProps : Props :=
  {| naturalWidth := 256; naturalHeight := 256; show := false; radiusPx := 35;
     center := Some (Point.mk 128 128); disabled := false; debounceMs := 300;
     getRect := Some (Rect.mk 0 0 256 256) |}.

End CanvasIdle.

(** A press, ten moves, and a release five milliseconds after the last. *)
Definition pressMoveRelease : list (Z * KSpaceCanvas.Event) :=
  (0%Z, KSpaceCanvas.PointerDown 128 128)
  :: CanvasSpec.moveEvents tenMoves ++ [(95%Z, KSpaceCanvas.PointerUp)].

Definition overlayPressMoveRelease : list (Z * KSpaceOverlay.Event) :=
  (0%Z, KSpaceOverlay.PointerDown 128 128)
  :: OverlaySpec.moveEvents tenMoves ++ [(95%Z, KSpaceOverlay.PointerUp)].

(** An application that has not processed an image yet. *)
Definition freshApp : App.State :=
  {| App.reconUrl := None; App.reconBusy := false;
     App.rows := None; App.cols := None; App.circleCenter := None |}.

(** Four samples, and a worker that holds the spectrum of the 2 x 2 image
    made of them. *)
Definition tieSamples : list (list Q) := [[82; 104]; [135; 188]].

Definition tieWorker : ReconWorker.State :=
  {| ReconWorker.ROWS := 2; ReconWorker.COLS := 2;
     ReconWorker.SPEC_RE := Some [31; -137; -75; 509];
     ReconWorker.SPEC_IM := Some [0; 0; 0; 0] |}.



(** * Proofs *)

Section RasterFacts.
Import Raster.

Lemma level_range mm v : (0 <= level mm v <= 255)%Z.
Proof. unfold level. destruct mm as [[lo hi]|]; lia. Qed.

Lemma writePixel_length px i v : length (writePixel px i v) = length px.
Proof. unfold writePixel. by rewrite !length_insert. Qed.

Lemma writePixel_other px i v j :
  (j < i \/ i + 4 <= j)%nat -> writePixel px i v !! j = px !! j.
Proof.
  intros Hj. unfold writePixel.
  rewrite !list_lookup_insert_ne by lia. done.
Qed.

Lemma writePixel_channel px i v c :
  (i + 3 < length px)%nat -> (c < 4)%nat ->
  writePixel px i v !! (i + c)%nat = Some (if (c <? 3)%nat then v else 255%Z).
Proof.
  intros Hi Hc. unfold writePixel.
  assert (c = 0 \/ c = 1 \/ c = 2 \/ c = 3)%nat as [-> | [-> | [-> | ->]]] by lia; simpl.
  - rewrite !list_lookup_insert_ne by lia. rewrite Nat.add_0_r.
    apply list_lookup_insert_eq. lia.
  - rewrite !list_lookup_insert_ne by lia.
    apply list_lookup_insert_eq. rewrite length_insert. lia.
  - rewrite !list_lookup_insert_ne by lia.
    apply list_lookup_insert_eq. rewrite !length_insert. lia.
  - apply list_lookup_insert_eq. rewrite !length_insert. lia.
Qed.

Lemma pixel_index_inj cols y x y' x' :
  (x < cols)%nat -> (x' < cols)%nat ->
  (y * cols + x = y' * cols + x')%nat -> y = y' /\ x = x'.
Proof.
  intros Hx Hx' E.
  assert (y = y') as ->.
  { destruct (Nat.lt_trichotomy y y') as [H | [H | H]]; [nia | done | nia]. }
  split; [done | lia].
Qed.

Lemma paintRow_length grid mm cols y px :
  length (paintRow grid mm cols y px) = length px.
Proof.
  unfold paintRow. generalize (seq 0 cols) as xs. intros xs. revert px.
  induction xs as [|x xs IH]; intros px; simpl; [done|].
  by rewrite IH, writePixel_length.
Qed.

Lemma paintRow_other grid mm cols y px j :
  (j < y * cols * 4 \/ (y * cols + cols) * 4 <= j)%nat ->
  paintRow grid mm cols y px !! j = px !! j.
Proof.
  intros Hj. unfold paintRow.
  assert (Hxs : forall x, x ∈ seq 0 cols -> (x < cols)%nat).
  { intros x Hx. apply elem_of_seq in Hx. lia. }
  revert Hxs. generalize (seq 0 cols) as xs. intros xs. revert px.
  induction xs as [|x xs IH]; intros px Hxs; simpl; [done|].
  rewrite IH by (intros; apply Hxs; by right).
  apply writePixel_other.
  assert (x < cols)%nat by (apply Hxs; by left). nia.
Qed.

Lemma paintRow_channel grid mm cols y px x c :
  (x < cols)%nat -> (c < 4)%nat -> ((y * cols + x) * 4 + 3 < length px)%nat ->
  paintRow grid mm cols y px !! ((y * cols + x) * 4 + c)%nat
  = Some (if (c <? 3)%nat then level mm (at2 grid y x) else 255%Z).
Proof.
  intros Hx Hc Hlen. unfold paintRow.
  assert (Hin : x ∈ seq 0 cols) by (apply elem_of_seq; lia).
  assert (Hnd : NoDup (seq 0 cols)) by apply NoDup_seq.
  revert Hin Hnd Hlen. generalize (seq 0 cols) as xs. intros xs. revert px.
  induction xs as [|a xs IH]; intros px Hin Hnd Hlen; [by apply elem_of_nil in Hin|].
  simpl. apply NoDup_cons in Hnd as [Ha Hnd].
  apply elem_of_cons in Hin as [-> | Hin].
  - clear IH.
    assert (Hrest : forall q : list Z,
      foldl (fun px x => writePixel px ((y * cols + x) * 4) (level mm (at2 grid y x))) q xs
        !! ((y * cols + a) * 4 + c)%nat = q !! ((y * cols + a) * 4 + c)%nat).
    { clear Hnd Hlen. induction xs as [|b xs IH]; intros q; simpl; [done|].
      rewrite IH by (intros Hb; apply Ha; by right).
      apply writePixel_other.
      assert (a <> b) by (intros ->; apply Ha; by left). lia. }
    rewrite Hrest. by apply writePixel_channel.
  - apply IH; [done | done | by rewrite writePixel_length].
Qed.

Lemma paint_prefix grid mm rows cols k :
  (k <= rows)%nat ->
  let px := foldl (fun px y => paintRow grid mm cols y px)
                  (replicate (rows * cols * 4) 0%Z) (seq 0 k) in
  length px = (rows * cols * 4)%nat /\
  forall y x c, (y < k)%nat -> (x < cols)%nat -> (c < 4)%nat ->
    px !! ((y * cols + x) * 4 + c)%nat
    = Some (if (c <? 3)%nat then level mm (at2 grid y x) else 255%Z).
Proof.
  induction k as [|k IH]; intros Hk.
  - simpl. split; [by rewrite length_replicate | intros; lia].
  - destruct IH as [Hlen Hpx]; [lia|].
    rewrite seq_S, foldl_app. cbn [foldl Nat.add]. split.
    + by rewrite paintRow_length.
    + intros y x c Hy Hx Hc.
      destruct (decide (y = k)) as [-> | Hne].
      * apply paintRow_channel; [done | done |]. rewrite Hlen. nia.
      * rewrite paintRow_other by nia. apply Hpx; [lia | done | done].
Qed.

Lemma paint_length grid mm rows cols :
  length (paint grid mm rows cols) = (rows * cols * 4)%nat.
Proof. apply (paint_prefix grid mm rows cols rows). lia. Qed.

Lemma paint_channel grid mm rows cols y x c :
  (y < rows)%nat -> (x < cols)%nat -> (c < 4)%nat ->
  paint grid mm rows cols !! ((y * cols + x) * 4 + c)%nat
  = Some (if (c <? 3)%nat then level mm (at2 grid y x) else 255%Z).
Proof. intros. by apply (paint_prefix grid mm rows cols rows). Qed.

End RasterFacts.

Section ExtremesFacts.
Import Raster.

Lemma track_tracked S mm v : tracked S mm -> tracked (S ++ [v]) (track mm v).
Proof.
  assert (Hv : v ∈ S ++ [v]) by (apply elem_of_app; right; by apply list_elem_of_singleton).
  destruct mm as [[lo hi]|]; simpl.
  - intros (Hlo & Hhi & Hb). split; [|split].
    + destruct (Qlt_le_dec v lo); [done | apply elem_of_app; by left].
    + destruct (Qlt_le_dec hi v); [done | apply elem_of_app; by left].
    + intros w Hw. apply elem_of_app in Hw as [Hw | Hw].
      * destruct (Hb _ Hw). destruct (Qlt_le_dec v lo), (Qlt_le_dec hi v); lra.
      * apply list_elem_of_singleton in Hw as ->.
        destruct (Qlt_le_dec v lo), (Qlt_le_dec hi v); lra.
  - intros ->. split; [done | split; [done|]].
    intros w Hw. apply list_elem_of_singleton in Hw as ->. lra.
Qed.

Lemma foldl_tracked l : forall S mm, tracked S mm -> tracked (S ++ l) (foldl track mm l).
Proof.
  induction l as [|v l IH]; intros S mm H; simpl.
  - by rewrite app_nil_r.
  - replace (S ++ v :: l) with ((S ++ [v]) ++ l) by (by rewrite <- app_assoc).
    apply IH. by apply track_tracked.
Qed.

Lemma extremes_concat grid : extremes grid = foldl track None (concat grid).
Proof.
  unfold extremes. generalize (@None (Q * Q)) as mm.
  induction grid as [|row grid IH]; intros mm; simpl; [done|].
  by rewrite foldl_app, IH.
Qed.

Lemma extremes_tracked grid : tracked (concat grid) (extremes grid).
Proof. rewrite extremes_concat. apply (foldl_tracked (concat grid) [] None). done. Qed.

Lemma extremes_Some grid v :
  v ∈ concat grid ->
  exists lo hi, extremes grid = Some (lo, hi) /\ minimumOf grid lo /\ maximumOf grid hi.
Proof.
  intros Hv. pose proof (extremes_tracked grid) as H.
  destruct (extremes grid) as [[lo hi]|]; simpl in H.
  - exists lo, hi. destruct H as (Hlo & Hhi & Hb).
    split; [done|]. split; split; try done; intros w Hw; by destruct (Hb w Hw).
  - rewrite H in Hv. by apply elem_of_nil in Hv.
Qed.

Lemma scaleOf_lt lo hi : lo < hi -> scaleOf lo hi = 255 / (hi - lo).
Proof. intros H. unfold scaleOf. destruct (Qlt_le_dec lo hi); [done | lra]. Qed.

Lemma scaleOf_flat lo hi : ~ lo < hi -> scaleOf lo hi = 1.
Proof. intros H. unfold scaleOf. destruct (Qlt_le_dec lo hi); [done | done]. Qed.

End ExtremesFacts.

Section ResultFacts.
Import JS.

Lemma bind_inv {A B} (r : Result A) (k : A -> Result B) b :
  bind r k = Returned b -> exists a, r = Returned a /\ k a = Returned b.
Proof. destruct r as [a|e]; simpl; [eauto | discriminate]. Qed.

Lemma collect_map_inv {A B} (f : A -> Result B) xs l :
  collect (map f xs) = Returned l ->
  length l = length xs /\
  forall i x, xs !! i = Some x -> exists b, l !! i = Some b /\ f x = Returned b.
Proof.
  revert l. induction xs as [|a xs IH]; intros l; simpl.
  - intros [= <-]. split; [done | intros i x Hx; by rewrite lookup_nil in Hx].
  - intros H. apply bind_inv in H as (b & Hb & H).
    apply bind_inv in H as (l' & Hl' & [= <-]).
    destruct (IH _ Hl') as [Hlen Hl]. split; [simpl; by rewrite Hlen|].
    intros [|i] x Hx; simpl in *.
    + injection Hx as <-. eauto.
    + by apply Hl.
Qed.

Lemma collect_map_all {A B} (f : A -> Result B) (g : A -> B) xs :
  (forall x, x ∈ xs -> f x = Returned (g x)) ->
  collect (map f xs) = Returned (map g xs).
Proof.
  induction xs as [|a xs IH]; intros H; simpl; [done|].
  rewrite (H a) by (by left). simpl.
  rewrite IH by (intros; apply H; by right). done.
Qed.

Lemma newArray_inv z n : newArray z = Returned n -> (0 <= z)%Z /\ n = Z.to_nat z.
Proof.
  unfold newArray. destruct (Z.ltb_spec z 0); [discriminate|].
  intros [= <-]. done.
Qed.

Lemma allocRows_inv n z m :
  allocRows n z = Returned m -> m = Z.to_nat z /\ (n <> 0%nat -> (0 <= z)%Z).
Proof.
  destruct n; simpl.
  - intros [= <-]. done.
  - intros H. apply newArray_inv in H as [? ->]. done.
Qed.

Lemma createImageData_inv sw sh u :
  createImageData sw sh = Returned u -> (0 < sw)%nat /\ (0 < sh)%nat.
Proof. destruct sw, sh; simpl; try discriminate. lia. Qed.

End ResultFacts.

Ltac unbind H :=
  repeat match type of H with
  | JS.bind _ _ = JS.Returned _ =>
      let a := fresh "a" in let Ha := fresh "Ha" in
      apply bind_inv in H as (a & Ha & H)
  end.

Section GridFacts.

Lemma at2_lookup {A} `{Inhabited A} (grid : list (list A)) y x row v :
  grid !! y = Some row -> row !! x = Some v -> at2 grid y x = v.
Proof.
  intros Hy Hx. unfold at2.
  rewrite (list_lookup_total_correct _ _ _ Hy).
  by rewrite (list_lookup_total_correct _ _ _ Hx).
Qed.

Lemma elem_of_concat_lookup {A} (grid : list (list A)) y x row v :
  grid !! y = Some row -> row !! x = Some v -> v ∈ concat grid.
Proof.
  intros Hy Hx. apply list_elem_of_In, in_concat. exists row. split.
  - apply list_elem_of_In. by apply list_elem_of_lookup_2 in Hy.
  - apply list_elem_of_In. by apply list_elem_of_lookup_2 in Hx.
Qed.

End GridFacts.

Section Shapes.

Lemma lookup_map_seq {A} (f : nat -> A) n i :
  (i < n)%nat -> map f (seq 0 n) !! i = Some (f i).
Proof.
  intros Hi. change (map f (seq 0 n)) with (f <$> seq 0 n).
  rewrite list_lookup_fmap, lookup_seq_lt by done. done.
Qed.

Lemma magnitudes_lookup log1pAbs S n m y x :
  (y < n)%nat -> (x < m)%nat ->
  exists row, Kspace.magnitudes log1pAbs S n m !! y = Some row /\
              row !! x = Some (log1pAbs (at2 S y x)).
Proof.
  intros Hy Hx. eexists. split.
  - unfold Kspace.magnitudes. by apply lookup_map_seq.
  - by rewrite lookup_map_seq.
Qed.

Lemma realRows_lookup (ifft : list Complex -> JS.Result (list Complex))
  (temp : nat -> list Complex) n m recon y x :
  JS.collect (map (fun y => try! rowIfft := ifft (temp y) in
                            JS.Returned (Kspace.realRow y m rowIfft)) (seq 0 n))
    = JS.Returned recon ->
  (y < n)%nat -> (x < m)%nat ->
  exists row v, recon !! y = Some row /\ row !! x = Some v.
Proof.
  intros H Hy Hx. apply collect_map_inv in H as [_ H].
  destruct (H y y) as (row & Hrow & Hr); [by apply lookup_seq_lt|].
  unbind Hr. injection Hr as <-.
  exists (Kspace.realRow y m a). eexists. split; [done|].
  unfold Kspace.realRow. by apply lookup_map_seq.
Qed.

Lemma pixel_coordinates m p n :
  (p < n * m)%nat -> (p / m < n)%nat /\ (p mod m < m)%nat /\ p = (p / m * m + p mod m)%nat.
Proof.
  intros Hp. assert (m <> 0)%nat by (intros ->; lia).
  split; [apply Nat.Div0.div_lt_upper_bound; lia|].
  split; [by apply Nat.mod_upper_bound|].
  rewrite (Nat.div_mod_eq p m) at 1. lia.
Qed.

(** The shape of a normalised buffer. *)
Lemma normalize_shape grid n m :
  length (Raster.normalize grid n m) = (n * m * 4)%nat /\
  forall p, (p < n * m)%nat ->
    exists v, (0 <= v <= 255)%Z /\
      Raster.normalize grid n m !! (4 * p)%nat = Some v /\
      Raster.normalize grid n m !! (4 * p + 1)%nat = Some v /\
      Raster.normalize grid n m !! (4 * p + 2)%nat = Some v /\
      Raster.normalize grid n m !! (4 * p + 3)%nat = Some 255%Z.
Proof.
  unfold Raster.normalize. split; [apply paint_length|].
  intros p Hp. destruct (pixel_coordinates m p n Hp) as (Hy & Hx & E).
  set (y := (p / m)%nat) in *. set (x := (p mod m)%nat) in *.
  exists (Raster.level (Raster.extremes grid) (at2 grid y x)).
  split; [apply level_range|].
  pose proof (paint_channel grid (Raster.extremes grid) n m y x) as Hc.
  replace (4 * p)%nat with ((y * m + x) * 4 + 0)%nat by lia.
  replace ((y * m + x) * 4 + 0 + 1)%nat with ((y * m + x) * 4 + 1)%nat by lia.
  replace ((y * m + x) * 4 + 0 + 2)%nat with ((y * m + x) * 4 + 2)%nat by lia.
  replace ((y * m + x) * 4 + 0 + 3)%nat with ((y * m + x) * 4 + 3)%nat by lia.
  rewrite !Hc by lia. done.
Qed.

End Shapes.

(** ** Rounding to the doubles, and the grey levels *)

Section Binary64Facts.
Import Binary64.

Lemma nearestEven_half n d :
  (0 <= n)%Z -> (0 < d)%Z -> (Z.abs (2 * (nearestEven n d * d - n)) <= d)%Z.
Proof.
  intros Hn Hd. unfold nearestEven.
  pose proof (Z.div_mod n d ltac:(lia)) as E.
  pose proof (Z.mod_pos_bound n d Hd) as [R0 R1].
  set (q := (n / d)%Z) in *. set (r := (n mod d)%Z) in *.
  destruct (Z.compare_spec (2 * r) d) as [H | H | H].
  - destruct (Z.even q); nia.
  - nia.
  - nia.
Qed.

Lemma pow2_pos e : 0 < pow2 e.
Proof.
  unfold pow2. destruct (Z.leb_spec 0 e).
  - change 0 with (inject_Z 0). rewrite <- Zlt_Qlt. by apply Z.pow_pos_nonneg.
  - reflexivity.
Qed.

Lemma pow2_neg e : (e < 0)%Z -> pow2 e * inject_Z (2 ^ (- e)) == 1.
Proof.
  intros He. unfold pow2. destruct (Z.leb_spec 0 e); [lia|].
  assert (Hp : (0 < 2 ^ (- e))%Z) by (apply Z.pow_pos_nonneg; lia).
  destruct (2 ^ (- e))%Z as [|p|p] eqn:E; [lia | | lia].
  unfold Qeq, Qmult, inject_Z. simpl. lia.
Qed.

Lemma pow2_succ e : pow2 (e + 1) == 2 * pow2 e.
Proof.
  destruct (Z.leb_spec 0 e) as [He | He].
  - unfold pow2. destruct (Z.leb_spec 0 e); [|lia]. destruct (Z.leb_spec 0 (e + 1)); [|lia].
    rewrite Z.pow_add_r by lia. rewrite inject_Z_mult. change (inject_Z (2 ^ 1)) with 2. ring.
  - pose proof (pow2_neg e He) as H1.
    assert (Hp : (0 < 2 ^ (- e))%Z) by (apply Z.pow_pos_nonneg; lia).
    assert (Hq : 0 < inject_Z (2 ^ (- e))).
    { change 0 with (inject_Z 0). by rewrite <- Zlt_Qlt. }
    destruct (Z.eq_dec e (-1)%Z) as [-> | Hne].
    + reflexivity.
    + pose proof (pow2_neg (e + 1) ltac:(lia)) as H2.
      replace (- e)%Z with (- (e + 1) + 1)%Z in H1, Hq by lia.
      rewrite Z.pow_add_r in H1, Hq by lia.
      rewrite inject_Z_mult in H1, Hq. change (inject_Z (2 ^ 1)) with 2 in H1, Hq.
      set (x := inject_Z (2 ^ (- (e + 1)))) in *.
      assert (Hx : 0 < x) by lra.
      assert (E : pow2 (e + 1) * x == 2 * pow2 e * x) by lra.
      apply Qmult_inj_r in E; [done | lra].
Qed.

(** What [normalize] returns. *)
Lemma normalize_spec a d N M e :
  (0 < a)%Z -> (0 < d)%Z -> normalize a d = (N, M, e) ->
  (0 < N)%Z /\ (0 < M)%Z /\ (2 ^ 52 * M <= N)%Z /\
  inject_Z a / inject_Z d == inject_Z N / inject_Z M * pow2 e.
Proof.
  intros Ha Hd. unfold normalize.
  pose proof (Z.log2_spec a Ha) as [La1 La2].
  pose proof (Z.log2_spec d Hd) as [Ld1 Ld2].
  pose proof (Z.log2_nonneg a) as La0. pose proof (Z.log2_nonneg d) as Ld0.
  set (la := Z.log2 a) in *. set (ld := Z.log2 d) in *.
  set (e0 := (la - ld - 53)%Z).
  set (N0 := if (0 <=? e0)%Z then a else (a * 2 ^ (- e0))%Z).
  set (M0 := if (0 <=? e0)%Z then (d * 2 ^ e0)%Z else d).
  assert (Hbase : (0 < N0)%Z /\ (0 < M0)%Z /\ (2 ^ 52 * M0 <= N0)%Z /\
                  inject_Z a / inject_Z d == inject_Z N0 / inject_Z M0 * pow2 e0).
  { assert (Haq : 0 < inject_Z a) by (change 0 with (inject_Z 0); by rewrite <- Zlt_Qlt).
    assert (Hdq : 0 < inject_Z d) by (change 0 with (inject_Z 0); by rewrite <- Zlt_Qlt).
    subst N0 M0. destruct (Z.leb_spec 0 e0) as [He | He].
    - assert (Hp : (0 < 2 ^ e0)%Z) by (apply Z.pow_pos_nonneg; lia).
      split; [lia|]. split; [nia|]. split.
      + assert (E : (2 ^ la = 2 ^ 52 * 2 ^ (ld + 1) * 2 ^ e0)%Z).
        { rewrite <- !Z.pow_add_r by lia. f_equal. unfold e0. lia. }
        assert (H52 : (0 < 2 ^ 52)%Z) by (apply Z.pow_pos_nonneg; lia).
        replace (Z.succ ld) with (ld + 1)%Z in Ld2 by lia.
        nia.
      + unfold pow2. destruct (Z.leb_spec 0 e0); [|lia].
        rewrite inject_Z_mult.
        assert (Hpq : 0 < inject_Z (2 ^ e0)).
        { change 0 with (inject_Z 0). by rewrite <- Zlt_Qlt. }
        field. split; lra.
    - assert (Hp : (0 < 2 ^ (- e0))%Z) by (apply Z.pow_pos_nonneg; lia).
      split; [nia|]. split; [lia|]. split.
      + assert (E : (2 ^ la * 2 ^ (- e0) = 2 ^ 52 * 2 ^ (ld + 1))%Z).
        { rewrite <- !Z.pow_add_r by lia. f_equal. unfold e0. lia. }
        assert (H52 : (0 < 2 ^ 52)%Z) by (apply Z.pow_pos_nonneg; lia).
        replace (Z.succ ld) with (ld + 1)%Z in Ld2 by lia.
        nia.
      + pose proof (pow2_neg e0 He) as H1.
        assert (Hpq : 0 < inject_Z (2 ^ (- e0))).
        { change 0 with (inject_Z 0). by rewrite <- Zlt_Qlt. }
        rewrite inject_Z_mult.
        setoid_replace (inject_Z a * inject_Z (2 ^ (- e0)) / inject_Z d * pow2 e0)
          with (inject_Z a / inject_Z d * (pow2 e0 * inject_Z (2 ^ (- e0))))
        using relation Qeq by (field; lra).
        rewrite H1. ring. }
  destruct Hbase as (HN & HM & Hlow & Heq).
  destruct (Z.leb_spec (2 ^ 53 * M0) N0) as [Hbig | Hsmall]; intros [= <- <- <-].
  - split; [lia|]. split; [lia|]. split.
    + change (2 ^ 53)%Z with (2 ^ 52 * 2)%Z in Hbig. lia.
    + rewrite Heq, pow2_succ, inject_Z_mult. change (inject_Z 2) with 2.
      assert (HMq : 0 < inject_Z M0) by (change 0 with (inject_Z 0); by rewrite <- Zlt_Qlt).
      field. lra.
  - done.
Qed.

Lemma fl_zero q : q == 0 -> fl q = 0.
Proof.
  intros H. unfold fl.
  assert (Qnum q = 0%Z) as ->.
  { unfold Qeq in H. simpl in H. lia. }
  done.
Qed.

(** The relative error of a rounding is at most [eps]. *)
Lemma fl_rel q : Qabs (fl q - q) <= Qabs q * eps.
Proof.
  unfold fl. destruct (Z.eqb_spec (Qnum q) 0) as [Hz | Hnz].
  { assert (Hq : q == 0) by (unfold Qeq; simpl; lia).
    rewrite Hq. vm_compute. discriminate. }
  destruct (normalize (Z.abs (Qnum q)) (Z.pos (Qden q))) as [[N M] e] eqn:En.
  assert (Ha : (0 < Z.abs (Qnum q))%Z) by lia.
  assert (Hd0 : (0 < Z.pos (Qden q))%Z) by lia.
  destruct (normalize_spec _ _ _ _ _ Ha Hd0 En) as (HN & HM & Hlow & Heq).
  assert (HN0 : (0 <= N)%Z) by lia.
  pose proof (nearestEven_half N M HN0 HM) as Hhalf.
  pose proof (pow2_pos e) as HP.
  set (m := nearestEven N M) in *. set (P := pow2 e) in *.
  assert (HMq : 0 < inject_Z M) by (change 0 with (inject_Z 0); by rewrite <- Zlt_Qlt).
  set (R := inject_Z N / inject_Z M) in *.
  assert (HR : inject_Z (2 ^ 52) <= R).
  { unfold R. apply Qle_shift_div_l; [done|].
    rewrite <- inject_Z_mult. by rewrite <- Zle_Qle. }
  assert (HmR : Qabs (inject_Z m - R) <= 1 # 2).
  { apply Qabs_case; intros _.
    - assert (H : inject_Z m * inject_Z M - inject_Z N <= (1 # 2) * inject_Z M).
      { assert (H2 : inject_Z (2 * (m * M)) <= inject_Z (M + 2 * N)) by (rewrite <- Zle_Qle; lia).
        rewrite inject_Z_plus, !inject_Z_mult in H2.
        change (inject_Z 2) with 2 in H2. lra. }
      unfold R. apply Qle_minus_iff.
      setoid_replace ((1 # 2) + - (inject_Z m - inject_Z N / inject_Z M))
        with (((1 # 2) * inject_Z M - (inject_Z m * inject_Z M - inject_Z N)) / inject_Z M)
        using relation Qeq by (field; lra).
      apply Qle_shift_div_l; [done|]. lra.
    - assert (H : inject_Z N - inject_Z m * inject_Z M <= (1 # 2) * inject_Z M).
      { assert (H2 : inject_Z (2 * N) <= inject_Z (M + 2 * (m * M))) by (rewrite <- Zle_Qle; lia).
        rewrite inject_Z_plus, !inject_Z_mult in H2.
        change (inject_Z 2) with 2 in H2. lra. }
      unfold R. apply Qle_minus_iff.
      setoid_replace ((1 # 2) + - - (inject_Z m - inject_Z N / inject_Z M))
        with (((1 # 2) * inject_Z M - (inject_Z N - inject_Z m * inject_Z M)) / inject_Z M)
        using relation Qeq by (field; lra).
      apply Qle_shift_div_l; [done|]. lra. }
  (* q is its sign times R * P *)
  assert (Hq : q == inject_Z (Z.sgn (Qnum q)) * (R * P)).
  { rewrite <- Heq.
    assert (Hd : 0 < inject_Z (Z.pos (Qden q))) by reflexivity.
    assert (E : q == inject_Z (Qnum q) / inject_Z (Z.pos (Qden q))).
    { rewrite (Qmake_Qdiv (Qnum q) (Qden q)) at 1 || idtac.
      destruct q as [n d]. simpl. rewrite Qmake_Qdiv. reflexivity. }
    rewrite E at 1.
    rewrite <- (Z.abs_sgn (Qnum q)) at 1. rewrite inject_Z_mult. field. lra. }
  assert (Hs : inject_Z (Z.sgn (Qnum q)) == 1 \/ inject_Z (Z.sgn (Qnum q)) == -1).
  { destruct (Z.sgn_spec (Qnum q)) as [[_ ->] | [[? _] | [_ ->]]]; [by left | lia | by right]. }
  assert (Hfl : inject_Z (Z.sgn (Qnum q) * m) * P
                == inject_Z (Z.sgn (Qnum q)) * (inject_Z m * P)).
  { rewrite inject_Z_mult. ring. }
  assert (Hmain : Qabs (inject_Z m * P - R * P) <= R * P * eps).
  { setoid_replace (inject_Z m * P - R * P) with ((inject_Z m - R) * P)
        using relation Qeq by ring.
    rewrite Qabs_Qmult. rewrite (Qabs_pos P) by lra.
    assert (H1 : (1 # 2) <= R * eps).
    { unfold eps. change (inject_Z (2 ^ 52)) with 4503599627370496 in HR. lra. }
    apply Qle_trans with ((1 # 2) * P).
    - apply Qmult_le_compat_r; [done | lra].
    - setoid_replace (R * P * eps) with (R * eps * P)
        using relation Qeq by ring.
      apply Qmult_le_compat_r; [done | lra]. }
  assert (HRP : 0 <= R * P).
  { apply Qmult_le_0_compat; [|lra].
    change (inject_Z (2 ^ 52)) with 4503599627370496 in HR. lra. }
  rewrite Hfl. rewrite Hq at 2 3.
  destruct Hs as [Hs | Hs]; rewrite Hs.
  - setoid_replace (1 * (inject_Z m * P) - 1 * (R * P)) with (inject_Z m * P - R * P)
        using relation Qeq by ring.
    setoid_replace (1 * (R * P)) with (R * P)
        using relation Qeq by ring.
    by rewrite (Qabs_pos (R * P)).
  - setoid_replace (-1 * (inject_Z m * P) - -1 * (R * P))
      with (- (inject_Z m * P - R * P))
        using relation Qeq by ring.
    rewrite Qabs_opp.
    setoid_replace (-1 * (R * P)) with (- (R * P))
        using relation Qeq by ring.
    rewrite Qabs_opp. by rewrite (Qabs_pos (R * P)).
Qed.

End Binary64Facts.

Section Raster64Facts.
Import Raster64.

Lemma level64_range mm v : (0 <= level mm v <= 255)%Z.
Proof. unfold level. destruct mm as [[lo hi]|]; lia. Qed.

Lemma paintRow64_length grid mm cols y px :
  length (paintRow grid mm cols y px) = length px.
Proof.
  unfold paintRow. generalize (seq 0 cols) as xs. intros xs. revert px.
  induction xs as [|x xs IH]; intros px; simpl; [done|].
  by rewrite IH, writePixel_length.
Qed.

Lemma paintRow64_other grid mm cols y px j :
  (j < y * cols * 4 \/ (y * cols + cols) * 4 <= j)%nat ->
  paintRow grid mm cols y px !! j = px !! j.
Proof.
  intros Hj. unfold paintRow.
  assert (Hxs : forall x, x ∈ seq 0 cols -> (x < cols)%nat).
  { intros x Hx. apply elem_of_seq in Hx. lia. }
  revert Hxs. generalize (seq 0 cols) as xs. intros xs. revert px.
  induction xs as [|x xs IH]; intros px Hxs; simpl; [done|].
  rewrite IH by (intros; apply Hxs; by right).
  apply writePixel_other.
  assert (x < cols)%nat by (apply Hxs; by left). lia.
Qed.

Lemma paintRow64_channel grid mm cols y px x c :
  (x < cols)%nat -> (c < 4)%nat -> ((y * cols + x) * 4 + 3 < length px)%nat ->
  paintRow grid mm cols y px !! ((y * cols + x) * 4 + c)%nat
  = Some (if (c <? 3)%nat then level mm (at2 grid y x) else 255%Z).
Proof.
  intros Hx Hc Hlen. unfold paintRow.
  assert (Hin : x ∈ seq 0 cols) by (apply elem_of_seq; lia).
  assert (Hnd : NoDup (seq 0 cols)) by apply NoDup_seq.
  revert Hin Hnd Hlen. generalize (seq 0 cols) as xs. intros xs. revert px.
  induction xs as [|b xs IH]; intros px Hin Hnd Hlen; [by apply elem_of_nil in Hin|].
  simpl. apply NoDup_cons in Hnd as [Hb Hnd].
  apply elem_of_cons in Hin as [-> | Hin].
  - assert (Hrest : forall q : list Z,
      foldl (fun px x => Raster.writePixel px ((y * cols + x) * 4) (level mm (at2 grid y x)))
            q xs !! ((y * cols + b) * 4 + c)%nat
      = q !! ((y * cols + b) * 4 + c)%nat).
    { clear IH Hnd Hlen. induction xs as [|a xs IH]; intros q; simpl; [done|].
      rewrite IH by (intros Ha; apply Hb; by right).
      apply writePixel_other.
      assert (b <> a) by (intros ->; apply Hb; by left). lia. }
    rewrite Hrest. by apply writePixel_channel.
  - apply IH; [done | done | by rewrite writePixel_length].
Qed.

Lemma paint64_channel grid mm rows cols y x c :
  (y < rows)%nat -> (x < cols)%nat -> (c < 4)%nat ->
  paint grid mm rows cols !! ((y * cols + x) * 4 + c)%nat
  = Some (if (c <? 3)%nat then level mm (at2 grid y x) else 255%Z).
Proof.
  intros Hy Hx Hc. unfold paint.
  assert (Hgen : forall k, (k <= rows)%nat ->
    let px := foldl (fun px y => paintRow grid mm cols y px)
                    (replicate (rows * cols * 4) 0%Z) (seq 0 k) in
    length px = (rows * cols * 4)%nat /\
    forall y x c, (y < k)%nat -> (x < cols)%nat -> (c < 4)%nat ->
      px !! ((y * cols + x) * 4 + c)%nat
      = Some (if (c <? 3)%nat then level mm (at2 grid y x) else 255%Z)).
  { induction k as [|k IH]; intros Hk.
    - simpl. split; [by rewrite length_replicate | intros; lia].
    - destruct IH as [Hl Ha]; [lia|].
      rewrite seq_S, foldl_app. cbn [foldl Nat.add]. split.
      + by rewrite paintRow64_length.
      + intros y' x' c' Hy' Hx' Hc'.
        destruct (decide (y' = k)) as [-> | Hne].
        * apply paintRow64_channel; [done | done |]. rewrite Hl. nia.
        * rewrite paintRow64_other by nia. apply Ha; [lia | done | done]. }
  by apply (Hgen rows).
Qed.

End Raster64Facts.

Section ErrorBound.
Import Binary64.

Lemma scale_le X a b : 0 <= X -> a <= b -> X * a <= X * b.
Proof. intros HX Hab. rewrite !(Qmult_comm X). by apply Qmult_le_compat_r. Qed.

Lemma eps_small : 0 < eps /\ eps <= 1 # 1000000.
Proof. split; [reflexivity | vm_compute; discriminate]. Qed.

Lemma fl_bounds q :
  0 <= q -> q * (1 - eps) <= fl q /\ fl q <= q * (1 + eps).
Proof.
  intros Hq. pose proof (fl_rel q) as H.
  rewrite (Qabs_pos q) in H by done.
  apply Qabs_Qle_condition in H as [H1 H2]. split; lra.
Qed.

(** The product computed by the pixel loop, against the exact quotient. *)
Lemma scaled_near lo hi v :
  lo <= v -> v <= hi -> lo < hi ->
  0 < sub hi lo /\
  Qabs (mul (sub v lo) (div 255 (sub hi lo)) - (v - lo) / (hi - lo) * 255) <= 1 # 4.
Proof.
  intros Hlo Hhi Hlt. unfold sub, mul, div.
  destruct eps_small as [E0 E1]. set (e := eps) in *.
  set (D := hi - lo). set (T := v - lo).
  assert (HD : 0 < D) by (unfold D; lra).
  assert (HT : 0 <= T /\ T <= D) by (unfold T, D; lra).
  destruct (fl_bounds D ltac:(lra)) as [d1 d2]. fold e in d1, d2.
  set (d := fl D) in *.
  assert (Hd : 0 < d).
  { apply Qlt_le_trans with (D * (1 - e)); [|done].
    apply Qmult_lt_0_compat; lra. }
  split; [done|].
  set (u := 255 / D).
  assert (Hu : 0 < u) by (unfold u; apply Qlt_shift_div_l; lra).
  assert (HuD : u * D == 255) by (unfold u; field; lra).
  (* the quotient 255 / d *)
  assert (q1 : u * (1 - e) <= 255 / d /\ 255 / d <= u * (1 + 2 * e)).
  { assert (U1 : 0 <= u * (1 - e)) by (apply Qmult_le_0_compat; lra).
    assert (U2 : 0 <= u * (1 + 2 * e)) by (apply Qmult_le_0_compat; lra).
    split.
    - apply Qle_shift_div_l; [done|].
      apply Qle_trans with (u * (1 - e) * (D * (1 + e))).
      + rewrite !(Qmult_comm (u * (1 - e))). apply Qmult_le_compat_r; [done | done].
      + assert (E : u * (1 - e) * (D * (1 + e)) == u * D * ((1 - e) * (1 + e))) by ring.
        rewrite E, HuD. nra.
    - apply Qle_shift_div_r; [done|].
      apply Qle_trans with (u * (1 + 2 * e) * (D * (1 - e))).
      + assert (E : u * (1 + 2 * e) * (D * (1 - e)) == u * D * ((1 + 2 * e) * (1 - e))) by ring.
        rewrite E, HuD. nra.
      + rewrite !(Qmult_comm (u * (1 + 2 * e))). apply Qmult_le_compat_r; [done | done]. }
  assert (Hq0 : 0 <= 255 / d).
  { apply Qle_trans with (u * (1 - e)); [apply Qmult_le_0_compat; lra | apply q1]. }
  destruct (fl_bounds (255 / d) Hq0) as [s1 s2]. fold e in s1, s2.
  set (s := fl (255 / d)) in *.
  assert (Hs : u * (1 - 2 * e) <= s /\ s <= u * (1 + 4 * e)).
  { destruct q1 as [q1 q2]. split.
    - apply Qle_trans with (u * ((1 - e) * (1 - e))); [apply scale_le; [lra | nra]|].
      apply Qle_trans with (255 / d * (1 - e)); [|done].
      rewrite Qmult_assoc. apply Qmult_le_compat_r; [done | lra].
    - apply Qle_trans with (u * ((1 + 2 * e) * (1 + e))); [|apply scale_le; [lra | nra]].
      apply Qle_trans with (255 / d * (1 + e)); [done|].
      rewrite Qmult_assoc. apply Qmult_le_compat_r; [done | lra]. }
  destruct (fl_bounds T ltac:(lra)) as [t1 t2]. fold e in t1, t2.
  set (t := fl T) in *.
  assert (Ht0 : 0 <= t).
  { apply Qle_trans with (T * (1 - e)); [apply Qmult_le_0_compat; lra | done]. }
  assert (Hs0 : 0 <= s).
  { apply Qle_trans with (u * (1 - 2 * e)); [apply Qmult_le_0_compat; lra | apply Hs]. }
  set (x := T / D * 255).
  assert (Hx : x == T * u) by (unfold x, u; field; lra).
  assert (Hx0 : 0 <= T * u) by (apply Qmult_le_0_compat; lra).
  assert (Hx1 : T * u <= 255).
  { rewrite <- HuD. rewrite (Qmult_comm u D). apply Qmult_le_compat_r; lra. }
  assert (Hts : T * u * (1 - 3 * e) <= t * s /\ t * s <= T * u * (1 + 6 * e)).
  { destruct Hs as [Hs1 Hs2]. split.
    - apply Qle_trans with (T * (1 - e) * (u * (1 - 2 * e))).
      + assert (E : T * (1 - e) * (u * (1 - 2 * e)) == T * u * ((1 - e) * (1 - 2 * e)))
          by ring.
        rewrite E. apply scale_le; [done | nra].
      + apply Qle_trans with (t * (u * (1 - 2 * e))).
        * apply Qmult_le_compat_r; [done|]. apply Qmult_le_0_compat; lra.
        * apply scale_le; done.
    - apply Qle_trans with (T * (1 + e) * (u * (1 + 4 * e))).
      + apply Qle_trans with (t * (u * (1 + 4 * e))).
        * apply scale_le; done.
        * apply Qmult_le_compat_r; [done|]. apply Qmult_le_0_compat; lra.
      + assert (E : T * (1 + e) * (u * (1 + 4 * e)) == T * u * ((1 + e) * (1 + 4 * e)))
          by ring.
        rewrite E. apply scale_le; [done | nra]. }
  assert (Hts0 : 0 <= t * s) by (apply Qmult_le_0_compat; done).
  destruct (fl_bounds (t * s) Hts0) as [p1 p2]. fold e in p1, p2.
  set (p := fl (t * s)) in *.
  rewrite Hx. destruct Hts as [Hts1 Hts2].
  set (X := T * u) in *. set (Y := t * s) in *.
  assert (Hp1 : X * (1 - 4 * e) <= p).
  { apply Qle_trans with (X * ((1 - 3 * e) * (1 - e))); [apply scale_le; [done | nra]|].
    apply Qle_trans with (Y * (1 - e)); [|done].
    rewrite Qmult_assoc. apply Qmult_le_compat_r; [done | lra]. }
  assert (Hp2 : p <= X * (1 + 8 * e)).
  { apply Qle_trans with (X * ((1 + 6 * e) * (1 + e))); [|apply scale_le; [done | nra]].
    apply Qle_trans with (Y * (1 + e)); [done|].
    rewrite Qmult_assoc. apply Qmult_le_compat_r; [done | lra]. }
  assert (Hlow : X * (1 - 4 * e) >= X - (1 # 4)).
  { assert (H4 : X * (4 * e) <= 255 * (4 * e)) by (apply Qmult_le_compat_r; lra). lra. }
  assert (Hhigh : X * (1 + 8 * e) <= X + (1 # 4)).
  { assert (H8 : X * (8 * e) <= 255 * (8 * e)) by (apply Qmult_le_compat_r; lra). lra. }
  apply Qabs_Qle_condition. split; lra.
Qed.

Lemma round_near p x :
  Qabs (p - x) <= 1 # 4 -> (Z.abs (JS.Math_round p - JS.Math_round x) <= 1)%Z.
Proof.
  intros H. apply Qabs_Qle_condition in H as [H1 H2].
  unfold JS.Math_round.
  pose proof (Qfloor_le (p + (1 # 2))) as P1.
  pose proof (Qlt_floor (p + (1 # 2))) as P2.
  pose proof (Qfloor_le (x + (1 # 2))) as X1.
  pose proof (Qlt_floor (x + (1 # 2))) as X2.
  rewrite inject_Z_plus in P2, X2. change (inject_Z 1) with 1 in P2, X2.
  set (a := Qfloor (p + (1 # 2))) in *. set (b := Qfloor (x + (1 # 2))) in *.
  assert (A : inject_Z a < inject_Z (b + 2)).
  { rewrite inject_Z_plus. change (inject_Z 2) with 2. lra. }
  assert (B : inject_Z b < inject_Z (a + 2)).
  { rewrite inject_Z_plus. change (inject_Z 2) with 2. lra. }
  rewrite <- Zlt_Qlt in A, B. lia.
Qed.

(** The grey level of the pixel loop and the rescale of the specification. *)
Lemma level64_near lo hi v :
  lo <= v -> v <= hi -> lo < hi ->
  Raster64.level (Some (lo, hi)) v
  = Z.max 0 (Z.min 255 (JS.Math_round (mul (sub v lo) (div 255 (sub hi lo))))) /\
  (Z.abs (Raster64.level (Some (lo, hi)) v - Raster.specRescale lo hi v) <= 1)%Z.
Proof.
  intros Hlo Hhi Hlt. unfold Raster64.level, Raster64.scaleOf, Raster.specRescale.
  destruct (Qlt_le_dec lo hi) as [_ | ?]; [|lra].
  split; [done|].
  destruct (scaled_near lo hi v Hlo Hhi Hlt) as [_ H].
  apply round_near in H. lia.
Qed.

Lemma level64_flat lo hi v :
  lo <= v -> v <= hi -> ~ lo < hi ->
  Raster64.scaleOf lo hi = 1 /\ Raster64.level (Some (lo, hi)) v = 0%Z.
Proof.
  intros Hlo Hhi Hflat. unfold Raster64.level, Raster64.scaleOf.
  destruct (Qlt_le_dec lo hi) as [? | _]; [lra|].
  split; [done|]. unfold mul, sub.
  rewrite (fl_zero (v - lo)) by lra.
  rewrite (fl_zero (0 * 1)) by lra. done.
Qed.

End ErrorBound.

Lemma normalize64_channel grid n m y x row v :
  grid !! y = Some row -> row !! x = Some v ->
  (y < n)%nat -> (x < m)%nat ->
  exists lo hi, Raster.minimumOf grid lo /\ Raster.maximumOf grid hi /\
  Raster64.normalize grid n m !! ((y * m + x) * 4 + 3)%nat = Some 255%Z /\
  forall c, (c < 3)%nat ->
  exists b, Raster64.normalize grid n m !! ((y * m + x) * 4 + c)%nat = Some b /\
    (0 <= b <= 255)%Z /\
    (lo < hi -> Raster64.moderate (hi - lo) ->
       ~ Binary64.sub hi lo == 0 /\
       b = Z.max 0 (Z.min 255
             (JS.Math_round (Binary64.mul (Binary64.sub v lo)
                               (Binary64.div 255 (Binary64.sub hi lo))))) /\
       (Z.abs (b - Raster.specRescale lo hi v) <= 1)%Z) /\
    (~ lo < hi -> Raster64.scaleOf lo hi = 1 /\ b = 0%Z).
Proof.
  intros Hy Hx Hn Hm.
  assert (Hin : v ∈ concat grid) by (by eapply elem_of_concat_lookup).
  destruct (extremes_Some grid v Hin) as (lo & hi & Hmm & Hlo & Hhi).
  exists lo, hi. split; [done|]. split; [done|]. split.
  { unfold Raster64.normalize. by rewrite paint64_channel by lia. }
  intros c Hc.
  assert (Hv : lo <= v /\ v <= hi) by (split; [by apply Hlo | by apply Hhi]).
  exists (Raster64.level (Some (lo, hi)) v). split; [|split; [|split]].
  - unfold Raster64.normalize. rewrite Hmm.
    rewrite paint64_channel by lia.
    destruct (Nat.ltb_spec c 3); [|lia].
    by rewrite (at2_lookup grid y x row v).
  - apply level64_range.
  - intros Hlt _.
    destruct (scaled_near lo hi v (proj1 Hv) (proj2 Hv) Hlt) as [Hpos _].
    destruct (level64_near lo hi v (proj1 Hv) (proj2 Hv) Hlt) as [E1 E2].
    split; [lra|]. split; [exact E1 | exact E2].
  - intros Hflat. exact (level64_flat lo hi v (proj1 Hv) (proj2 Hv) Hflat).
Qed.

(** C6, counterexample.  The samples 82, 104, 135 and 188: for the sample
    135 the pixel loop writes 127, where the rescale of the specification
    gives 128; the exact product is 127.5, and the rounded scale lies below
    255 / 106.  The worker that holds the spectrum of these samples answers
    a request whose disc covers the grid with that byte. *)
Lemma double_rescale_rounds_down :
  Raster.extremes tieSamples = Some (82, 188) /\
  Raster64.normalize tieSamples 2 2 !! 8%nat = Some 127%Z /\
  Raster.specRescale 82 188 135 = 128%Z /\
  (exists recon,
     ReconWorker.reconSamples Exact.ifft tieWorker 1 1 5 2 2 = JS.Returned recon /\
     Forall2 (Forall2 Qeq) recon tieSamples) /\
  ReconWorker64.reconFromCircle Exact.ifft tieWorker 1 1 5
  = JS.Returned [0; 0; 0; 255; 53; 53; 53; 255; 127; 127; 127; 255;
                 255; 255; 255; 255]%Z.
Proof.
  split; [vm_compute; reflexivity|]. split; [vm_compute; reflexivity|].
  split; [vm_compute; reflexivity|]. split; [|vm_compute; reflexivity].
  eexists. split; [vm_compute; reflexivity|].
  repeat constructor.
Qed.

(** C6, amended.  In the rescale of [renderKspace] and in the normalisation
    of [reconFromCircle], computed as the doubles compute them, the fourth
    byte of a pixel is 255 and every colour byte lies in [0, 255].  When the
    greatest sample exceeds the least one, by a difference within the range
    of the doubles, the divisor is not zero and the byte is
    Math.round((value - min) * scale) clamped to [0, 255], where
    scale = 255 / (max - min) is computed first and the difference, the
    quotient and the product are each rounded to a double: the byte is
    within one grey level of round((value - min) / (max - min) * 255), and
    is not always equal to it.  When the two extremes are equal the scale
    factor is 1, nothing is divided, and the byte is 0. *)
Theorem rescale_bytes :
  (forall (log1pAbs : Complex -> Q) spectrumCols rows cols px,
     Kspace64.renderKspace log1pAbs spectrumCols rows cols = JS.Returned px ->
     let n := Z.to_nat rows in
     let m := Z.to_nat cols in
     let mags := Kspace.magnitudes log1pAbs spectrumCols n m in
     forall y x, (y < n)%nat -> (x < m)%nat ->
     let v := log1pAbs (at2 spectrumCols y x) in
     exists lo hi, Raster.minimumOf mags lo /\ Raster.maximumOf mags hi /\
     px !! ((y * m + x) * 4 + 3)%nat = Some 255%Z /\
     forall c, (c < 3)%nat ->
     exists b, px !! ((y * m + x) * 4 + c)%nat = Some b /\
       (0 <= b <= 255)%Z /\
       (lo < hi -> Raster64.moderate (hi - lo) ->
          ~ Binary64.sub hi lo == 0 /\
          b = Z.max 0 (Z.min 255
                (JS.Math_round (Binary64.mul (Binary64.sub v lo)
                                  (Binary64.div 255 (Binary64.sub hi lo))))) /\
          (Z.abs (b - Raster.specRescale lo hi v) <= 1)%Z) /\
       (~ lo < hi -> Raster64.scaleOf lo hi = 1 /\ b = 0%Z)) /\
  (forall ifft st cx cy radius px,
     ReconWorker64.reconFromCircle ifft st cx cy radius = JS.Returned px ->
     let n := Z.to_nat (ReconWorker.ROWS st) in
     let m := Z.to_nat (ReconWorker.COLS st) in
     exists recon,
       ReconWorker.reconSamples ifft st cx cy radius n m = JS.Returned recon /\
       forall y x, (y < n)%nat -> (x < m)%nat ->
       let v := at2 recon y x in
       exists lo hi, Raster.minimumOf recon lo /\ Raster.maximumOf recon hi /\
       px !! ((y * m + x) * 4 + 3)%nat = Some 255%Z /\
       forall c, (c < 3)%nat ->
       exists b, px !! ((y * m + x) * 4 + c)%nat = Some b /\
         (0 <= b <= 255)%Z /\
         (lo < hi -> Raster64.moderate (hi - lo) ->
            ~ Binary64.sub hi lo == 0 /\
            b = Z.max 0 (Z.min 255
                  (JS.Math_round (Binary64.mul (Binary64.sub v lo)
                                    (Binary64.div 255 (Binary64.sub hi lo))))) /\
            (Z.abs (b - Raster.specRescale lo hi v) <= 1)%Z) /\
         (~ lo < hi -> Raster64.scaleOf lo hi = 1 /\ b = 0%Z)).
Proof.
  split.
  - intros log1pAbs S rows cols px H n m mags y x Hy Hx v.
    unfold Kspace64.renderKspace in H. unbind H. injection H as <-.
    apply newArray_inv in Ha as [_ ->]. apply allocRows_inv in Ha0 as [-> _].
    destruct (magnitudes_lookup log1pAbs S n m y x Hy Hx) as (row & Hrow & Hv).
    exact (normalize64_channel _ n m y x row _ Hrow Hv Hy Hx).
  - intros ifft st cx cy radius px H n m.
    unfold ReconWorker64.reconFromCircle in H. unbind H. injection H as <-.
    apply newArray_inv in Ha as [_ ->]. apply allocRows_inv in Ha0 as [-> _].
    exists a1. split; [done|].
    intros y x Hy Hx v.
    unfold ReconWorker.reconSamples in Ha1. unbind Ha1.
    destruct (realRows_lookup ifft _ _ _ _ y x Ha1 Hy Hx) as (row & w & Hrow & Hw).
    subst v. rewrite (at2_lookup a1 y x row w Hrow Hw).
    exact (normalize64_channel _ _ _ y x row _ Hrow Hw Hy Hx).
Qed.

Lemma normalize_opaqueGray grid rows cols :
  (0 <= rows)%Z -> (0 <= cols)%Z ->
  opaqueGray (Raster.normalize grid (Z.to_nat rows) (Z.to_nat cols)) rows cols.
Proof.
  intros Hr Hc.
  destruct (normalize_shape grid (Z.to_nat rows) (Z.to_nat cols)) as [Hlen Hpx].
  split.
  - rewrite Hlen. rewrite !Nat2Z.inj_mul, !Z2Nat.id by lia. done.
  - intros p Hp. apply Hpx.
    apply Nat2Z.inj_lt. rewrite Nat2Z.inj_mul, !Z2Nat.id by lia. done.
Qed.

(** What a recon reply of the worker looks like. *)
Lemma worker_recon_reply ifft st cx cy radius st' rows cols px :
  ReconWorker.onmessage ifft st (ReconWorker.circleRecon cx cy radius)
    = (st', [ReconWorker.recon rows cols px]) ->
  st' = st /\ rows = ReconWorker.ROWS st /\ cols = ReconWorker.COLS st /\
  (0 < rows)%Z /\ (0 < cols)%Z /\ opaqueGray px rows cols.
Proof.
  intros H. unfold ReconWorker.onmessage in H.
  destruct (ReconWorker.notLoaded st) eqn:Hg; [discriminate|].
  destruct (ReconWorker.reconFromCircle ifft st cx cy radius) as [px'|e] eqn:Hr;
    [|discriminate].
  injection H as <- <- <- <-.
  unfold ReconWorker.reconFromCircle in Hr. unbind Hr. injection Hr as <-.
  apply newArray_inv in Ha as [Hrows ->]. apply allocRows_inv in Ha0 as [-> Hcols].
  unfold ReconWorker.notLoaded in Hg.
  destruct (ReconWorker.SPEC_RE st), (ReconWorker.SPEC_IM st); try discriminate.
  apply orb_false_iff in Hg as [Hr0 Hc0].
  apply Z.eqb_neq in Hr0. apply Z.eqb_neq in Hc0.
  assert (0 <= ReconWorker.COLS st)%Z by (apply Hcols; lia).
  split; [done|]. split; [done|]. split; [done|].
  split; [lia|]. split; [lia|]. apply normalize_opaqueGray; lia.
Qed.

(** C10.  Every successful reconstruction, the [recon] reply of the worker
    as well as the image data of [renderReconFromSpectrum], is a buffer of
    exactly rows * cols * 4 bytes in which every pixel has three equal
    channels in [0, 255] followed by an alpha of 255. *)
Theorem recon_result_opaque_gray :
  (forall ifft st cx cy radius st' rows cols px,
     ReconWorker.onmessage ifft st (ReconWorker.circleRecon cx cy radius)
       = (st', [ReconWorker.recon rows cols px]) ->
     opaqueGray px rows cols) /\
  (forall ifft spectrumCols rows cols px,
     Kspace.renderReconFromSpectrum ifft spectrumCols rows cols = JS.Returned px ->
     opaqueGray px rows cols).
Proof.
  split.
  - intros ifft st cx cy radius st' rows cols px H.
    by apply worker_recon_reply in H as (_ & _ & _ & _ & _ & H).
  - intros ifft S rows cols px H.
    unfold Kspace.renderReconFromSpectrum in H. unbind H. injection H as <-.
    apply newArray_inv in Ha as [Hrows ->]. apply allocRows_inv in Ha0 as [-> Hcols].
    apply createImageData_inv in Ha2 as [Hm Hn].
    apply normalize_opaqueGray; [done|]. apply Hcols. lia.
Qed.

Section MaskFacts.

Lemma inside_inDisc cx cy radius x y :
  inside cx cy (radius * radius) x y = true <-> inDisc cx cy radius x y.
Proof.
  unfold inside, inDisc. rewrite Qle_bool_iff.
  unfold Qpower, Qpower_positive, pow_pos. simpl. done.
Qed.

Lemma masked_at spectrum n m cx cy radius y x :
  (y < n)%nat -> (x < m)%nat ->
  at2 (Kspace.masked spectrum n m cx cy radius) y x
  = if inside cx cy (radius * radius) x y then at2 spectrum y x else czero.
Proof.
  intros Hy Hx. unfold Kspace.masked. cbv zeta.
  eapply at2_lookup.
  - exact (lookup_map_seq
             (fun y => map (fun x => if inside cx cy (radius * radius) x y
                                     then at2 spectrum y x else czero) (seq 0 m))
             n y Hy).
  - exact (lookup_map_seq
             (fun x => if inside cx cy (radius * radius) x y
                       then at2 spectrum y x else czero) m x Hx).
Qed.

Lemma map_seq_ext {A} (f g : nat -> A) n :
  (forall i, (i < n)%nat -> f i = g i) -> map f (seq 0 n) = map g (seq 0 n).
Proof.
  intros H. apply map_ext_in. intros i Hi. apply H. apply in_seq in Hi. lia.
Qed.

Lemma collect_map_seq_ext {A} (f g : nat -> JS.Result A) n :
  (forall i, (i < n)%nat -> f i = g i) ->
  JS.collect (map f (seq 0 n)) = JS.collect (map g (seq 0 n)).
Proof. intros H. f_equal. by apply map_seq_ext. Qed.

Lemma complexAt_cached st n m x y :
  planesLoaded st -> n = Z.to_nat (ReconWorker.ROWS st) ->
  ReconWorker.COLS st = Z.of_nat m -> (y < n)%nat -> (x < m)%nat ->
  ReconWorker.complexAt st x y = JS.Returned (at2 (cachedSpectrum st n m) y x).
Proof.
  intros (re & im & Hre & Him & Lre & Lim) -> Hm Hy Hx.
  assert (Hi : (y * m + x < Z.to_nat (ReconWorker.ROWS st) * m)%nat) by nia.
  assert (Hlen : (Z.of_nat (Z.to_nat (ReconWorker.ROWS st) * m)
                  = ReconWorker.ROWS st * ReconWorker.COLS st)%Z).
  { rewrite Nat2Z.inj_mul, Z2Nat.id by lia. by rewrite Hm. }
  unfold ReconWorker.complexAt, ReconWorker.idx, ReconWorker.readAt.
  rewrite Hre, Him, Hm.
  destruct (Z.ltb_spec (Z.of_nat y * Z.of_nat m + Z.of_nat x) 0); [lia|].
  replace (Z.to_nat (Z.of_nat y * Z.of_nat m + Z.of_nat x)) with (y * m + x)%nat by lia.
  destruct (lookup_lt_is_Some_2 re (y * m + x)) as [a Ha]; [lia|].
  destruct (lookup_lt_is_Some_2 im (y * m + x)) as [b Hb]; [lia|].
  rewrite Ha, Hb. simpl. f_equal. symmetry.
  unfold cachedSpectrum. rewrite Hre, Him. simpl.
  eapply at2_lookup; [by apply lookup_map_seq|].
  rewrite lookup_map_seq by done.
  by rewrite (list_lookup_total_correct _ _ _ Ha), (list_lookup_total_correct _ _ _ Hb).
Qed.

Lemma maskedColumn_cached st cx cy radius n m x :
  planesLoaded st -> n = Z.to_nat (ReconWorker.ROWS st) ->
  ReconWorker.COLS st = Z.of_nat m -> (x < m)%nat ->
  ReconWorker.maskedColumn st cx cy (radius * radius) n x
  = JS.Returned (column (Kspace.masked (cachedSpectrum st n m) n m cx cy radius) n x).
Proof.
  intros Hst Hn Hm Hx. unfold ReconWorker.maskedColumn, column.
  apply collect_map_all. intros y Hy. apply elem_of_seq in Hy.
  rewrite masked_at by lia.
  destruct (inside cx cy (radius * radius) x y); [|done].
  apply complexAt_cached; [done | done | done | lia | done].
Qed.

Lemma worker_reconSamples st ifft cx cy radius n m :
  planesLoaded st -> n = Z.to_nat (ReconWorker.ROWS st) ->
  (m <> 0%nat -> ReconWorker.COLS st = Z.of_nat m) ->
  ReconWorker.reconSamples ifft st cx cy radius n m
  = Kspace.reconSamples ifft (Kspace.masked (cachedSpectrum st n m) n m cx cy radius) n m.
Proof.
  intros Hst Hn Hm. unfold ReconWorker.reconSamples, Kspace.reconSamples.
  f_equal. apply collect_map_seq_ext. intros x Hx.
  rewrite (maskedColumn_cached st cx cy radius n m x) by (try done; apply Hm; lia).
  done.
Qed.

End MaskFacts.

(** C2.  The masked spectrum holds the coefficient of the spectrum at every
    position (x, y) with (x - cx)^2 + (y - cy)^2 <= radius^2, the boundary
    included, and the complex zero at every other position; and the
    reconstruction, in [renderReconFromCircle] as in the worker's
    [reconFromCircle], is the inverse transform of that masked spectrum. *)
Theorem mask_keeps_exactly_the_disc :
  (forall spectrum n m cx cy radius y x, (y < n)%nat -> (x < m)%nat ->
     (inDisc cx cy radius x y ->
        at2 (Kspace.masked spectrum n m cx cy radius) y x = at2 spectrum y x) /\
     (~ inDisc cx cy radius x y ->
        at2 (Kspace.masked spectrum n m cx cy radius) y x = czero)) /\
  (forall ifft spectrum rows cols cx cy radius,
     Kspace.renderReconFromCircle ifft spectrum rows cols cx cy radius
     = Kspace.renderReconFromSpectrum ifft
         (Kspace.masked spectrum (Z.to_nat rows) (Z.to_nat cols) cx cy radius)
         rows cols) /\
  (forall ifft st cx cy radius, planesLoaded st ->
     ReconWorker.reconFromCircle ifft st cx cy radius
     = (try! n := JS.newArray (ReconWorker.ROWS st) in
        try! m := allocRows n (ReconWorker.COLS st) in
        try! recon := Kspace.reconSamples ifft
                        (Kspace.masked (cachedSpectrum st n m) n m cx cy radius) n m in
        JS.Returned (Raster.normalize recon n m))).
Proof.
  split; [|split].
  - intros spectrum n m cx cy radius y x Hy Hx.
    rewrite masked_at by done.
    destruct (inside cx cy (radius * radius) x y) eqn:E.
    + split; [done|]. intros H. exfalso. apply H. by apply inside_inDisc.
    + split; [|done]. intros H. apply inside_inDisc in H. congruence.
  - intros ifft spectrum rows cols cx cy radius.
    unfold Kspace.renderReconFromCircle, Kspace.renderReconFromSpectrum.
    destruct (JS.newArray rows) as [n|e] eqn:Hn; simpl; [|done].
    destruct (allocRows n cols) as [m|e] eqn:Hm; simpl; [|done].
    apply newArray_inv in Hn as [_ ->]. apply allocRows_inv in Hm as [-> _]. done.
  - intros ifft st cx cy radius Hst. unfold ReconWorker.reconFromCircle.
    destruct (JS.newArray (ReconWorker.ROWS st)) as [n|e] eqn:Hn; simpl; [|done].
    destruct (allocRows n (ReconWorker.COLS st)) as [m|e] eqn:Hm; simpl; [|done].
    apply newArray_inv in Hn as [Hr ->].
    rewrite (worker_reconSamples st ifft cx cy radius _ m); [done | done | done |].
    intros Hm0. apply allocRows_inv in Hm as [-> _]. lia.
Qed.

(** C5.  For one centre and radii 0 <= R1 < R2, every position that the
    mask of radius R1 includes is included by the mask of radius R2. *)
Theorem mask_monotone_in_radius cx cy R1 R2 x y :
  0 <= R1 -> R1 < R2 ->
  inside cx cy (R1 * R1) x y = true -> inside cx cy (R2 * R2) x y = true.
Proof.
  intros H0 Hlt. unfold inside. rewrite !Qle_bool_iff. intros H.
  eapply Qle_trans; [exact H|]. nra.
Qed.

Section ForwardFacts.

Lemma collect_map_exists {A B} (f : A -> JS.Result B) xs :
  (forall x, x ∈ xs -> exists b, f x = JS.Returned b) ->
  exists l, JS.collect (map f xs) = JS.Returned l.
Proof.
  induction xs as [|a xs IH]; intros H; simpl; [eauto|].
  destruct (H a) as [b Hb]; [by left|].
  destruct IH as [l Hl]; [intros; apply H; by right|].
  rewrite Hb, Hl. simpl. eauto.
Qed.

Lemma scatter_shape {A} `{Inhabited A} (columns : list (list A)) n m :
  length (scatter columns n m) = n /\
  Forall (fun row => length row = m) (scatter columns n m).
Proof.
  unfold scatter. split.
  - by rewrite length_map, length_seq.
  - apply Forall_forall. intros row Hrow.
    apply list_elem_of_In, in_map_iff in Hrow as (y & <- & _).
    by rewrite length_map, length_seq.
Qed.

End ForwardFacts.

(** C3, counterexample.  With rows = 0 and cols = 0 the forward transform
    returns the empty spectrum: nothing is rejected. *)
Lemma empty_grid_is_not_rejected :
  ((0 <= 0)%Z \/ (0 <= 0)%Z) /\
  Kspace.computeSpectrum Exact.fft [] 0 0 = JS.Returned [] /\
  ~ (exists e, Kspace.computeSpectrum Exact.fft [] 0 0 = JS.Thrown e).
Proof.
  split; [left; lia|]. split; [reflexivity|].
  intros [e He]. discriminate He.
Qed.

(** C3, amended.  [computeSpectrum] checks no dimension and knows no
    InvalidDimensions value.  With negative rows the allocation of the first
    array throws a RangeError; with rows = 0 and cols <= 0 the empty spectrum
    is returned; and on a grid of positive dimensions, on whose rows and
    columns the transform returns, it returns a spectrum of the same
    dimensions. *)
Theorem forward_transform_dimensions fft gray rows cols :
  ((rows < 0)%Z ->
     Kspace.computeSpectrum fft gray rows cols = JS.Thrown JS.RangeError) /\
  (rows = 0%Z -> (cols <= 0)%Z ->
     Kspace.computeSpectrum fft gray rows cols = JS.Returned []) /\
  ((0 < rows)%Z -> (0 < cols)%Z -> sampleGrid gray rows cols ->
   returnsOn fft rows -> returnsOn fft cols ->
     exists spectrum,
       Kspace.computeSpectrum fft gray rows cols = JS.Returned spectrum /\
       Z.of_nat (length spectrum) = rows /\
       Forall (fun row => Z.of_nat (length row) = cols) spectrum).
Proof.
  split; [|split].
  - intros Hneg. unfold Kspace.computeSpectrum, JS.newArray.
    destruct (Z.ltb_spec rows 0); [done | lia].
  - intros -> Hc. unfold Kspace.computeSpectrum. simpl.
    replace (Z.to_nat cols) with 0%nat by lia. done.
  - intros Hr Hc [Hlen Hrows] Hfr Hfc.
    unfold Kspace.computeSpectrum, JS.newArray.
    destruct (Z.ltb_spec rows 0); [lia|]. simpl.
    destruct (collect_map_exists
                (fun y => match gray !! y with
                          | Some row => fft (Kspace.centered y row)
                          | None => JS.Thrown JS.TypeError
                          end) (seq 0 (Z.to_nat rows))) as [spectrum Hs].
    { intros y Hy. apply elem_of_seq in Hy.
      destruct (lookup_lt_is_Some_2 gray y) as [row Hrow]; [lia|].
      rewrite Hrow.
      destruct (Hfc (Kspace.centered y row)) as (l' & Hl' & _); [|eauto].
      unfold Kspace.centered. rewrite length_imap.
      rewrite Forall_forall in Hrows. apply Hrows.
      by apply list_elem_of_lookup_2 in Hrow. }
    rewrite Hs. simpl.
    assert (Ha : allocRows (Z.to_nat rows) cols = JS.Returned (Z.to_nat cols)).
    { unfold allocRows, JS.newArray. destruct (Z.to_nat rows) eqn:E; [lia|].
      destruct (Z.ltb_spec cols 0); [lia | done]. }
    rewrite Ha. simpl.
    destruct (collect_map_exists
                (fun x => fft (column spectrum (Z.to_nat rows) x))
                (seq 0 (Z.to_nat cols))) as [colFfts Hcs].
    { intros x _. destruct (Hfr (column spectrum (Z.to_nat rows) x)) as (l' & Hl' & _);
        [|eauto].
      unfold column. rewrite length_map, length_seq. lia. }
    rewrite Hcs. simpl. eexists. split; [done|].
    destruct (scatter_shape colFfts (Z.to_nat rows) (Z.to_nat cols)) as [Hn Hm].
    split; [rewrite Hn; lia|].
    eapply Forall_impl; [exact Hm|]. intros row ->. lia.
Qed.

Section RoundTrip.

Lemma map_lookup_total_seq {A} `{Inhabited A} (l : list A) n :
  length l = n -> map (fun i => l !!! i) (seq 0 n) = l.
Proof.
  intros <-. apply list_eq. intros i.
  destruct (decide (i < length l)%nat) as [Hi | Hi].
  - rewrite lookup_map_seq by done.
    destruct (lookup_lt_is_Some_2 l i Hi) as [a Ha].
    by rewrite Ha, (list_lookup_total_correct _ _ _ Ha).
  - rewrite (lookup_ge_None_2 l i) by lia.
    apply lookup_ge_None_2. rewrite length_map, length_seq. lia.
Qed.

Lemma at2_map_seq {A} `{Inhabited A} (f : nat -> list A) n y x :
  (y < n)%nat -> at2 (map f (seq 0 n)) y x = f y !!! x.
Proof.
  intros Hy. unfold at2.
  by rewrite (list_lookup_total_correct _ _ _ (lookup_map_seq f n y Hy)).
Qed.

Lemma scatter_row {A} `{Inhabited A} (columns : list (list A)) n m y :
  (y < n)%nat -> scatter columns n m !!! y = map (fun x => at2 columns x y) (seq 0 m).
Proof.
  intros Hy. unfold scatter. apply list_lookup_total_correct.
  exact (lookup_map_seq (fun y => map (fun x => at2 columns x y) (seq 0 m)) n y Hy).
Qed.

Lemma at2_scatter {A} `{Inhabited A} (columns : list (list A)) n m y x :
  (y < n)%nat -> (x < m)%nat -> at2 (scatter columns n m) y x = at2 columns x y.
Proof.
  intros Hy Hx. unfold at2 at 1. rewrite scatter_row by done.
  apply list_lookup_total_correct.
  exact (lookup_map_seq (fun x => at2 columns x y) m x Hx).
Qed.

Lemma column_at {A} `{Inhabited A} (grid : list (list A)) n x y :
  (y < n)%nat -> column grid n x !!! y = at2 grid y x.
Proof.
  intros Hy. unfold column. apply list_lookup_total_correct.
  exact (lookup_map_seq (fun y => at2 grid y x) n y Hy).
Qed.

Lemma collect_map_seq_total {A} (f : nat -> JS.Result A) n :
  (forall i, (i < n)%nat -> exists b, f i = JS.Returned b) ->
  exists l, JS.collect (map f (seq 0 n)) = JS.Returned l /\ length l = n /\
            forall i, (i < n)%nat -> exists b, l !! i = Some b /\ f i = JS.Returned b.
Proof.
  intros Hf.
  destruct (collect_map_exists f (seq 0 n)) as [l Hl].
  { intros i Hi. apply elem_of_seq in Hi. apply Hf. lia. }
  exists l. split; [done|].
  apply collect_map_inv in Hl as [Hlen Hl]. rewrite length_seq in Hlen.
  split; [done|]. intros i Hi. apply (Hl i i). by apply lookup_seq_lt.
Qed.

Lemma checker_undoes x y v :
  (if Nat.even (x + y) then v else - v) * checker x y == v.
Proof. unfold checker. destruct (Nat.even (x + y)); ring. Qed.

Lemma ceq_refl a : ceq a a.
Proof. split; reflexivity. Qed.

Lemma ceq_sym a b : ceq a b -> ceq b a.
Proof. intros [H1 H2]. split; by symmetry. Qed.

Lemma ceq_trans a b c : ceq a b -> ceq b c -> ceq a c.
Proof. intros [H1 H2] [H3 H4]. split; etransitivity; eassumption. Qed.

Lemma Forall2_ceq_total (l1 l2 : list Complex) i :
  Forall2 ceq l1 l2 -> (i < length l1)%nat -> ceq (l1 !!! i) (l2 !!! i).
Proof.
  intros H Hi.
  destruct (lookup_lt_is_Some_2 l1 i Hi) as [a Ha].
  destruct (Forall2_lookup_l _ _ _ _ _ H Ha) as (b & Hb & Hab).
  by rewrite (list_lookup_total_correct _ _ _ Ha), (list_lookup_total_correct _ _ _ Hb).
Qed.

(** The forward transform followed by the inverse one, in exact arithmetic
    and for transforms of which the inverse undoes the forward one: the
    reconstructed samples are the samples of the grid.  (What the doubles of
    the run-time and the transforms of mathjs lose on the way is not
    described here.) *)
Lemma roundtrip_exact fft ifft gray rows cols :
  (0 < rows)%Z -> (0 < cols)%Z -> sampleGrid gray rows cols ->
  undoes fft ifft rows -> undoes fft ifft cols -> respects ifft cols ->
  exists spectrum recon,
    Kspace.computeSpectrum fft gray rows cols = JS.Returned spectrum /\
    Kspace.reconSamples ifft spectrum (Z.to_nat rows) (Z.to_nat cols) = JS.Returned recon /\
    Forall2 (Forall2 Qeq) recon gray.
Proof.
  intros Hr Hc [Hlen Hrows] Hir Hic Hresp.
  set (n := Z.to_nat rows). set (m := Z.to_nat cols).
  rewrite Forall_forall in Hrows.
  (* the transforms of the rows *)
  destruct (collect_map_seq_total
              (fun y => match gray !! y with
                        | Some row => fft (Kspace.centered y row)
                        | None => JS.Thrown JS.TypeError
                        end) n) as (S1 & HS1 & HlenS1 & HS1y).
  { intros y Hy. destruct (lookup_lt_is_Some_2 gray y) as [row Hrow]; [lia|].
    rewrite Hrow. destruct (Hic (Kspace.centered y row)) as (l' & _ & Hl' & _); [|eauto].
    unfold Kspace.centered. rewrite length_imap. apply Hrows.
    by apply list_elem_of_lookup_2 in Hrow. }
  assert (HF : forall y, (y < n)%nat -> exists row F R,
             gray !! y = Some row /\ length row = m /\ S1 !! y = Some F /\
             length F = m /\ ifft F = JS.Returned R /\
             Forall2 ceq R (Kspace.centered y row)).
  { intros y Hy. destruct (lookup_lt_is_Some_2 gray y) as [row Hrow]; [lia|].
    assert (Hrl : length row = m).
    { apply list_elem_of_lookup_2 in Hrow. apply Hrows in Hrow. lia. }
    destruct (HS1y y Hy) as (F & HFy & Hfft). rewrite Hrow in Hfft.
    destruct (Hic (Kspace.centered y row)) as (F' & R & HF' & HlF & Hinv & HR).
    { unfold Kspace.centered. rewrite length_imap. lia. }
    rewrite HF' in Hfft. injection Hfft as <-.
    exists row, F', R. repeat split; try done.
    rewrite HlF. unfold Kspace.centered. by rewrite length_imap. }
  (* the transforms of the columns *)
  destruct (collect_map_seq_total (fun x => fft (column S1 n x)) m)
    as (S2 & HS2 & HlenS2 & HS2x).
  { intros x Hx. destruct (Hir (column S1 n x)) as (l' & _ & Hl' & _); [|eauto].
    unfold column. rewrite length_map, length_seq. lia. }
  assert (HG : forall x, (x < m)%nat -> exists G C,
             S2 !! x = Some G /\ column (scatter S2 n m) n x = G /\
             ifft G = JS.Returned C /\ Forall2 ceq C (column S1 n x)).
  { intros x Hx. destruct (HS2x x Hx) as (G & HGx & Hfft).
    destruct (Hir (column S1 n x)) as (G' & C & HG' & HlG & Hinv & HC).
    { unfold column. rewrite length_map, length_seq. lia. }
    rewrite HG' in Hfft. injection Hfft as <-.
    exists G', C. repeat split; try done.
    assert (HlG' : length G' = n).
    { rewrite HlG. unfold column. by rewrite length_map, length_seq. }
    unfold column. rewrite <- (map_lookup_total_seq G' n HlG') at 1.
    apply map_seq_ext. intros y Hy.
    rewrite at2_scatter by lia.
    unfold at2. by rewrite (list_lookup_total_correct _ _ _ HGx). }
  (* the inverse transforms of the columns *)
  destruct (collect_map_seq_total (fun x => ifft (column (scatter S2 n m) n x)) m)
    as (CI & HCI & HlenCI & HCIx).
  { intros x Hx. destruct (HG x Hx) as (G & C & _ & -> & HC & _). eauto. }
  assert (Htemp : forall y, (y < n)%nat -> forall F, S1 !! y = Some F -> length F = m ->
             Forall2 ceq F (scatter CI n m !!! y)).
  { intros y Hy F HFy HlF. rewrite scatter_row by done.
    apply Forall2_same_length_lookup_2.
    { by rewrite length_map, length_seq. }
    intros x a b Ha Hb.
    assert (Hx : (x < m)%nat) by (apply lookup_lt_Some in Ha; lia).
    rewrite lookup_map_seq in Hb by done. injection Hb as <-.
    destruct (HG x Hx) as (G & C & _ & HGc & HC & HCc).
    destruct (HCIx x Hx) as (C' & HC' & HiC). rewrite HGc, HC in HiC.
    injection HiC as <-.
    unfold at2. rewrite (list_lookup_total_correct _ _ _ HC').
    apply ceq_sym.
    pose proof (Forall2_ceq_total C (column S1 n x) y HCc) as Hcy.
    rewrite column_at in Hcy by done.
    unfold at2 in Hcy. rewrite (list_lookup_total_correct _ _ _ HFy) in Hcy.
    rewrite (list_lookup_total_correct _ _ _ Ha) in Hcy.
    apply Hcy. rewrite (Forall2_length _ _ _ HCc).
    unfold column. by rewrite length_map, length_seq. }
  (* the inverse transforms of the rows *)
  assert (HR : forall y, (y < n)%nat -> exists row R',
             gray !! y = Some row /\ length row = m /\
             ifft (scatter CI n m !!! y) = JS.Returned R' /\
             Forall2 ceq R' (Kspace.centered y row)).
  { intros y Hy. destruct (HF y Hy) as (row & F & R & Hrow & Hrl & HFy & HlF & HiF & HRc).
    destruct (Hresp F (scatter CI n m !!! y) R) as (R' & HR' & HRR'); [lia | | done |].
    { by apply Htemp. }
    exists row, R'. repeat split; try done.
    apply Forall2_same_length_lookup_2.
    { rewrite <- (Forall2_length _ _ _ HRR'). by apply Forall2_length in HRc. }
    intros x a b Ha Hb.
    destruct (Forall2_lookup_r _ _ _ _ _ HRR' Ha) as (c & Hc' & Hca).
    destruct (Forall2_lookup_l _ _ _ _ _ HRc Hc') as (b' & Hb' & Hcb).
    rewrite Hb in Hb'. injection Hb' as <-.
    eapply ceq_trans; [apply ceq_sym; exact Hca | exact Hcb]. }
  destruct (collect_map_seq_total
              (fun y => try! rowIfft := ifft (scatter CI n m !!! y) in
                        JS.Returned (Kspace.realRow y m rowIfft)) n)
    as (recon & Hrecon & Hlenrecon & Hrecony).
  { intros y Hy. destruct (HR y Hy) as (row & R' & _ & _ & -> & _). simpl. eauto. }
  exists (scatter S2 n m), recon.
  split; [|split].
  - unfold Kspace.computeSpectrum, JS.newArray.
    destruct (Z.ltb_spec rows 0); [lia|]. simpl. fold n. rewrite HS1. simpl.
    assert (Ha : allocRows n cols = JS.Returned m).
    { unfold allocRows, JS.newArray. destruct n eqn:E; [lia|].
      destruct (Z.ltb_spec cols 0); [lia | done]. }
    rewrite Ha. simpl. rewrite HS2. done.
  - unfold Kspace.reconSamples. fold n m. rewrite HCI. simpl. exact Hrecon.
  - apply Forall2_same_length_lookup_2; [lia|].
    intros y r row Hr1 Hrow.
    assert (Hy : (y < n)%nat) by (apply lookup_lt_Some in Hrow; lia).
    destruct (HR y Hy) as (row' & R' & Hrow' & Hrl & HiR & HRc).
    rewrite Hrow in Hrow'. injection Hrow' as <-.
    destruct (Hrecony y Hy) as (r' & Hr' & Hry). rewrite Hr1 in Hr'. injection Hr' as <-.
    rewrite HiR in Hry. simpl in Hry. injection Hry as <-.
    apply Forall2_same_length_lookup_2.
    { unfold Kspace.realRow. by rewrite length_map, length_seq. }
    intros x q v Hq Hv.
    assert (Hx : (x < m)%nat) by (apply lookup_lt_Some in Hv; lia).
    unfold Kspace.realRow in Hq. rewrite lookup_map_seq in Hq by done.
    injection Hq as <-.
    assert (Hcx : Kspace.centered y row !! x
                  = Some (ofReal (if Nat.even (x + y) then v else - v))).
    { unfold Kspace.centered. by rewrite list_lookup_imap, Hv. }
    pose proof (Forall2_ceq_total R' _ x HRc) as [Hre _].
    { rewrite (Forall2_length _ _ _ HRc). unfold Kspace.centered.
      rewrite length_imap. lia. }
    rewrite (list_lookup_total_correct _ _ _ Hcx) in Hre. simpl in Hre.
    rewrite Hre. apply checker_undoes.
Qed.

End RoundTrip.

(** The exact transforms of two entries undo each other. *)
Lemma exact_undoes_2 : undoes Exact.fft Exact.ifft 2.
Proof.
  intros l Hl.
  destruct l as [|[a1 a2] [|[b1 b2] [|c l]]]; simpl in Hl; try lia.
  eexists _, _. split; [reflexivity|]. split; [reflexivity|].
  split; [reflexivity|].
  constructor; [split; simpl; change (inject_Z (Z.of_nat 2)) with 2; field|].
  constructor; [split; simpl; change (inject_Z (Z.of_nat 2)) with 2; field|].
  constructor.
Qed.

Lemma exact_ifft_respects_2 : respects Exact.ifft 2.
Proof.
  intros l1 l2 r1 Hl H Hr.
  destruct l1 as [|[a1 a2] [|[b1 b2] [|c l]]]; simpl in Hl; try lia.
  inversion H as [|? [c1 c2] ? ? [Ha1 Ha2] H' E1 E2]; subst.
  inversion H' as [|? [d1 d2] ? ? [Hb1 Hb2] H'' E1 E2]; subst.
  inversion H''; subst. simpl in *.
  injection Hr as <-.
  eexists. split; [reflexivity|].
  constructor; [split; simpl; rewrite Ha1, Ha2, Hb1, Hb2; reflexivity|].
  constructor; [split; simpl; rewrite Ha1, Ha2, Hb1, Hb2; reflexivity|].
  constructor.
Qed.

(** The round trip of a 2 x 2 grid. *)
Lemma roundtrip_exact_2x2 :
  exists spectrum recon,
    Kspace.computeSpectrum Exact.fft [[1; 2]; [3; 7]] 2 2 = JS.Returned spectrum /\
    Kspace.reconSamples Exact.ifft spectrum 2 2 = JS.Returned recon /\
    Forall2 (Forall2 Qeq) recon [[1; 2]; [3; 7]].
Proof.
  apply (roundtrip_exact Exact.fft Exact.ifft [[1; 2]; [3; 7]] 2 2);
    [lia | lia | | apply exact_undoes_2 | apply exact_undoes_2
     | apply exact_ifft_respects_2].
  split; [reflexivity | repeat constructor].
Qed.


Lemma run_app ifft st l1 l2 :
  ReconWorker.run ifft st (l1 ++ l2)
  = let '(st1, out1) := ReconWorker.run ifft st l1 in
    let '(st2, out2) := ReconWorker.run ifft st1 l2 in
    (st2, out1 ++ out2).
Proof.
  revert st. induction l1 as [|a l1 IH]; intros st; simpl.
  - by destruct (ReconWorker.run ifft st l2).
  - destruct (ReconWorker.onmessage ifft st a) as [st1 out1].
    rewrite IH.
    destruct (ReconWorker.run ifft st1 l1) as [st2 out2].
    destruct (ReconWorker.run ifft st2 l2) as [st3 out3].
    by rewrite app_assoc.
Qed.

Lemma run_before_load ifft requests :
  Forall isCircleRecon requests ->
  ReconWorker.run ifft ReconWorker.initial requests
  = (ReconWorker.initial,
     map (fun _ => ReconWorker.error ReconWorker.SpectrumNotLoaded) requests).
Proof.
  induction 1 as [|m l Hm _ IH]; simpl; [done|].
  destruct m; [done|]. simpl. by rewrite IH.
Qed.

(** C9, counterexample.  Response 1 delivered after response 2 replaces it
    on display. *)
Lemma late_reply_overwrites_newer :
  let resp1 := ReconWorker.recon 1 1 [10; 10; 10; 255]%Z in
  let resp2 := ReconWorker.recon 1 1 [200; 200; 200; 255]%Z in
  let app := {| App.reconUrl := None; App.reconBusy := true;
                App.rows := Some 1%Z; App.cols := Some 1%Z;
                App.circleCenter := None |} in
  App.reconUrl (App.deliver app [resp2; resp1])
  = Some {| App.imageRows := 1; App.imageCols := 1;
            App.imagePixels := [10; 10; 10; 255]%Z |}.
Proof. reflexivity. Qed.

Lemma deliver_snoc app replies msg :
  App.deliver app (replies ++ [msg]) = App.onWorkerMessage (App.deliver app replies) msg.
Proof. unfold App.deliver. by rewrite foldl_app. Qed.

Lemma opaqueGray_newImageData px rows cols :
  (0 < rows)%Z -> (0 < cols)%Z -> opaqueGray px rows cols ->
  App.newImageData px cols rows
  = JS.Returned {| App.imageRows := rows; App.imageCols := cols; App.imagePixels := px |}.
Proof.
  intros Hr Hc [Hlen _]. unfold App.newImageData.
  destruct (Z.ltb_spec 0 cols); [|lia]. destruct (Z.ltb_spec 0 rows); [|lia].
  destruct (Z.eqb_spec (Z.of_nat (length px)) (4 * cols * rows)); [done | lia].
Qed.

(** C9, amended.  The application has no sequence number or generation
    tag: it shows every [recon] reply as it arrives, so that the result on
    display is the content of the reply that arrived last.  The worker
    answers requests in the order in which it receives them, so the replies
    to the requests 1 and 2 are posted in that order and response 2 ends up
    on display; delivered the other way round, response 1 would. *)
Theorem replies_shown_in_arrival_order
  ifft st app cx1 cy1 r1 cx2 cy2 r2 rows cols px1 px2 :
  snd (ReconWorker.onmessage ifft st (ReconWorker.circleRecon cx1 cy1 r1))
    = [ReconWorker.recon rows cols px1] ->
  snd (ReconWorker.onmessage ifft st (ReconWorker.circleRecon cx2 cy2 r2))
    = [ReconWorker.recon rows cols px2] ->
  let resp1 := ReconWorker.recon rows cols px1 in
  let resp2 := ReconWorker.recon rows cols px2 in
  snd (ReconWorker.run ifft st [ReconWorker.circleRecon cx1 cy1 r1;
                                ReconWorker.circleRecon cx2 cy2 r2])
    = [resp1; resp2] /\
  App.reconUrl (App.deliver app [resp1; resp2])
    = Some {| App.imageRows := rows; App.imageCols := cols; App.imagePixels := px2 |} /\
  App.reconUrl (App.deliver app [resp2; resp1])
    = Some {| App.imageRows := rows; App.imageCols := cols; App.imagePixels := px1 |}.
Proof.
  intros H1 H2 resp1 resp2.
  destruct (ReconWorker.onmessage ifft st (ReconWorker.circleRecon cx1 cy1 r1))
    as [st1 out1] eqn:E1.
  destruct (ReconWorker.onmessage ifft st (ReconWorker.circleRecon cx2 cy2 r2))
    as [st2 out2] eqn:E2.
  simpl in H1, H2. subst out1 out2.
  destruct (worker_recon_reply _ _ _ _ _ _ _ _ _ E1) as (-> & _ & _ & Hr & Hc & Hpx1).
  destruct (worker_recon_reply _ _ _ _ _ _ _ _ _ E2) as (-> & _ & _ & _ & _ & Hpx2).
  split; [|split].
  - cbn [ReconWorker.run]. rewrite E1, E2. done.
  - unfold App.deliver. simpl.
    rewrite (opaqueGray_newImageData px1), (opaqueGray_newImageData px2) by done.
    done.
  - unfold App.deliver. simpl.
    rewrite (opaqueGray_newImageData px2), (opaqueGray_newImageData px1) by done.
    done.
Qed.

Lemma flat100_spectrum :
  Kspace.computeSpectrum Exact.fft Exact.flat100 4 4 = JS.Returned flatSpectrum.
Proof. vm_compute. reflexivity. Qed.

Lemma level_lowest lo hi : Raster.level (Some (lo, hi)) lo = 0%Z.
Proof.
  unfold Raster.level, JS.Math_round.
  rewrite (Qfloor_comp _ (1 # 2)) by ring. reflexivity.
Qed.

Lemma level_highest lo hi : lo < hi -> Raster.level (Some (lo, hi)) hi = 255%Z.
Proof.
  intros H. unfold Raster.level, JS.Math_round. rewrite scaleOf_lt by done.
  rewrite (Qfloor_comp _ (511 # 2)); [reflexivity|].
  assert (~ hi - lo == 0) by lra. field. done.
Qed.

Lemma flat_magnitudes_extremes (log1pAbs : Complex -> Q) :
  log1pAbs czero < log1pAbs (ofReal 1600) ->
  Raster.extremes (Kspace.magnitudes log1pAbs flatSpectrum 4 4)
  = Some (log1pAbs czero, log1pAbs (ofReal 1600)).
Proof.
  intros Hlt.
  set (mags := Kspace.magnitudes log1pAbs flatSpectrum 4 4).
  assert (H0 : log1pAbs czero ∈ concat mags).
  { apply (elem_of_concat_lookup mags 0 0 _ _ eq_refl eq_refl). }
  assert (H1 : log1pAbs (ofReal 1600) ∈ concat mags).
  { apply (elem_of_concat_lookup mags 2 2 _ _ eq_refl eq_refl). }
  assert (Hall : forall v, v ∈ concat mags ->
                   v = log1pAbs czero \/ v = log1pAbs (ofReal 1600)).
  { intros v Hv. apply list_elem_of_In in Hv. simpl in Hv.
    repeat (destruct Hv as [<- | Hv]; [auto|]). done. }
  destruct (extremes_Some mags _ H0) as (lo & hi & -> & [Hlo Hmin] & [Hhi Hmax]).
  destruct (Hall lo Hlo) as [-> | ->], (Hall hi Hhi) as [-> | ->]; try done.
  - specialize (Hmax _ H1). lra.
  - specialize (Hmin _ H0). lra.
  - specialize (Hmin _ H0). lra.
Qed.

(** C7.  The forward transform of the 4 x 4 grid whose samples are all 100
    has all of its energy in the DC term, 1600 = 16 x 100, and exactly 0 in
    every other coefficient.  The checkerboard puts the DC term in the
    middle of the array, at the index (2, 2), and there the log-magnitude
    rendering has its one bright pixel: the bytes 255, 255, 255, 255 at the
    pixel (2, 2) and 0, 0, 0, 255 at every other pixel.  (The logarithm
    enters only through being smaller at 0 than at 1600.) *)
Theorem flat_grid_spectrum_and_rendering (log1pAbs : Complex -> Q) :
  log1pAbs czero < log1pAbs (ofReal 1600) ->
  exists spectrum px,
    Kspace.computeSpectrum Exact.fft Exact.flat100 4 4 = JS.Returned spectrum /\
    Kspace.renderKspace log1pAbs spectrum 4 4 = JS.Returned px /\
    forall y x, (y < 4)%nat -> (x < 4)%nat ->
      at2 spectrum y x
        = (if (y =? 2)%nat && (x =? 2)%nat then ofReal 1600 else czero) /\
      forall c, (c < 4)%nat ->
        px !! ((y * 4 + x) * 4 + c)%nat
        = Some (if (c =? 3)%nat then 255%Z
                else if (y =? 2)%nat && (x =? 2)%nat then 255%Z else 0%Z).
Proof.
  intros Hlt. exists flatSpectrum. eexists.
  split; [apply flat100_spectrum|]. split; [reflexivity|].
  intros y x Hy Hx.
  assert (Hat : at2 flatSpectrum y x
                = if (y =? 2)%nat && (x =? 2)%nat then ofReal 1600 else czero).
  { eapply at2_lookup.
    - exact (lookup_map_seq
               (fun y => map (fun x => if (y =? 2)%nat && (x =? 2)%nat
                                       then ofReal 1600 else czero) (seq 0 4)) 4 y Hy).
    - exact (lookup_map_seq
               (fun x => if (y =? 2)%nat && (x =? 2)%nat then ofReal 1600 else czero)
               4 x Hx). }
  split; [exact Hat|].
  intros c Hc. unfold Raster.normalize.
  change (Z.to_nat 4) with 4%nat.
  rewrite (paint_channel _ _ 4 4 y x c Hy Hx Hc).
  rewrite flat_magnitudes_extremes by done.
  destruct (magnitudes_lookup log1pAbs flatSpectrum 4 4 y x Hy Hx) as (row & Hrow & Hv).
  rewrite (at2_lookup _ y x row _ Hrow Hv), Hat.
  destruct (Nat.ltb_spec c 3), (Nat.eqb_spec c 3); try lia; [|done].
  f_equal. destruct ((y =? 2)%nat && (x =? 2)%nat).
  - by apply level_highest.
  - apply level_lowest.
Qed.


Lemma commits_app o1 o2 : commits (o1 ++ o2) = commits o1 ++ commits o2.
Proof.
  induction o1 as [|[c r|k] o1 IH]; simpl; [done | by rewrite IH | done].
Qed.

Section CanvasFacts.
Import KSpaceCanvas CanvasSpec.

Variable Math_sqrt : Q -> Q.
Variable p : Props.
Hypothesis shown : show p = true.
Hypothesis enabled : disabled p = false.
Hypothesis mounted : is_Some (getRect p).

Lemma sameGesture_refl st : sameGesture st st.
Proof. by repeat split. Qed.

Lemma sameGesture_trans st1 st2 st3 :
  sameGesture st1 st2 -> sameGesture st2 st3 -> sameGesture st1 st3.
Proof.
  intros (Hd & Hr & Hrad & Hc) (Hd' & Hr' & Hrad' & Hc').
  repeat split; try congruence.
  - intros H. rewrite Hrad', Hrad; [done | done | congruence].
  - intros H. rewrite Hc', Hc; [done | done | congruence].
Qed.

Lemma moveArgs_sameGesture st st' cx cy :
  sameGesture st st' -> moveArgs Math_sqrt p st' cx cy = moveArgs Math_sqrt p st cx cy.
Proof.
  intros (Hd & Hr & Hrad & Hc). unfold moveArgs, currentRadius, effCenter.
  destruct (getRect p) as [rc|]; [|done]. rewrite Hd, Hr.
  destruct (dragging st) eqn:E.
  - by rewrite Hrad.
  - by rewrite Hc.
Qed.

Lemma active_sameGesture st st' : sameGesture st st' -> active p st -> active p st'.
Proof.
  intros (Hd & Hr & Hrad & Hc) [H | [H1 H2]].
  - left. congruence.
  - destruct (dragging st) eqn:E; [left; congruence|].
    right. split; [congruence|]. unfold effCenter in *. by rewrite Hc.
Qed.

(** A move during a gesture records its arguments and re-arms the timeout;
    it calls [onMove] itself in no case. *)
Lemma onPointerMove_active st now cx cy :
  active p st ->
  exists st' out args,
    onPointerMove Math_sqrt p now cx cy st = (st', out) /\
    moveArgs Math_sqrt p st cx cy = Some args /\
    commits out = [] /\ sameGesture st st' /\
    timerRef st' = Some (dueAt now (debounceMs p)) /\
    lastArgsRef st' = Some args.
Proof.
  intros Hact. unfold onPointerMove, moveArgs, scheduleDebouncedRecon.
  rewrite shown, enabled. simpl.
  destruct mounted as [rc Hrc]. rewrite Hrc.
  destruct (dragging st) eqn:Hd.
  - eexists _, _, _. split; [reflexivity|]. split; [reflexivity|].
    split; [done|]. split; [|done].
    repeat split; simpl; congruence.
  - destruct Hact as [? | [Hr [eff Heff]]]; [congruence|].
    rewrite Hr, Heff.
    eexists _, _, _. split; [reflexivity|]. split; [reflexivity|].
    split; [done|]. split; [|done].
    repeat split; simpl; congruence.
Qed.

Lemma onPointerMove_never_commits st now cx cy :
  commits (snd (onPointerMove Math_sqrt p now cx cy st)) = [].
Proof.
  unfold onPointerMove.
  destruct (negb (show p) || disabled p); [done|].
  destruct (getRect p); [|done].
  destruct (dragging st); [done|].
  destruct (resizing st); [|done].
  by destruct (effCenter p st).
Qed.

Lemma run_moves moves : forall st,
  active p st -> notDue st moves -> rapid (debounceMs p) (map fst moves) ->
  exists st' out,
    run Math_sqrt p st (moveEvents moves) = (st', out) /\
    commits out = [] /\ sameGesture st st' /\
    timerRef st' = lastDue p moves (timerRef st) /\
    lastArgsRef st' = lastArgs Math_sqrt p st moves (lastArgsRef st).
Proof.
  induction moves as [|[t [cx cy]] moves IH]; intros st Hact Hdue Hrapid.
  - exists st, []. simpl. repeat split; done.
  - simpl in Hrapid. destruct Hrapid as [Hgap Hrapid].
    assert (Htick : tick t st = (st, [])).
    { unfold tick. unfold notDue in Hdue. simpl in Hdue.
      destruct (timerRef st) as [due|]; [|done].
      destruct (Z.leb_spec due t); [lia | done]. }
    destruct (onPointerMove_active st t cx cy Hact)
      as (st1 & out1 & args & Hmove & Hargs & Hc1 & Hsame & Htimer & Hlast).
    destruct (IH st1) as (st2 & out2 & Hrun & Hc2 & Hsame2 & Htimer2 & Hlast2).
    { by eapply active_sameGesture. }
    { unfold notDue. rewrite Htimer. destruct moves as [|[t2 xy2] moves]; [done|].
      simpl in *. unfold dueAt. lia. }
    { done. }
    exists st2, (out1 ++ out2). simpl. rewrite Htick. simpl. rewrite Hmove, Hrun. simpl.
    split; [done|]. split; [by rewrite commits_app, Hc1, Hc2|].
    split; [by eapply sameGesture_trans|].
    split.
    + rewrite Htimer2, Htimer. done.
    + rewrite Hlast2, Hlast. unfold lastArgs. simpl. rewrite <- Hargs.
      generalize (moveArgs Math_sqrt p st cx cy) as a.
      clear IH Hrun Hrapid Hgap Hdue Htimer2 Hlast2.
      induction moves as [|m moves IHm]; intros a; simpl; [done|].
      rewrite (moveArgs_sameGesture st st1) by done. apply IHm.
Qed.


End CanvasFacts.




(** ** The overlay inside the application *)


Section MountedFacts.
Import Mounted MountedSpec.

Variable Math_sqrt : Q -> Q.
Variable rc : Rect.t.
Variables rows cols : Z.








End MountedFacts.



(** * Further properties of the code *)

(** ** Loading an image and the pipeline *)

Section RoundFacts.

Lemma Math_round_inject z : JS.Math_round (inject_Z z) = z.
Proof.
  unfold JS.Math_round. 
  assert (H1 : inject_Z z <= inject_Z z + (1 # 2)) by lra.
  assert (H2 : inject_Z z + (1 # 2) < inject_Z (z + 1)).
  { rewrite inject_Z_plus. change (inject_Z 1) with 1. lra. }
  pose proof (Qfloor_le (inject_Z z + (1 # 2))) as H3.
  pose proof (Qlt_floor (inject_Z z + (1 # 2))) as H4.
  assert (inject_Z (Qfloor (inject_Z z + (1 # 2))) < inject_Z (z + 1)) by lra.
  assert (inject_Z z < inject_Z (Qfloor (inject_Z z + (1 # 2)) + 1)) by lra.
  rewrite <- Zlt_Qlt in *. lia.
Qed.

Lemma Math_round_mono a b : a <= b -> (JS.Math_round a <= JS.Math_round b)%Z.
Proof. intros H. unfold JS.Math_round. apply Qfloor_resp_le. lra. Qed.

Lemma Math_round_near q :
  inject_Z (JS.Math_round q) <= q + (1 # 2) /\ q - (1 # 2) < inject_Z (JS.Math_round q).
Proof.
  unfold JS.Math_round.
  pose proof (Qfloor_le (q + (1 # 2))) as H3.
  pose proof (Qlt_floor (q + (1 # 2))) as H4.
  rewrite inject_Z_plus in H4. change (inject_Z 1) with 1 in H4. split; lra.
Qed.

Lemma Qdiv_Z_le a b c :
  (0 < b)%Z -> (a <= c * b)%Z -> inject_Z a / inject_Z b <= inject_Z c.
Proof.
  intros Hb H. apply Qle_shift_div_r.
  - change 0 with (inject_Z 0). by rewrite <- Zlt_Qlt.
  - rewrite <- inject_Z_mult. by rewrite <- Zle_Qle.
Qed.

Lemma Qdiv_Z_nonneg a b : (0 < b)%Z -> (0 <= a)%Z -> 0 <= inject_Z a / inject_Z b.
Proof.
  intros Hb H. apply Qle_shift_div_l.
  - change 0 with (inject_Z 0). by rewrite <- Zlt_Qlt.
  - rewrite Qmult_0_l. change 0 with (inject_Z 0). by rewrite <- Zle_Qle.
Qed.

Lemma round_scaled a b lim :
  (0 <= a)%Z -> (0 < b)%Z -> (0 <= lim)%Z -> (a <= b)%Z -> (lim <= b)%Z ->
  let r := JS.Math_round (inject_Z (a * lim) / inject_Z b) in
  (0 <= r <= a)%Z /\ (r <= lim)%Z /\ (Z.abs (2 * (r * b - a * lim)) <= b)%Z.
Proof.
  intros Ha Hb Hl Hab Hlb r.
  set (q := inject_Z (a * lim) / inject_Z b) in *.
  assert (H0 : 0 <= q) by (apply Qdiv_Z_nonneg; nia).
  assert (H1 : q <= inject_Z a) by (apply Qdiv_Z_le; nia).
  assert (H2 : q <= inject_Z lim) by (apply Qdiv_Z_le; nia).
  split; [split|split].
  - rewrite <- (Math_round_inject 0). by apply Math_round_mono.
  - rewrite <- (Math_round_inject a). by apply Math_round_mono.
  - rewrite <- (Math_round_inject lim). by apply Math_round_mono.
  - destruct (Math_round_near q) as [Hu Hd]. fold r in Hu, Hd.
    assert (Hq : q * inject_Z b == inject_Z (a * lim)).
    { unfold q. field. change 0 with (inject_Z 0). rewrite inject_Z_injective. lia. }
    assert (Hbq : 0 < inject_Z b).
    { change 0 with (inject_Z 0). by rewrite <- Zlt_Qlt. }
    assert (Hu' : inject_Z (2 * r * b) <= inject_Z (2 * (a * lim) + b)).
    { rewrite !inject_Z_mult, inject_Z_plus, !inject_Z_mult.
      rewrite inject_Z_mult in Hq. change (inject_Z 2) with 2. nra. }
    assert (Hd' : inject_Z (2 * (a * lim)) < inject_Z (2 * r * b + b)).
    { rewrite inject_Z_plus, !inject_Z_mult.
      rewrite inject_Z_mult in Hq. change (inject_Z 2) with 2. nra. }
    rewrite <- Zle_Qle in Hu'. rewrite <- Zlt_Qlt in Hd'. lia.
Qed.

End RoundFacts.

Lemma scaledSize_bounds_aux width height maxDim :
  (0 <= width)%Z -> (0 <= height)%Z -> (0 <= maxDim)%Z ->
  (0 <= fst (Loading.scaledSize width height maxDim) <= Z.min width maxDim)%Z /\
  (0 <= snd (Loading.scaledSize width height maxDim) <= Z.min height maxDim)%Z.
Proof.
  intros Hw Hh Hm. unfold Loading.scaledSize.
  destruct (Z.gtb_spec width height) as [Hgt | Hle].
  - destruct (Z.gtb_spec width maxDim) as [Hbig | Hsmall]; simpl.
    + destruct (round_scaled height width maxDim) as ([H1 H2] & H3 & H4); lia.
    + lia.
  - destruct (Z.gtb_spec height maxDim) as [Hbig | Hsmall]; simpl.
    + destruct (round_scaled width height maxDim) as ([H1 H2] & H3 & H4); lia.
    + lia.
Qed.

(** X1.  The canvas on which [loadAndGrayscale] draws is never larger than the
    image: each side lies between 0 and the side of the image, the longer
    side is the smaller of [maxDim] and the longer side of the image, and the
    proportions are kept up to the rounding of the other side (the cross
    products differ by at most half the longer side of the image). *)
Theorem scaledSize_bounds width height maxDim :
  (0 <= width)%Z -> (0 <= height)%Z -> (0 <= maxDim)%Z ->
  let w := fst (Loading.scaledSize width height maxDim) in
  let h := snd (Loading.scaledSize width height maxDim) in
  (0 <= w <= width)%Z /\ (0 <= h <= height)%Z /\
  Z.max w h = Z.min maxDim (Z.max width height) /\
  (Z.abs (2 * (w * height - width * h)) <= Z.max width height)%Z.
Proof.
  intros Hw Hh Hm. unfold Loading.scaledSize.
  destruct (Z.gtb_spec width height) as [Hgt | Hle].
  - destruct (Z.gtb_spec width maxDim) as [Hbig | Hsmall]; simpl.
    + destruct (round_scaled height width maxDim) as ([H1 H2] & H3 & H4); lia.
    + repeat split; lia.
  - destruct (Z.gtb_spec height maxDim) as [Hbig | Hsmall]; simpl.
    + destruct (round_scaled width height maxDim) as ([H1 H2] & H3 & H4); lia.
    + repeat split; lia.
Qed.

Section LoadingFacts.

Lemma Math_round_small q : 0 <= q -> q < 1 # 2 -> JS.Math_round q = 0%Z.
Proof.
  intros H0 H1.
  pose proof (Math_round_mono 0 q H0) as Hlo. change (JS.Math_round 0) with 0%Z in Hlo.
  destruct (Math_round_near q) as [Hu _].
  assert (inject_Z (JS.Math_round q) < inject_Z 1) by (change (inject_Z 1) with 1; lra).
  rewrite <- Zlt_Qlt in *. lia.
Qed.

Lemma Qdiv_Z_small a b :
  (0 <= a)%Z -> (2 * a < b)%Z -> JS.Math_round (inject_Z a / inject_Z b) = 0%Z.
Proof.
  intros Ha Hb. apply Math_round_small.
  - apply Qdiv_Z_nonneg; lia.
  - apply Qlt_shift_div_r.
    + change 0 with (inject_Z 0). rewrite <- Zlt_Qlt. lia.
    + assert (inject_Z (2 * a) < inject_Z b) by (rewrite <- Zlt_Qlt; lia).
      rewrite inject_Z_mult in H. change (inject_Z 2) with 2 in H. lra.
Qed.

Lemma byte_total (data : list Z) i :
  Forall (fun b => (0 <= b <= 255)%Z) data -> (0 <= data !!! i <= 255)%Z.
Proof.
  intros H. destruct (data !! i) as [b|] eqn:E.
  - rewrite (list_lookup_total_correct _ _ _ E).
    rewrite Forall_forall in H. apply H. by eapply list_elem_of_lookup_2.
  - rewrite list_lookup_total_alt, E. simpl. lia.
Qed.

Lemma luma_range data i :
  Forall (fun b => (0 <= b <= 255)%Z) data ->
  0 <= Loading.luma data i /\ Loading.luma data i <= 255.
Proof.
  intros H. unfold Loading.luma.
  pose proof (byte_total data i H) as [H1 H2].
  pose proof (byte_total data (i + 1) H) as [H3 H4].
  pose proof (byte_total data (i + 2) H) as [H5 H6].
  rewrite Zle_Qle in H1, H2, H3, H4, H5, H6.
  change (inject_Z 0) with 0 in *. change (inject_Z 255) with 255 in *.
  split; lra.
Qed.

End LoadingFacts.

(** X2.  When the browser hands back four bytes in [0, 255] for every pixel,
    [loadAndGrayscale] either returns a grid of the scaled size, with sides
    between 1 and [maxDim], rows of equal length and samples in [0, 255], or
    throws IndexSizeError because a side of the scaled canvas is zero. *)
Theorem loadAndGrayscale_result getImageData width height maxDim :
  (0 <= width)%Z -> (0 <= height)%Z -> (0 <= maxDim)%Z ->
  canvasBytes getImageData ->
  match Loading.loadAndGrayscale getImageData width height maxDim with
  | JS.Returned img =>
      (Loading.cols img, Loading.rows img) = Loading.scaledSize width height maxDim /\
      (0 < Loading.rows img <= maxDim)%Z /\ (0 < Loading.cols img <= maxDim)%Z /\
      sampleGrid (Loading.gray img) (Loading.rows img) (Loading.cols img) /\
      Forall (Forall (fun v => 0 <= v /\ v <= 255)) (Loading.gray img)
  | JS.Thrown e =>
      e = JS.IndexSizeError /\
      (fst (Loading.scaledSize width height maxDim) = 0%Z \/
       snd (Loading.scaledSize width height maxDim) = 0%Z)
  end.
Proof.
  intros Hw Hh Hm Hbytes.
  pose proof (scaledSize_bounds_aux width height maxDim Hw Hh Hm) as (Hbw & Hbh).
  unfold Loading.loadAndGrayscale.
  destruct (Loading.scaledSize width height maxDim) as [w h] eqn:E. simpl in *.
  destruct (Z.eqb_spec w 0) as [-> | Hw0]; simpl; [split; [done | by left]|].
  destruct (Z.eqb_spec h 0) as [-> | Hh0]; simpl; [split; [done | by right]|].
  split; [done|]. split; [lia|]. split; [lia|].
  destruct (Hbytes w h) as [_ Hrange]; [lia | lia |].
  split; [split|].
  - rewrite length_map, length_seq. lia.
  - apply Forall_forall. intros row Hrow.
    apply list_elem_of_In, in_map_iff in Hrow as (y & <- & _).
    rewrite length_map, length_seq. lia.
  - apply Forall_forall. intros row Hrow.
    apply list_elem_of_In, in_map_iff in Hrow as (y & <- & _).
    apply Forall_forall. intros v Hv.
    apply list_elem_of_In, in_map_iff in Hv as (x & <- & _).
    by apply luma_range.
Qed.

(** X3.  An image with a side above [maxDim] whose longer side is more than
    [2 * maxDim] times the shorter one is scaled to a canvas with a side of
    zero pixels: [loadAndGrayscale] throws and returns no image. *)
Theorem elongated_image_fails getImageData width height maxDim :
  (0 <= width)%Z -> (0 <= height)%Z -> (0 <= maxDim)%Z ->
  (maxDim < Z.max width height)%Z ->
  (2 * Z.min width height * maxDim < Z.max width height)%Z ->
  Loading.loadAndGrayscale getImageData width height maxDim
  = JS.Thrown JS.IndexSizeError.
Proof.
  intros Hw Hh Hm Hbig Hthin.
  unfold Loading.loadAndGrayscale, Loading.scaledSize.
  destruct (Z.gtb_spec width height) as [Hgt | Hle].
  - rewrite Z.min_r, Z.max_l in Hthin by lia.
    destruct (Z.gtb_spec width maxDim) as [_ | ?]; [|lia].
    rewrite Qdiv_Z_small by nia. by rewrite orb_true_r.
  - rewrite Z.min_l, Z.max_r in Hthin by lia.
    destruct (Z.gtb_spec height maxDim) as [_ | ?]; [|lia].
    rewrite Qdiv_Z_small by nia. done.
Qed.

Section PipelineFacts.

Lemma computeSpectrum_returns fft gray rows cols :
  (0 < rows)%Z -> (0 < cols)%Z -> sampleGrid gray rows cols ->
  returnsOn fft rows -> returnsOn fft cols ->
  exists spectrum,
    Kspace.computeSpectrum fft gray rows cols = JS.Returned spectrum /\
    hasShape spectrum rows cols.
Proof.
  intros Hr Hc [Hlen Hrows] Hfr Hfc.
  unfold Kspace.computeSpectrum, JS.newArray.
  destruct (Z.ltb_spec rows 0); [lia|]. simpl.
  destruct (collect_map_exists
              (fun y => match gray !! y with
                        | Some row => fft (Kspace.centered y row)
                        | None => JS.Thrown JS.TypeError
                        end) (seq 0 (Z.to_nat rows))) as [spectrum Hs].
  { intros y Hy. apply elem_of_seq in Hy.
    destruct (lookup_lt_is_Some_2 gray y) as [row Hrow]; [lia|].
    rewrite Hrow.
    destruct (Hfc (Kspace.centered y row)) as (l' & Hl' & _); [|eauto].
    unfold Kspace.centered. rewrite length_imap.
    rewrite Forall_forall in Hrows. apply Hrows.
    by apply list_elem_of_lookup_2 in Hrow. }
  rewrite Hs. simpl.
  assert (Ha : allocRows (Z.to_nat rows) cols = JS.Returned (Z.to_nat cols)).
  { unfold allocRows, JS.newArray. destruct (Z.to_nat rows) eqn:E; [lia|].
    destruct (Z.ltb_spec cols 0); [lia | done]. }
  rewrite Ha. simpl.
  destruct (collect_map_exists
              (fun x => fft (column spectrum (Z.to_nat rows) x))
              (seq 0 (Z.to_nat cols))) as [colFfts Hcs].
  { intros x _. destruct (Hfr (column spectrum (Z.to_nat rows) x)) as (l' & Hl' & _);
      [|eauto].
    unfold column. rewrite length_map, length_seq. lia. }
  rewrite Hcs. simpl. eexists. split; [done|].
  destruct (scatter_shape colFfts (Z.to_nat rows) (Z.to_nat cols)) as [Hn Hm].
  split; [rewrite Hn; lia|].
  eapply Forall_impl; [exact Hm|]. intros row ->. lia.
Qed.

Lemma alloc_positive rows cols :
  (0 < rows)%Z -> (0 < cols)%Z ->
  JS.newArray rows = JS.Returned (Z.to_nat rows) /\
  allocRows (Z.to_nat rows) cols = JS.Returned (Z.to_nat cols) /\
  createImageData (Z.to_nat cols) (Z.to_nat rows) = JS.Returned tt.
Proof.
  intros Hr Hc. unfold allocRows, JS.newArray, createImageData.
  destruct (Z.ltb_spec rows 0); [lia|]. destruct (Z.ltb_spec cols 0); [lia|].
  destruct (Z.to_nat rows) eqn:E1; [lia|]. destruct (Z.to_nat cols) eqn:E2; [lia|]. done.
Qed.

Lemma renderKspace_positive log1pAbs spectrumCols rows cols :
  (0 < rows)%Z -> (0 < cols)%Z ->
  Kspace.renderKspace log1pAbs spectrumCols rows cols
  = JS.Returned (Raster.normalize
                   (Kspace.magnitudes log1pAbs spectrumCols (Z.to_nat rows) (Z.to_nat cols))
                   (Z.to_nat rows) (Z.to_nat cols)).
Proof.
  intros Hr Hc. destruct (alloc_positive rows cols Hr Hc) as (H1 & H2 & H3).
  unfold Kspace.renderKspace. rewrite H1. simpl. rewrite H2. simpl. by rewrite H3.
Qed.

Lemma reconSamples_returns ifft spectrumCols rows cols :
  (0 <= rows)%Z -> (0 <= cols)%Z ->
  returnsOn ifft rows -> returnsOn ifft cols ->
  exists recon,
    Kspace.reconSamples ifft spectrumCols (Z.to_nat rows) (Z.to_nat cols)
    = JS.Returned recon.
Proof.
  intros Hr Hc Hir Hic. unfold Kspace.reconSamples.
  destruct (collect_map_exists
              (fun x => ifft (column spectrumCols (Z.to_nat rows) x))
              (seq 0 (Z.to_nat cols))) as [colIffts Hcs].
  { intros x _. destruct (Hir (column spectrumCols (Z.to_nat rows) x)) as (l' & Hl' & _);
      [|eauto].
    unfold column. rewrite length_map, length_seq. lia. }
  rewrite Hcs. simpl.
  apply collect_map_exists. intros y Hy. apply elem_of_seq in Hy.
  destruct (Hic (scatter colIffts (Z.to_nat rows) (Z.to_nat cols) !!! y)) as (l' & Hl' & _).
  { rewrite scatter_row by lia. rewrite length_map, length_seq. lia. }
  rewrite Hl'. simpl. eauto.
Qed.

Lemma renderReconFromSpectrum_returns ifft spectrumCols rows cols :
  (0 < rows)%Z -> (0 < cols)%Z ->
  returnsOn ifft rows -> returnsOn ifft cols ->
  exists px,
    Kspace.renderReconFromSpectrum ifft spectrumCols rows cols = JS.Returned px /\
    opaqueGray px rows cols.
Proof.
  intros Hr Hc Hir Hic. destruct (alloc_positive rows cols Hr Hc) as (H1 & H2 & H3).
  destruct (reconSamples_returns ifft spectrumCols rows cols) as [recon Hrecon];
    [lia | lia | done | done |].
  unfold Kspace.renderReconFromSpectrum.
  rewrite H1. simpl. rewrite H2. simpl. rewrite Hrecon. simpl. rewrite H3. simpl.
  eexists. split; [done|]. apply normalize_opaqueGray; lia.
Qed.

Lemma loadAndGrayscale_inv getImageData width height maxDim img :
  Loading.loadAndGrayscale getImageData width height maxDim = JS.Returned img ->
  (0 <= width)%Z -> (0 <= height)%Z -> (0 <= maxDim)%Z ->
  (0 < Loading.rows img)%Z /\ (0 < Loading.cols img)%Z /\
  sampleGrid (Loading.gray img) (Loading.rows img) (Loading.cols img).
Proof.
  intros H Hw Hh Hm.
  pose proof (scaledSize_bounds_aux width height maxDim Hw Hh Hm) as (Hbw & Hbh).
  unfold Loading.loadAndGrayscale in H.
  destruct (Loading.scaledSize width height maxDim) as [w h] eqn:E. simpl in *.
  destruct (Z.eqb_spec w 0) as [-> | Hw0]; simpl in H; [discriminate|].
  destruct (Z.eqb_spec h 0) as [-> | Hh0]; simpl in H; [discriminate|].
  injection H as <-. simpl. split; [lia|]. split; [lia|]. split.
  - rewrite length_map, length_seq. lia.
  - apply Forall_forall. intros row Hrow.
    apply list_elem_of_In, in_map_iff in Hrow as (y & <- & _).
    rewrite length_map, length_seq. lia.
Qed.

End PipelineFacts.

(** X4.  [renderKspace], given a spectrum of [rows] rows of [cols]
    coefficients with both dimensions positive and below 2^32, returns an
    opaque grey image of [rows * cols] pixels; it throws RangeError when
    [rows] is negative, or [rows] is positive and [cols] negative; it throws
    IndexSizeError when [rows] is zero, or [rows] is positive and below 2^32
    and [cols] is zero. *)
Theorem renderKspace_outcome log1pAbs spectrumCols rows cols :
  ((0 < rows < 2 ^ 32)%Z -> (0 < cols < 2 ^ 32)%Z ->
   hasShape spectrumCols rows cols ->
     exists px, Kspace.renderKspace log1pAbs spectrumCols rows cols = JS.Returned px /\
                opaqueGray px rows cols) /\
  ((rows < 0)%Z \/ ((0 < rows)%Z /\ (cols < 0)%Z) ->
     Kspace.renderKspace log1pAbs spectrumCols rows cols = JS.Thrown JS.RangeError) /\
  (rows = 0%Z \/ ((0 < rows < 2 ^ 32)%Z /\ cols = 0%Z) ->
     Kspace.renderKspace log1pAbs spectrumCols rows cols = JS.Thrown JS.IndexSizeError).
Proof.
  split; [|split].
  - intros Hr Hc _. rewrite renderKspace_positive by lia.
    eexists. split; [done|]. apply normalize_opaqueGray; lia.
  - unfold Kspace.renderKspace, JS.newArray, allocRows.
    intros [Hr | [Hr Hc]].
    + destruct (Z.ltb_spec rows 0); [done | lia].
    + destruct (Z.ltb_spec rows 0); [lia|]. simpl.
      destruct (Z.to_nat rows) eqn:E; [lia|]. unfold JS.newArray.
      destruct (Z.ltb_spec cols 0); [done | lia].
  - unfold Kspace.renderKspace, JS.newArray, allocRows.
    intros [-> | [Hr ->]]; simpl.
    + by destruct (Z.to_nat cols).
    + destruct (Z.ltb_spec rows 0); [lia|]. simpl.
      destruct (Z.to_nat rows) eqn:E; [lia|]. done.
Qed.

Lemma pipeline_returns
  getImageData fft ifft log1pAbs width height maxDim img :
  (0 <= width)%Z -> (0 <= height)%Z -> (0 <= maxDim)%Z ->
  Loading.loadAndGrayscale getImageData width height maxDim = JS.Returned img ->
  returnsOn fft (Loading.rows img) -> returnsOn fft (Loading.cols img) ->
  returnsOn ifft (Loading.rows img) -> returnsOn ifft (Loading.cols img) ->
  exists out,
    Loading.computeSpectrumAndRecon getImageData fft ifft log1pAbs width height maxDim
    = JS.Returned out /\
    Loading.outRows out = Loading.rows img /\ Loading.outCols out = Loading.cols img /\
    hasShape (Loading.spectrum out) (Loading.rows img) (Loading.cols img) /\
    opaqueGray (Loading.kspaceUrl out) (Loading.rows img) (Loading.cols img) /\
    opaqueGray (Loading.reconUrl out) (Loading.rows img) (Loading.cols img).
Proof.
  intros Hw Hh Hm Himg Hfr Hfc Hir Hic.
  destruct (loadAndGrayscale_inv _ _ _ _ _ Himg Hw Hh Hm) as (Hr & Hc & Hgrid).
  destruct (computeSpectrum_returns fft _ _ _ Hr Hc Hgrid Hfr Hfc) as (spec & Hspec & Hshape).
  destruct (renderReconFromSpectrum_returns ifft spec _ _ Hr Hc Hir Hic) as (rpx & Hrpx & Hgray).
  unfold Loading.computeSpectrumAndRecon. rewrite Himg. simpl. rewrite Hspec. simpl.
  rewrite renderKspace_positive by done. simpl. rewrite Hrpx. simpl.
  eexists. split; [done|]. simpl. repeat split; try done.
  - apply Hshape.
  - apply Hshape.
  - apply normalize_opaqueGray; lia.
  - apply normalize_opaqueGray; lia.
  - apply Hgray.
  - apply Hgray.
Qed.

(** X5.  Once [loadAndGrayscale] has returned an image, and the transforms
    return on arrays of its two lengths, [computeSpectrumAndRecon] returns:
    the dimensions of the image, a spectrum of that shape, and two opaque
    grey images of that size. *)
Theorem computeSpectrumAndRecon_returns
  getImageData fft ifft log1pAbs width height maxDim img :
  (0 <= width)%Z -> (0 <= height)%Z -> (0 <= maxDim)%Z ->
  Loading.loadAndGrayscale getImageData width height maxDim = JS.Returned img ->
  returnsOn fft (Loading.rows img) -> returnsOn fft (Loading.cols img) ->
  returnsOn ifft (Loading.rows img) -> returnsOn ifft (Loading.cols img) ->
  exists out,
    Loading.computeSpectrumAndRecon getImageData fft ifft log1pAbs width height maxDim
    = JS.Returned out /\
    Loading.outRows out = Loading.rows img /\ Loading.outCols out = Loading.cols img /\
    hasShape (Loading.spectrum out) (Loading.rows img) (Loading.cols img) /\
    opaqueGray (Loading.kspaceUrl out) (Loading.rows img) (Loading.cols img) /\
    opaqueGray (Loading.reconUrl out) (Loading.rows img) (Loading.cols img).
Proof. apply pipeline_returns. Qed.

(** ** Masks that keep everything, or one coefficient *)

Section MaskExtras.

Lemma reconSamples_ext ifft S S' n m :
  (forall y x, (y < n)%nat -> (x < m)%nat -> at2 S y x = at2 S' y x) ->
  Kspace.reconSamples ifft S n m = Kspace.reconSamples ifft S' n m.
Proof.
  intros H. unfold Kspace.reconSamples. f_equal.
  apply collect_map_seq_ext. intros x Hx. f_equal.
  unfold column. apply map_seq_ext. intros y Hy. by apply H.
Qed.

Lemma renderReconFromSpectrum_ext ifft S S' rows cols :
  (forall y x, (y < Z.to_nat rows)%nat -> (x < Z.to_nat cols)%nat ->
     at2 S y x = at2 S' y x) ->
  Kspace.renderReconFromSpectrum ifft S rows cols
  = Kspace.renderReconFromSpectrum ifft S' rows cols.
Proof.
  intros H. unfold Kspace.renderReconFromSpectrum.
  destruct (JS.newArray rows) as [n|e] eqn:Hn; simpl; [|done].
  destruct (allocRows n cols) as [m|e] eqn:Hm; simpl; [|done].
  apply newArray_inv in Hn as [_ ->]. apply allocRows_inv in Hm as [-> _].
  by rewrite (reconSamples_ext ifft S S').
Qed.

Lemma inDisc_zero cx cy x y :
  inDisc cx cy 0 x y <-> inject_Z (Z.of_nat x) == cx /\ inject_Z (Z.of_nat y) == cy.
Proof.
  unfold inDisc, Qpower, Qpower_positive, pow_pos. simpl.
  set (a := inject_Z (Z.of_nat x) - cx). set (b := inject_Z (Z.of_nat y) - cy).
  split.
  - intros H.
    assert (Ha : a == 0) by nra. assert (Hb : b == 0) by nra.
    unfold a, b in *. split; lra.
  - intros [Hx Hy]. assert (Ha : a == 0) by (unfold a; lra).
    assert (Hb : b == 0) by (unfold b; lra). rewrite Ha, Hb. lra.
Qed.

Lemma grid_in_large_disc cx cy radius rows cols :
  0 <= cx -> cx <= inject_Z cols -> 0 <= cy -> cy <= inject_Z rows ->
  inject_Z rows + inject_Z cols <= radius ->
  coversGrid cx cy radius (Z.to_nat rows) (Z.to_nat cols).
Proof.
  intros Hx0 Hx1 Hy0 Hy1 Hr x y Hx Hy.
  unfold inDisc, Qpower, Qpower_positive, pow_pos. simpl.
  assert (Hx' : 0 <= inject_Z (Z.of_nat x) /\ inject_Z (Z.of_nat x) <= inject_Z cols).
  { change 0 with (inject_Z 0). rewrite <- !Zle_Qle. lia. }
  assert (Hy' : 0 <= inject_Z (Z.of_nat y) /\ inject_Z (Z.of_nat y) <= inject_Z rows).
  { change 0 with (inject_Z 0). rewrite <- !Zle_Qle. lia. }
  set (a := inject_Z (Z.of_nat x)) in *. set (b := inject_Z (Z.of_nat y)) in *.
  set (c := inject_Z cols) in *. set (r := inject_Z rows) in *.
  assert (H1 : (a - cx) * (a - cx) <= c * c) by nra.
  assert (H2 : (b - cy) * (b - cy) <= r * r) by nra.
  assert (H3 : (r + c) * (r + c) <= radius * radius) by nra.
  nra.
Qed.

End MaskExtras.

Lemma full_mask_eq ifft spectrum rows cols cx cy radius :
  coversGrid cx cy radius (Z.to_nat rows) (Z.to_nat cols) ->
  Kspace.renderReconFromCircle ifft spectrum rows cols cx cy radius
  = Kspace.renderReconFromSpectrum ifft spectrum rows cols.
Proof.
  intros Hall.
  assert (E : Kspace.renderReconFromCircle ifft spectrum rows cols cx cy radius
              = Kspace.renderReconFromSpectrum ifft
                  (Kspace.masked spectrum (Z.to_nat rows) (Z.to_nat cols) cx cy radius)
                  rows cols).
  { unfold Kspace.renderReconFromCircle, Kspace.renderReconFromSpectrum.
    destruct (JS.newArray rows) as [n|e] eqn:Hn; simpl; [|done].
    destruct (allocRows n cols) as [m|e] eqn:Hm; simpl; [|done].
    apply newArray_inv in Hn as [_ ->]. apply allocRows_inv in Hm as [-> _]. done. }
  rewrite E. apply renderReconFromSpectrum_ext. intros y x Hy Hx.
  rewrite masked_at by done.
  destruct (inside cx cy (radius * radius) x y) eqn:Hin; [done|].
  specialize (Hall x y Hx Hy). apply inside_inDisc in Hall. congruence.
Qed.

(** X6.  A mask whose disc contains every position of the grid changes
    nothing: [renderReconFromCircle] is then [renderReconFromSpectrum] of the
    same spectrum.  A radius of at least [rows + cols] around a centre within
    the grid is such a mask. *)
Theorem full_mask_is_unmasked ifft spectrum rows cols cx cy radius :
  (coversGrid cx cy radius (Z.to_nat rows) (Z.to_nat cols) ->
   Kspace.renderReconFromCircle ifft spectrum rows cols cx cy radius
   = Kspace.renderReconFromSpectrum ifft spectrum rows cols) /\
  (0 <= cx -> cx <= inject_Z cols -> 0 <= cy -> cy <= inject_Z rows ->
   inject_Z rows + inject_Z cols <= radius ->
   coversGrid cx cy radius (Z.to_nat rows) (Z.to_nat cols)).
Proof. split; [apply full_mask_eq | apply grid_in_large_disc]. Qed.

(** X7.  The mask of radius 0 keeps the coefficient at the centre itself, when
    the centre is a position of the grid, and replaces every other one by
    zero. *)
Theorem zero_radius_mask spectrum n m cx cy y x :
  (y < n)%nat -> (x < m)%nat ->
  (inject_Z (Z.of_nat x) == cx /\ inject_Z (Z.of_nat y) == cy ->
     at2 (Kspace.masked spectrum n m cx cy 0) y x = at2 spectrum y x) /\
  (~ (inject_Z (Z.of_nat x) == cx /\ inject_Z (Z.of_nat y) == cy) ->
     at2 (Kspace.masked spectrum n m cx cy 0) y x = czero).
Proof.
  intros Hy Hx. rewrite masked_at by done.
  destruct (inside cx cy (0 * 0) x y) eqn:E.
  - split; [done|]. intros H. exfalso. apply H.
    apply inDisc_zero. by apply inside_inDisc.
  - split; [|done]. intros H. apply inDisc_zero, inside_inDisc in H. congruence.
Qed.

(** ** The spectrum handed to the worker *)

Section FlattenFacts.

Variable fround : Q -> Q.
Variable spec : list (list Complex).

(** One plane at a time. *)
Lemma storeCell_fst m y planes xs :
  fst (foldl (Handover.storeCell fround spec m y) planes xs)
  = foldl (fun a x => <[(y * m + x)%nat := fround (re (at2 spec y x))]> a) (fst planes) xs.
Proof. revert planes. induction xs as [|x xs IH]; intros planes; simpl; [done|]. by rewrite IH. Qed.

Lemma storeCell_snd m y planes xs :
  snd (foldl (Handover.storeCell fround spec m y) planes xs)
  = foldl (fun a x => <[(y * m + x)%nat := fround (im (at2 spec y x))]> a) (snd planes) xs.
Proof. revert planes. induction xs as [|x xs IH]; intros planes; simpl; [done|]. by rewrite IH. Qed.

Lemma rows_fst m planes ys :
  fst (foldl (fun planes y => foldl (Handover.storeCell fround spec m y) planes (seq 0 m))
         planes ys)
  = foldl (fun a y => foldl (fun a x => <[(y * m + x)%nat := fround (re (at2 spec y x))]> a)
                            a (seq 0 m)) (fst planes) ys.
Proof.
  revert planes. induction ys as [|y ys IH]; intros planes; simpl; [done|].
  by rewrite IH, storeCell_fst.
Qed.

Lemma rows_snd m planes ys :
  snd (foldl (fun planes y => foldl (Handover.storeCell fround spec m y) planes (seq 0 m))
         planes ys)
  = foldl (fun a y => foldl (fun a x => <[(y * m + x)%nat := fround (im (at2 spec y x))]> a)
                            a (seq 0 m)) (snd planes) ys.
Proof.
  revert planes. induction ys as [|y ys IH]; intros planes; simpl; [done|].
  by rewrite IH, storeCell_snd.
Qed.

End FlattenFacts.

Section StoreFacts.

(** A row of stores into one typed array, [g] giving the value of a cell. *)
Variable g : nat -> nat -> Q.
Variable m : nat.

Lemma storeRow_length y a : length (storeRow g m y a) = length a.
Proof.
  unfold storeRow. generalize (seq 0 m) as xs. intros xs. revert a.
  induction xs as [|x xs IH]; intros a; simpl; [done|].
  by rewrite IH, length_insert.
Qed.

Lemma storeRow_other y a j :
  (j < y * m \/ y * m + m <= j)%nat -> storeRow g m y a !! j = a !! j.
Proof.
  intros Hj. unfold storeRow.
  assert (Hxs : forall x, x ∈ seq 0 m -> (x < m)%nat).
  { intros x Hx. apply elem_of_seq in Hx. lia. }
  revert Hxs. generalize (seq 0 m) as xs. intros xs. revert a.
  induction xs as [|x xs IH]; intros a Hxs; simpl; [done|].
  rewrite IH by (intros; apply Hxs; by right).
  apply list_lookup_insert_ne.
  assert (x < m)%nat by (apply Hxs; by left). lia.
Qed.

Lemma storeRow_cell y a x :
  (x < m)%nat -> (y * m + x < length a)%nat ->
  storeRow g m y a !! (y * m + x)%nat = Some (g y x).
Proof.
  intros Hx Hlen. unfold storeRow.
  assert (Hin : x ∈ seq 0 m) by (apply elem_of_seq; lia).
  assert (Hnd : NoDup (seq 0 m)) by apply NoDup_seq.
  revert Hin Hnd Hlen. generalize (seq 0 m) as xs. intros xs. revert a.
  induction xs as [|b xs IH]; intros a Hin Hnd Hlen; [by apply elem_of_nil in Hin|].
  simpl. apply NoDup_cons in Hnd as [Hb Hnd].
  apply elem_of_cons in Hin as [-> | Hin].
  - clear IH.
    assert (Hrest : forall q : list Q,
      foldl (fun a x => <[(y * m + x)%nat := g y x]> a) q xs !! (y * m + b)%nat
      = q !! (y * m + b)%nat).
    { clear Hnd Hlen. induction xs as [|c xs IH]; intros q; simpl; [done|].
      rewrite IH by (intros Hc; apply Hb; by right).
      apply list_lookup_insert_ne.
      assert (b <> c) by (intros ->; apply Hb; by left). lia. }
    rewrite Hrest. by apply list_lookup_insert_eq.
  - apply IH; [done | done | by rewrite length_insert].
Qed.

Lemma storeRows_prefix n len k :
  (k <= n)%nat -> (n * m <= len)%nat ->
  let a := foldl (fun a y => storeRow g m y a) (replicate len 0) (seq 0 k) in
  length a = len /\
  forall y x, (y < k)%nat -> (x < m)%nat -> a !! (y * m + x)%nat = Some (g y x).
Proof.
  induction k as [|k IH]; intros Hk Hlen.
  - simpl. split; [by rewrite length_replicate | intros; lia].
  - destruct IH as [Hl Ha]; [lia | done |].
    rewrite seq_S, foldl_app. cbn [foldl Nat.add]. split.
    + by rewrite storeRow_length.
    + intros y x Hy Hx.
      destruct (decide (y = k)) as [-> | Hne].
      * apply storeRow_cell; [done|]. rewrite Hl. nia.
      * rewrite storeRow_other by nia. apply Ha; [lia | done].
Qed.

End StoreFacts.

Section HandoverFacts.

Variable fround : Q -> Q.

Lemma flattenSpectrum_inv spec r c planes :
  Handover.flattenSpectrum fround spec r c = JS.Returned planes ->
  let n := Z.to_nat r in
  let m := Z.to_nat c in
  length (fst planes) = Z.to_nat (r * c) /\ length (snd planes) = Z.to_nat (r * c) /\
  forall y x, (y < n)%nat -> (x < m)%nat ->
    fst planes !! (y * m + x)%nat = Some (fround (re (at2 spec y x))) /\
    snd planes !! (y * m + x)%nat = Some (fround (im (at2 spec y x))).
Proof.
  intros H n m. unfold Handover.flattenSpectrum in H. unbind H.
  apply newArray_inv in Ha as [Hrc ->]. injection H as <-.
  fold n m. rewrite rows_fst, rows_snd. simpl.
  assert (Hlen : forall k, (k <= n)%nat -> (0 < m)%nat -> (n * m <= Z.to_nat (r * c))%nat).
  { intros k _ Hm. subst n m. nia. }
  destruct (Nat.eq_dec m 0%nat) as [Hm0 | Hm0].
  { rewrite Hm0. simpl.
    assert (E : forall (a : list Q) (ys : list nat), foldl (fun a _ => a) a ys = a).
    { intros a ys. revert a. induction ys; simpl; auto. }
    rewrite !E, !length_replicate. repeat split; try done; intros; lia. }
  destruct (storeRows_prefix (fun y x => fround (re (at2 spec y x))) m n
              (Z.to_nat (r * c)) n) as [Hl1 Hc1]; [lia | apply (Hlen n); lia |].
  destruct (storeRows_prefix (fun y x => fround (im (at2 spec y x))) m n
              (Z.to_nat (r * c)) n) as [Hl2 Hc2]; [lia | apply (Hlen n); lia |].
  unfold storeRow in *. split; [exact Hl1|]. split; [exact Hl2|].
  intros y x Hy Hx. split; [by apply Hc1 | by apply Hc2].
Qed.

Lemma handover_state ifft spec rows cols msg st :
  Handover.loadMessage fround spec rows cols = JS.Returned msg ->
  let st' := fst (ReconWorker.onmessage ifft st msg) in
  ReconWorker.ROWS st' = rows /\ ReconWorker.COLS st' = cols /\ planesLoaded st' /\
  forall x y, (x < Z.to_nat cols)%nat -> (y < Z.to_nat rows)%nat ->
    ReconWorker.complexAt st' x y = JS.Returned (Handover.stored fround (at2 spec y x)).
Proof.
  intros H. unfold Handover.loadMessage in H. unbind H. injection H as <-.
  destruct (flattenSpectrum_inv _ _ _ _ Ha) as (Hl1 & Hl2 & Hcell).
  simpl. split; [done|]. split; [done|]. split.
  - exists (fst a), (snd a). simpl. rewrite Hl1, Hl2. repeat split; lia.
  - intros x y Hx Hy. destruct (Hcell y x Hy Hx) as [Hre Him].
    unfold ReconWorker.complexAt, ReconWorker.idx, ReconWorker.readAt. simpl.
    destruct (Z.ltb_spec (Z.of_nat y * cols + Z.of_nat x) 0); [nia|].
    replace (Z.to_nat (Z.of_nat y * cols + Z.of_nat x))
      with (y * Z.to_nat cols + x)%nat by nia.
    by rewrite Hre, Him.
Qed.

End HandoverFacts.

(** X10.  The worker answers the message built by [flattenSpectrum] with
    [loaded]; afterwards it holds the dimensions of the spectrum, and
    [complexAt (x, y)] is the coefficient [spec[y][x]] with both parts rounded
    to float32, for every position of the grid. *)
Theorem handover_roundtrip fround ifft spec rows cols msg st :
  hasShape spec rows cols ->
  Handover.loadMessage fround spec rows cols = JS.Returned msg ->
  let st' := fst (ReconWorker.onmessage ifft st msg) in
  snd (ReconWorker.onmessage ifft st msg) = [ReconWorker.loaded] /\
  ReconWorker.ROWS st' = rows /\ ReconWorker.COLS st' = cols /\
  forall x y, (x < Z.to_nat cols)%nat -> (y < Z.to_nat rows)%nat ->
    ReconWorker.complexAt st' x y = JS.Returned (Handover.stored fround (at2 spec y x)).
Proof.
  intros _ H st'.
  destruct (handover_state fround ifft spec rows cols msg st H) as (H1 & H2 & _ & H3).
  split; [|done].
  unfold Handover.loadMessage in H. unbind H. by injection H as <-.
Qed.

Lemma worker_library_eq fround ifft spec rows cols msg st cx cy radius :
  (0 < rows)%Z -> (0 < cols)%Z ->
  Handover.loadMessage fround spec rows cols = JS.Returned msg ->
  ReconWorker.reconFromCircle ifft (fst (ReconWorker.onmessage ifft st msg)) cx cy radius
  = Kspace.renderReconFromCircle ifft
      (roundedSpectrum fround spec (Z.to_nat rows) (Z.to_nat cols))
      rows cols cx cy radius.
Proof.
  intros Hr Hc H.
  destruct (handover_state fround ifft spec rows cols msg st H) as (H1 & H2 & Hpl & H3).
  set (st' := fst (ReconWorker.onmessage ifft st msg)) in *.
  destruct (alloc_positive rows cols Hr Hc) as (Hn & Hm & Hi).
  unfold ReconWorker.reconFromCircle, Kspace.renderReconFromCircle,
    Kspace.renderReconFromSpectrum.
  rewrite H1, H2, Hn. simpl. rewrite Hm. simpl. rewrite Hi.
  rewrite (worker_reconSamples st' ifft cx cy radius (Z.to_nat rows) (Z.to_nat cols));
    [|done | by rewrite H1 | intros; rewrite H2; lia].
  rewrite (reconSamples_ext ifft
             (Kspace.masked (cachedSpectrum st' (Z.to_nat rows) (Z.to_nat cols))
                (Z.to_nat rows) (Z.to_nat cols) cx cy radius)
             (Kspace.masked (roundedSpectrum fround spec (Z.to_nat rows) (Z.to_nat cols))
                (Z.to_nat rows) (Z.to_nat cols) cx cy radius)).
  { by destruct (Kspace.reconSamples _ _ _ _). }
  intros y x Hy Hx. rewrite !masked_at by done.
  destruct (inside cx cy (radius * radius) x y); [|done].
  assert (E1 : ReconWorker.complexAt st' x y
               = JS.Returned (at2 (cachedSpectrum st' (Z.to_nat rows) (Z.to_nat cols)) y x)).
  { apply complexAt_cached; [done | by rewrite H1 | rewrite H2; lia | done | done]. }
  rewrite (H3 x y Hx Hy) in E1. injection E1 as <-.
  unfold roundedSpectrum. symmetry.
  eapply at2_lookup.
  - exact (lookup_map_seq
             (fun y => map (fun x => Handover.stored fround (at2 spec y x))
                           (seq 0 (Z.to_nat cols))) (Z.to_nat rows) y Hy).
  - exact (lookup_map_seq (fun x => Handover.stored fround (at2 spec y x))
             (Z.to_nat cols) x Hx).
Qed.

Lemma worker_after_handover fround ifft spec rows cols msg st cx cy radius :
  (0 < rows)%Z -> (0 < cols)%Z ->
  Handover.loadMessage fround spec rows cols = JS.Returned msg ->
  snd (ReconWorker.run ifft st [msg; ReconWorker.circleRecon cx cy radius])
  = [ReconWorker.loaded;
     match Kspace.renderReconFromCircle ifft
             (roundedSpectrum fround spec (Z.to_nat rows) (Z.to_nat cols))
             rows cols cx cy radius with
     | JS.Returned px => ReconWorker.recon rows cols px
     | JS.Thrown e => ReconWorker.error (ReconWorker.Caught e)
     end].
Proof.
  intros Hr Hc H.
  pose proof (worker_library_eq fround ifft spec rows cols msg st cx cy radius Hr Hc H) as E.
  destruct (handover_state fround ifft spec rows cols msg st H)
    as (H1 & H2 & (pre & pim & Hre & Him & _) & _).
  assert (Hmsg : snd (ReconWorker.onmessage ifft st msg) = [ReconWorker.loaded]).
  { unfold Handover.loadMessage in H. unbind H. by injection H as <-. }
  simpl. destruct (ReconWorker.onmessage ifft st msg) as [st' out1]. simpl in *.
  subst out1.
  unfold ReconWorker.notLoaded. rewrite Hre, Him, H1, H2.
  destruct (Z.eqb_spec rows 0); [lia|]. destruct (Z.eqb_spec cols 0); [lia|]. simpl.
  rewrite E.
  by destruct (Kspace.renderReconFromCircle _ _ _ _ _ _ _).
Qed.

(** X11.  After the handover of a spectrum with positive dimensions, the worker
    answers a [circleRecon] request with the image that
    [renderReconFromCircle] of lib/kspace.ts computes from the spectrum rounded
    to float32, and with the text of its exception when that throws. *)
Theorem worker_matches_library fround ifft spec rows cols msg st cx cy radius :
  (0 < rows)%Z -> (0 < cols)%Z -> hasShape spec rows cols ->
  Handover.loadMessage fround spec rows cols = JS.Returned msg ->
  snd (ReconWorker.run ifft st [msg; ReconWorker.circleRecon cx cy radius])
  = [ReconWorker.loaded;
     match Kspace.renderReconFromCircle ifft
             (roundedSpectrum fround spec (Z.to_nat rows) (Z.to_nat cols))
             rows cols cx cy radius with
     | JS.Returned px => ReconWorker.recon rows cols px
     | JS.Thrown e => ReconWorker.error (ReconWorker.Caught e)
     end].
Proof. intros Hr Hc _. by apply worker_after_handover. Qed.

(** ** Coordinates of the overlays *)

Section GeometryFacts.

Lemma Math_round_comp a b : a == b -> JS.Math_round a = JS.Math_round b.
Proof. intros H. unfold JS.Math_round. apply Qfloor_comp. by rewrite H. Qed.

Lemma Math_max_spec a b :
  a <= JS.Math_max a b /\ b <= JS.Math_max a b /\
  (JS.Math_max a b = a \/ JS.Math_max a b = b).
Proof. unfold JS.Math_max. destruct (Qlt_le_dec a b); repeat split; auto; lra. Qed.

Lemma Math_min_spec a b :
  JS.Math_min a b <= a /\ JS.Math_min a b <= b /\
  (JS.Math_min a b = a \/ JS.Math_min a b = b).
Proof. unfold JS.Math_min. destruct (Qlt_le_dec b a); repeat split; auto; lra. Qed.

Lemma clamp_spec lo hi v :
  let c := JS.Math_max lo (JS.Math_min hi v) in
  lo <= c /\ (lo <= hi -> c <= hi) /\ (lo <= v -> v <= hi -> c == v).
Proof.
  unfold JS.Math_max, JS.Math_min. simpl.
  destruct (Qlt_le_dec v hi) as [H1|H1]; destruct (Qlt_le_dec lo _) as [H2|H2];
    repeat split; intros; try lra; try reflexivity.
Qed.

Lemma naturalRadius_whole rPx sx :
  exists z : Z, (1 <= z)%Z /\ naturalRadius rPx sx = inject_Z z.
Proof.
  unfold naturalRadius, JS.Math_max.
  destruct (Qlt_le_dec 1 (inject_Z (JS.Math_round (rPx * sx)))) as [H|H].
  - exists (JS.Math_round (rPx * sx)). split; [|done].
    change 1 with (inject_Z 1) in H. rewrite <- Zlt_Qlt in H. lia.
  - exists 1%Z. split; [lia | done].
Qed.

End GeometryFacts.

(** X16.  [toNatural] undoes [toDisplay] on points with whole coordinates,
    whenever the element is mounted and none of the four sizes is zero. *)
Theorem toNatural_toDisplay rc w h a b :
  ~ w == 0 -> ~ h == 0 -> ~ Rect.width rc == 0 -> ~ Rect.height rc == 0 ->
  toNatural (Some rc) w h (toDisplay (Some rc) w h (Point.mk (inject_Z a) (inject_Z b)))
  = Point.mk (inject_Z a) (inject_Z b).
Proof.
  intros Hw Hh Hrw Hrh. unfold toNatural, toDisplay. simpl.
  rewrite (Math_round_comp _ (inject_Z a)) by (field; done).
  rewrite (Math_round_comp (_ * _ * _) (inject_Z b)) by (field; done).
  by rewrite !Math_round_inject.
Qed.

(** X17.  [clampDisplay] never returns a coordinate below [r]; when the side
    of the element is at least [2 r] the coordinate is at most the side minus
    [r]; and a coordinate already in that range is left as it is. *)
Theorem clampDisplay_inside rc p r :
  let q := clampDisplay (Some rc) p r in
  (r <= Point.x q /\ r <= Point.y q) /\
  (r <= Rect.width rc - r -> Point.x q <= Rect.width rc - r) /\
  (r <= Rect.height rc - r -> Point.y q <= Rect.height rc - r) /\
  (r <= Point.x p -> Point.x p <= Rect.width rc - r -> Point.x q == Point.x p) /\
  (r <= Point.y p -> Point.y p <= Rect.height rc - r -> Point.y q == Point.y p).
Proof.
  simpl.
  destruct (clamp_spec r (Rect.width rc - r) (Point.x p)) as (H1 & H2 & H3).
  destruct (clamp_spec r (Rect.height rc - r) (Point.y p)) as (H4 & H5 & H6).
  repeat split; assumption.
Qed.

(** X18.  The radius set by a resize is at least 5, is at most the distance of
    the pointer when that is 5 or more, and, when the centre is at least 5
    pixels away from every edge, the circle of that radius lies within the
    element. *)
Theorem clampRadius_bounds rc dc rawR :
  let newR := clampRadius rc dc rawR in
  5 <= newR /\
  (5 <= rawR -> newR <= rawR) /\
  (5 <= Point.x dc -> 5 <= Point.y dc ->
   5 <= Rect.width rc - Point.x dc -> 5 <= Rect.height rc - Point.y dc ->
   0 <= Point.x dc - newR /\ Point.x dc + newR <= Rect.width rc /\
   0 <= Point.y dc - newR /\ Point.y dc + newR <= Rect.height rc).
Proof.
  unfold clampRadius. simpl.
  set (maxR := JS.Math_min (Point.x dc) _).
  assert (Hmax : maxR <= Point.x dc /\ maxR <= Point.y dc /\
                 maxR <= Rect.width rc - Point.x dc /\
                 maxR <= Rect.height rc - Point.y dc /\
                 (5 <= Point.x dc -> 5 <= Point.y dc ->
                  5 <= Rect.width rc - Point.x dc -> 5 <= Rect.height rc - Point.y dc ->
                  5 <= maxR)).
  { subst maxR. unfold JS.Math_min.
    repeat destruct (Qlt_le_dec _ _); repeat split; intros; lra. }
  destruct Hmax as (M1 & M2 & M3 & M4 & M5).
  destruct (Math_min_spec maxR rawR) as (N1 & N2 & N3).
  destruct (Math_max_spec 5 (JS.Math_min maxR rawR)) as (K1 & K2 & K3).
  split; [exact K1|]. split.
  - intros Hraw. destruct K3 as [-> | ->]; [lra | exact N2].
  - intros A1 A2 A3 A4. specialize (M5 A1 A2 A3 A4).
    destruct K3 as [-> | ->]; repeat split; lra.
Qed.

(** ** Runs of the canvas *)

Lemma naturalRadius_wholeRadius rPx sx : wholeRadius (naturalRadius rPx sx).
Proof. apply naturalRadius_whole. Qed.

Section CanvasRuns.
Import KSpaceCanvas CanvasSpec.

Variable Math_sqrt : Q -> Q.
Variable p : Props.

Lemma commitsWhole_app o1 o2 : commitsWhole o1 -> commitsWhole o2 -> commitsWhole (o1 ++ o2).
Proof. unfold commitsWhole. rewrite commits_app. apply Forall_app_2. Qed.

Lemma canvas_tick_whole now st :
  recordedWhole st ->
  recordedWhole (fst (tick now st)) /\ commitsWhole (snd (tick now st)).
Proof.
  intros H. unfold tick. destruct (timerRef st) as [due|]; [|by split; [|constructor]].
  destruct (due <=? now)%Z; [|by split; [|constructor]].
  unfold fire. simpl. split; [exact H|].
  destruct (lastArgsRef st) as [[c r]|] eqn:E; [|constructor].
  constructor; [|constructor]. simpl. by apply (H c r).
Qed.

Lemma canvas_handle_whole now ev st :
  recordedWhole st ->
  recordedWhole (fst (handle Math_sqrt p now ev st)) /\
  commitsWhole (snd (handle Math_sqrt p now ev st)).
Proof.
  intros H. destruct ev as [cx cy | cx cy |]; simpl.
  - split; [|constructor]. unfold onPointerDown.
    destruct (negb (show p) || disabled p); [done|].
    destruct (getRect p); [|done].
    by destruct (hitHandle _ _ _ _).
  - unfold onPointerMove, scheduleDebouncedRecon.
    destruct (negb (show p) || disabled p) eqn:E; [by split; [|constructor]|].
    apply orb_false_iff in E as [_ ->].
    destruct (getRect p); [|by split; [|constructor]].
    destruct (dragging st).
    { split; [|constructor]. intros c r [= <- <-]. apply naturalRadius_wholeRadius. }
    destruct (resizing st); [|by split; [|constructor]].
    destruct (effCenter p st); [|by split; [|constructor]].
    split; [|constructor]. intros c r [= <- <-]. apply naturalRadius_wholeRadius.
  - unfold onPointerUp.
    destruct (disabled p); [by split; [|constructor]|].
    destruct (negb (dragging st) && negb (resizing st)); [by split; [|constructor]|].
    destruct (getRect p); [|by split; [|constructor]].
    destruct (lastNatRef st).
    { split; [done|]. constructor; [|constructor]. apply naturalRadius_wholeRadius. }
    destruct (center p); [|by split; [|constructor]].
    split; [done|]. constructor; [|constructor]. apply naturalRadius_wholeRadius.
Qed.

Lemma canvas_run_whole events : forall st,
  recordedWhole st ->
  recordedWhole (fst (run Math_sqrt p st events)) /\
  commitsWhole (snd (run Math_sqrt p st events)).
Proof.
  induction events as [|[now ev] events IH]; intros st H; simpl.
  - by split; [|constructor].
  - destruct (canvas_tick_whole now st H) as [H1 O1].
    destruct (tick now st) as [st1 out1]. simpl in *.
    destruct (canvas_handle_whole now ev st1 H1) as [H2 O2].
    destruct (handle Math_sqrt p now ev st1) as [st2 out2]. simpl in *.
    destruct (IH st2 H2) as [H3 O3].
    destruct (run Math_sqrt p st2 events) as [st3 out3]. simpl in *.
    split; [done|]. by repeat apply commitsWhole_app.
Qed.

Lemma canvas_runUntil_whole events finish st :
  recordedWhole st -> commitsWhole (snd (runUntil Math_sqrt p st events finish)).
Proof.
  intros H. unfold runUntil.
  destruct (canvas_run_whole events st H) as [H1 O1].
  destruct (run Math_sqrt p st events) as [st1 out1]. simpl in *.
  destruct (canvas_tick_whole finish st1 H1) as [H2 O2].
  destruct (tick finish st1) as [st2 out2]. simpl in *.
  by apply commitsWhole_app.
Qed.

Lemma canvas_run_app l1 l2 st :
  run Math_sqrt p st (l1 ++ l2)
  = let '(st1, out1) := run Math_sqrt p st l1 in
    let '(st2, out2) := run Math_sqrt p st1 l2 in
    (st2, out1 ++ out2).
Proof.
  revert st. induction l1 as [|[now ev] l1 IH]; intros st; simpl.
  - by destruct (run Math_sqrt p st l2).
  - destruct (tick now st) as [st1 out1].
    destruct (handle Math_sqrt p now ev st1) as [st2 out2].
    rewrite IH.
    destruct (run Math_sqrt p st2 l1) as [st3 out3].
    destruct (run Math_sqrt p st3 l2) as [st4 out4].
    by rewrite !app_assoc.
Qed.

Lemma canvas_idle st events :
  show p = false \/ disabled p = true \/ getRect p = None ->
  dragging st = false -> resizing st = false -> timerRef st = None ->
  run Math_sqrt p st events = (st, []).
Proof.
  intros Hoff Hd Hr Ht. induction events as [|[now ev] events IH]; simpl; [done|].
  assert (Htick : tick now st = (st, [])) by (unfold tick; by rewrite Ht).
  rewrite Htick.
  assert (Hev : handle Math_sqrt p now ev st = (st, [])).
  { destruct ev as [cx cy | cx cy |]; simpl.
    - f_equal. unfold onPointerDown.
      destruct Hoff as [-> | [-> | ->]]; simpl; [done | by rewrite orb_true_r |].
      by destruct (negb (show p) || disabled p).
    - unfold onPointerMove.
      destruct Hoff as [-> | [-> | ->]]; simpl; [done | by rewrite orb_true_r |].
      by destruct (negb (show p) || disabled p).
    - unfold onPointerUp. rewrite Hd, Hr. simpl.
      destruct (disabled p); [done|].
      f_equal. destruct st; simpl in *. by subst. }
  rewrite Hev, IH. done.
Qed.

End CanvasRuns.

Section CanvasDrag.
Import KSpaceCanvas CanvasSpec.

Variable Math_sqrt : Q -> Q.
Variable p : Props.
Variable rc : Rect.t.
Hypothesis shown : show p = true.
Hypothesis enabled : disabled p = false.
Hypothesis mounted : getRect p = Some rc.

Lemma drag_move_lastNat st now cx cy args :
  dragging st = true ->
  moveArgs Math_sqrt p st cx cy = Some args ->
  lastNatRef (fst (onPointerMove Math_sqrt p now cx cy st)) = Some (fst args).
Proof.
  intros Hd. unfold moveArgs, onPointerMove, scheduleDebouncedRecon.
  rewrite shown, enabled, mounted, Hd. simpl. by intros [= <-].
Qed.

Lemma canvas_tick_keeps now st :
  lastNatRef (fst (tick now st)) = lastNatRef st /\
  dragging (fst (tick now st)) = dragging st /\
  resizing (fst (tick now st)) = resizing st /\
  localRadiusPx (fst (tick now st)) = localRadiusPx st.
Proof.
  unfold tick. destruct (timerRef st); [|done]. by destruct (_ <=? _)%Z.
Qed.

End CanvasDrag.

(** X20.  Whatever the events and their times, every [onMove] that a canvas
    calls from its initial state passes a radius that is a whole number, at
    least 1, as long as neither the natural size nor the bounding rectangle
    of the canvas is empty. *)
Theorem canvas_commits_whole_radius Math_sqrt p events finish c r :
  CanvasSpec.sized p ->
  (c, r) ∈ commits (snd (KSpaceCanvas.runUntil Math_sqrt p KSpaceCanvas.initial
                           events finish)) ->
  exists z : Z, (1 <= z)%Z /\ r = inject_Z z.
Proof.
  intros _ Hin.
  assert (H : commitsWhole (snd (KSpaceCanvas.runUntil Math_sqrt p KSpaceCanvas.initial
                                   events finish))).
  { apply canvas_runUntil_whole. intros c' r' E. discriminate E. }
  unfold commitsWhole in H. rewrite Forall_forall in H. exact (H (c, r) Hin).
Qed.

(** X21.  A canvas that is hidden, disabled or not mounted calls neither
    [onMove] nor [onResize] and stays in its initial state, whatever the
    pointer events. *)
Theorem canvas_inert Math_sqrt p events finish :
  KSpaceCanvas.show p = false \/ KSpaceCanvas.disabled p = true \/
  KSpaceCanvas.getRect p = None ->
  KSpaceCanvas.runUntil Math_sqrt p KSpaceCanvas.initial events finish
  = (KSpaceCanvas.initial, []).
Proof.
  intros Hoff. unfold KSpaceCanvas.runUntil.
  by rewrite (canvas_idle Math_sqrt p KSpaceCanvas.initial events Hoff).
Qed.

(** X22.  Releasing the pointer during a drag, before the pending timeout has
    run, commits at once: over the whole gesture [onMove] is called exactly
    once, with the arguments of the last move, no timeout is left pending and
    the drag is over, however long one waits afterwards. *)
Theorem pointer_up_flushes_drag Math_sqrt p st moves t cx cy tu finish :
  KSpaceCanvas.show p = true -> KSpaceCanvas.disabled p = false ->
  is_Some (KSpaceCanvas.getRect p) ->
  KSpaceCanvas.dragging st = true -> KSpaceCanvas.timerRef st = None ->
  rapid (KSpaceCanvas.debounceMs p) (map fst (moves ++ [(t, (cx, cy))])) ->
  (t <= tu < t + KSpaceCanvas.debounceMs p)%Z ->
  let events := CanvasSpec.moveEvents (moves ++ [(t, (cx, cy))])
                ++ [(tu, KSpaceCanvas.PointerUp)] in
  let final := KSpaceCanvas.runUntil Math_sqrt p st events finish in
  exists args,
    KSpaceCanvas.moveArgs Math_sqrt p st cx cy = Some args /\
    commits (snd final) = [args] /\
    KSpaceCanvas.timerRef (fst final) = None /\
    KSpaceCanvas.dragging (fst final) = false.
Proof.
  intros Hshow Hen [rc Hrc] Hdrag Hnone Hrapid Htu events final.
  assert (Hmount : is_Some (KSpaceCanvas.getRect p)) by (by exists rc).
  assert (Hact : CanvasSpec.active p st) by (by left).
  destruct (run_moves Math_sqrt p Hshow Hen Hmount moves st Hact)
    as (st1 & out1 & Hrun1 & Hc1 & Hsame1 & Ht1 & Hl1); [| |].
  { unfold CanvasSpec.notDue. rewrite Hnone. by destruct moves. }
  { clear -Hrapid. induction moves as [|[t1 xy1] moves IH]; [done|].
    simpl in *. destruct Hrapid as [H1 H2]. split; [|by apply IH].
    destruct moves as [|[t2 xy2] moves]; [done|]. simpl in *. done. }
  assert (Hact1 : CanvasSpec.active p st1) by (by eapply active_sameGesture).
  destruct (onPointerMove_active Math_sqrt p Hshow Hen Hmount st1 t cx cy Hact1)
    as (st2 & out2 & args & Hmove & Hargs & Hc2 & Hsame2 & Ht2 & Hl2).
  rewrite (moveArgs_sameGesture Math_sqrt p Hmount st st1 cx cy Hsame1) in Hargs.
  exists args. split; [exact Hargs|].
  assert (Hargs1 : KSpaceCanvas.moveArgs Math_sqrt p st1 cx cy = Some args).
  { by rewrite (moveArgs_sameGesture Math_sqrt p Hmount st st1 cx cy Hsame1). }
  destruct Hsame1 as (Hd1 & Hr1 & Hrad1 & _).
  destruct Hsame2 as (Hd2 & Hr2 & Hrad2 & _).
  assert (Hdrag1 : KSpaceCanvas.dragging st1 = true) by congruence.
  assert (Hdrag2 : KSpaceCanvas.dragging st2 = true) by congruence.
  assert (Hnat2 : KSpaceCanvas.lastNatRef st2 = Some (fst args)).
  { pose proof (drag_move_lastNat Math_sqrt p rc Hshow Hen Hrc st1 t cx cy args Hdrag1) as H.
    rewrite Hmove in H. by apply H. }
  assert (Hrad : KSpaceCanvas.localRadiusPx st2 = KSpaceCanvas.localRadiusPx st).
  { rewrite Hrad2 by done. by apply Hrad1. }
  assert (Htick1 : KSpaceCanvas.tick t st1 = (st1, [])).
  { unfold KSpaceCanvas.tick. rewrite Ht1.
    destruct moves as [|m0 moves] using rev_ind.
    - simpl. by rewrite Hnone.
    - unfold CanvasSpec.lastDue. rewrite foldl_app. simpl.
      assert (Hgap : (fst m0 <= t < fst m0 + KSpaceCanvas.debounceMs p)%Z).
      { clear -Hrapid. rewrite <- app_assoc in Hrapid. simpl in Hrapid.
        induction moves as [|[t1 xy1] moves IH]; simpl in *; [tauto|].
        apply IH. tauto. }
      destruct (Z.leb_spec (dueAt (fst m0) (KSpaceCanvas.debounceMs p)) t); [|done].
      unfold dueAt in *. lia. }
  assert (Hsecond : KSpaceCanvas.run Math_sqrt p st1 [(t, KSpaceCanvas.PointerMove cx cy)]
                    = (st2, out2)).
  { simpl. rewrite Htick1. simpl. rewrite Hmove. by rewrite !app_nil_r. }
  subst final events. unfold KSpaceCanvas.runUntil, CanvasSpec.moveEvents.
  rewrite map_app, <- app_assoc. simpl map.
  rewrite canvas_run_app. fold (CanvasSpec.moveEvents moves). rewrite Hrun1.
  rewrite (canvas_run_app Math_sqrt p [(t, KSpaceCanvas.PointerMove cx cy)]), Hsecond.
  simpl.
  assert (Htick2 : KSpaceCanvas.tick tu st2 = (st2, [])).
  { unfold KSpaceCanvas.tick. rewrite Ht2.
    destruct (Z.leb_spec (dueAt t (KSpaceCanvas.debounceMs p)) tu); [|done].
    unfold dueAt in *. lia. }
  rewrite Htick2. simpl.
  unfold KSpaceCanvas.onPointerUp. rewrite Hen, Hdrag2, Hrc, Hnat2. simpl.
  rewrite !commits_app, Hc1, Hc2. simpl.
  split; [|done]. f_equal.
  unfold KSpaceCanvas.moveArgs in Hargs. rewrite Hrc, Hdrag in Hargs.
  injection Hargs as <-. simpl. f_equal.
  unfold KSpaceCanvas.currentRadius. by rewrite Hrad.
Qed.

(** ** Runs of the overlay *)

Section OverlayRuns.
Import KSpaceOverlay.

Variable Math_sqrt : Q -> Q.
Variable p : Props.


Lemma overlay_idle st events :
  disabled p = true -> resizing st = false -> timerRef st = None ->
  run Math_sqrt p st events = (st, []).
Proof.
  intros Hoff Hr Ht. induction events as [|[now ev] events IH]; simpl; [done|].
  assert (Htick : tick now st = (st, [])) by (unfold tick; by rewrite Ht).
  rewrite Htick.
  assert (Hev : handle Math_sqrt p now ev st = (st, [])).
  { destruct ev as [cx cy | cx cy | | | cx cy |]; simpl.
    - unfold onPointerDown. by rewrite Hoff, orb_true_r.
    - unfold onPointerMove. by rewrite Hoff, orb_true_r.
    - unfold onPointerUp. by rewrite Hoff.
    - unfold onResizeDown. by rewrite Hoff, orb_true_r.
    - unfold onResizeMove. by rewrite Hoff, orb_true_r.
    - unfold onResizeUp. by rewrite Hr. }
  rewrite Hev, IH. done.
Qed.

End OverlayRuns.

Section OverlayResize.
Import KSpaceOverlay ResizeSpec.

Variable Math_sqrt : Q -> Q.
Variable p : Props.
Variable rc : Rect.t.
Hypothesis shown : show p = true.
Hypothesis enabled : disabled p = false.
Hypothesis mounted : getRect p = Some rc.


End OverlayResize.

Section MountedRadii.
Import Mounted MountedSpec.

Variable Math_sqrt : Q -> Q.
Variable rc : Rect.t.
Variables rows cols : Z.

(** A property of radii that every radius computed with the container
    mounted has. *)
Variable P : Q -> Prop.
Hypothesis computed : forall rPx sx, P (naturalRadius rPx sx).












End MountedRadii.



(** X24.  A disabled overlay calls neither [onMove] nor [onResize] and stays in
    its initial state, whatever the pointer events on the circle and on the
    handle. *)
Theorem overlay_disabled_inert Math_sqrt p events finish :
  KSpaceOverlay.disabled p = true ->
  KSpaceOverlay.runUntil Math_sqrt p KSpaceOverlay.initial events finish
  = (KSpaceOverlay.initial, []).
Proof.
  intros Hoff. unfold KSpaceOverlay.runUntil.
  by rewrite (overlay_idle Math_sqrt p KSpaceOverlay.initial events Hoff).
Qed.


(** ** Worker protocol, replies, and the order of grey levels *)

Section ProtocolFacts.

Variable ifft : list Complex -> JS.Result (list Complex).

Lemma onmessage_answers st m :
  exists r, snd (ReconWorker.onmessage ifft st m) = [r] /\ answers m r.
Proof.
  destruct m as [rows cols re im | cx cy radius]; simpl.
  - by exists ReconWorker.loaded.
  - destruct (ReconWorker.notLoaded st); [by eexists|].
    destruct (ReconWorker.reconFromCircle ifft st cx cy radius); by eexists.
Qed.

Lemma circleRecon_keeps_state st cx cy radius :
  fst (ReconWorker.onmessage ifft st (ReconWorker.circleRecon cx cy radius)) = st.
Proof.
  simpl. destruct (ReconWorker.notLoaded st); [done|].
  by destruct (ReconWorker.reconFromCircle ifft st cx cy radius).
Qed.

End ProtocolFacts.

(** X13.  The worker posts exactly one reply for every message, in the order of
    the messages: [loaded] for a [loadSpectrum], and a [recon] or an [error]
    for a [circleRecon]. *)
Theorem worker_answers_in_order ifft st inbox :
  Forall2 answers inbox (snd (ReconWorker.run ifft st inbox)).
Proof.
  revert st. induction inbox as [|m inbox IH]; intros st; simpl; [constructor|].
  destruct (onmessage_answers ifft st m) as (r & Hr & Ha).
  destruct (ReconWorker.onmessage ifft st m) as [st1 out1]. simpl in Hr. subst out1.
  specialize (IH st1). destruct (ReconWorker.run ifft st1 inbox) as [st2 out2].
  simpl in *. by constructor.
Qed.

(** X14.  Once the dimensions are known, [onOverlayMove] sets the busy flag and
    posts one [circleRecon] request; whatever the state of the worker, the
    reply to that request clears the flag. *)
Theorem busy_cleared_by_reply ifft st app centerNat radiusNat :
  is_Some (App.rows app) -> is_Some (App.cols app) ->
  let app1 := fst (App.onOverlayMove app centerNat radiusNat) in
  let posted := snd (App.onOverlayMove app centerNat radiusNat) in
  App.reconBusy app1 = true /\
  posted = [ReconWorker.circleRecon (Point.x centerNat) (Point.y centerNat) radiusNat] /\
  App.reconBusy (App.deliver app1 (snd (ReconWorker.run ifft st posted))) = false.
Proof.
  intros [r Hr] [c Hc]. unfold App.onOverlayMove. rewrite Hr, Hc. simpl.
  split; [done|]. split; [done|].
  destruct (ReconWorker.onmessage ifft st
              (ReconWorker.circleRecon (Point.x centerNat) (Point.y centerNat) radiusNat))
    as [st1 out1] eqn:E.
  assert (E' := E). simpl in E'. rewrite E'. clear E'.
  destruct (onmessage_answers ifft st
              (ReconWorker.circleRecon (Point.x centerNat) (Point.y centerNat) radiusNat))
    as (reply & Hreply & Hans).
  rewrite E in Hreply. simpl in Hreply. subst out1. simpl.
  destruct reply as [| rows cols px | text]; [done | | done].
  destruct (worker_recon_reply ifft st _ _ _ st1 rows cols px E)
    as (_ & _ & _ & Hrows & Hcols & Hgray).
  unfold App.deliver. simpl.
  by rewrite (opaqueGray_newImageData px rows cols Hrows Hcols Hgray).
Qed.

Section RasterOrder.

Lemma scaleOf_nonneg lo hi : 0 <= Raster.scaleOf lo hi.
Proof.
  unfold Raster.scaleOf. destruct (Qlt_le_dec lo hi) as [H|H]; [|lra].
  apply Qle_shift_div_l; lra.
Qed.

Lemma level_mono mm v v' : v <= v' -> (Raster.level mm v <= Raster.level mm v')%Z.
Proof.
  intros H. unfold Raster.level. destruct mm as [[lo hi]|]; [|lia].
  assert (Hr : (JS.Math_round ((v - lo) * Raster.scaleOf lo hi)
                <= JS.Math_round ((v' - lo) * Raster.scaleOf lo hi))%Z).
  { apply Math_round_mono. pose proof (scaleOf_nonneg lo hi). nra. }
  lia.
Qed.

Lemma level_comp mm v v' : v == v' -> Raster.level mm v = Raster.level mm v'.
Proof.
  intros H. apply Z.le_antisymm; apply level_mono; lra.
Qed.

Lemma level_flat lo hi v : ~ lo < hi -> v == lo -> Raster.level (Some (lo, hi)) v = 0%Z.
Proof.
  intros Hflat Hv. rewrite (level_comp _ v lo Hv). apply level_lowest.
Qed.

End RasterOrder.

(** X8.  The normalisation to bytes keeps the order of the samples: of two
    pixels of the grid, the one with the smaller sample does not get the
    larger grey level. *)
Theorem normalize_preserves_order grid n m y x y' x' :
  (y < n)%nat -> (x < m)%nat -> (y' < n)%nat -> (x' < m)%nat ->
  at2 grid y x <= at2 grid y' x' ->
  exists b b',
    Raster.normalize grid n m !! ((y * m + x) * 4)%nat = Some b /\
    Raster.normalize grid n m !! ((y' * m + x') * 4)%nat = Some b' /\
    (b <= b')%Z.
Proof.
  intros Hy Hx Hy' Hx' Hle. unfold Raster.normalize.
  pose proof (paint_channel grid (Raster.extremes grid) n m y x 0 Hy Hx) as H1.
  pose proof (paint_channel grid (Raster.extremes grid) n m y' x' 0 Hy' Hx') as H2.
  rewrite Nat.add_0_r in H1, H2.
  eexists _, _. split; [apply H1; lia|]. split; [apply H2; lia|].
  simpl. by apply level_mono.
Qed.

(** X9.  The normalisation uses the whole range: a pixel holding the least
    sample is black, a pixel holding the greatest sample is white when the
    two differ, and a grid whose samples are all equal is black throughout. *)
Theorem normalize_full_range grid n m y x row v lo hi :
  grid !! y = Some row -> row !! x = Some v -> (y < n)%nat -> (x < m)%nat ->
  Raster.minimumOf grid lo -> Raster.maximumOf grid hi ->
  exists b,
    Raster.normalize grid n m !! ((y * m + x) * 4)%nat = Some b /\
    (v == lo -> b = 0%Z) /\
    (lo < hi -> v == hi -> b = 255%Z) /\
    (~ lo < hi -> b = 0%Z).
Proof.
  intros Hrow Hv Hy Hx [Hlo1 Hlo2] [Hhi1 Hhi2]. unfold Raster.normalize.
  pose proof (paint_channel grid (Raster.extremes grid) n m y x 0 Hy Hx) as H1.
  rewrite Nat.add_0_r in H1. specialize (H1 ltac:(lia)). simpl in H1.
  rewrite (at2_lookup grid y x row v Hrow Hv) in H1.
  eexists. split; [exact H1|].
  assert (Hin : v ∈ concat grid) by (by eapply elem_of_concat_lookup).
  destruct (extremes_Some grid v Hin) as (lo' & hi' & -> & [Hlo1' Hlo2'] & [Hhi1' Hhi2']).
  assert (Elo : lo' == lo).
  { apply Qle_antisym; [by apply Hlo2' | by apply Hlo2]. }
  assert (Ehi : hi' == hi).
  { apply Qle_antisym; [by apply Hhi2 | by apply Hhi2']. }
  split; [|split].
  - intros E. rewrite (level_comp _ v lo') by lra. apply level_lowest.
  - intros Hlt E. rewrite (level_comp _ v hi') by lra. apply level_highest. lra.
  - intros Hflat. unfold Raster.level.
    rewrite scaleOf_flat by lra.
    assert (Ev : v == lo').
    { apply Qle_antisym; [|by apply Hlo2'].
      apply Qle_trans with hi'; [by apply Hhi2'|]. lra. }
    rewrite (Math_round_comp _ 0) by lra. done.
Qed.

Section EndToEnd.

Variable getImageData : Z -> Z -> list Z.
Variables fft ifft : list Complex -> JS.Result (list Complex).
Variable log1pAbs : Complex -> Q.
Variable fround : Q -> Q.

Lemma computeSpectrumAndRecon_inv width height maxDim out :
  (0 <= width)%Z -> (0 <= height)%Z -> (0 <= maxDim)%Z ->
  Loading.computeSpectrumAndRecon getImageData fft ifft log1pAbs width height maxDim
    = JS.Returned out ->
  (0 < Loading.outRows out)%Z /\ (0 < Loading.outCols out)%Z /\
  (Loading.outCols out, Loading.outRows out) = Loading.scaledSize width height maxDim /\
  Kspace.renderKspace log1pAbs (Loading.spectrum out) (Loading.outRows out)
    (Loading.outCols out) = JS.Returned (Loading.kspaceUrl out) /\
  Kspace.renderReconFromSpectrum ifft (Loading.spectrum out) (Loading.outRows out)
    (Loading.outCols out) = JS.Returned (Loading.reconUrl out).
Proof.
  intros Hw Hh Hm H. unfold Loading.computeSpectrumAndRecon in H.
  unbind H. injection H as <-. simpl.
  destruct (loadAndGrayscale_inv _ _ _ _ _ Ha Hw Hh Hm) as (Hr & Hc & _).
  split; [done|]. split; [done|]. split; [|done].
  unfold Loading.loadAndGrayscale in Ha.
  destruct (Loading.scaledSize width height maxDim) as [w h].
  destruct ((w =? 0)%Z || (h =? 0)%Z); [discriminate|]. by injection Ha as <-.
Qed.

Lemma processImage_returns width height img :
  (0 <= width)%Z -> (0 <= height)%Z ->
  Loading.loadAndGrayscale getImageData width height 256 = JS.Returned img ->
  returnsOn fft (Loading.rows img) -> returnsOn fft (Loading.cols img) ->
  returnsOn ifft (Loading.rows img) -> returnsOn ifft (Loading.cols img) ->
  exists out msg,
    Processing.processImage getImageData fft ifft log1pAbs fround width height
    = JS.Returned (out, msg) /\
    Loading.outRows out = Loading.rows img /\ Loading.outCols out = Loading.cols img.
Proof.
  intros Hw Hh Himg Hfr Hfc Hir Hic.
  destruct (pipeline_returns getImageData fft ifft log1pAbs width height 256 img
              Hw Hh ltac:(lia) Himg Hfr Hfc Hir Hic) as (out & Hout & Hrows & Hcols & _).
  destruct (loadAndGrayscale_inv _ _ _ _ _ Himg Hw Hh ltac:(lia)) as (Hr & Hc & _).
  unfold Processing.processImage. rewrite Hout. simpl.
  unfold Handover.loadMessage, Handover.flattenSpectrum, JS.newArray.
  rewrite Hrows, Hcols.
  destruct (Z.ltb_spec (Loading.rows img * Loading.cols img) 0); [nia|]. simpl.
  eexists _, _. split; [reflexivity|]. done.
Qed.

End EndToEnd.

(** C4.  Every reconstruct request handled before any load is answered with
    the error 'Spectrum not loaded'.  After a load whose rows and cols are
    both non-zero a reconstruct request does not take that branch: it is
    answered with a reconstruction or with the text of a caught exception.
    Every load that the program sends is of this kind: the message that
    [processImage] posts carries the positive dimensions of the image, so
    that whatever the worker held before, a request handled after it is not
    answered 'Spectrum not loaded'. *)
Theorem not_loaded_reply ifft :
  (forall requests, Forall isCircleRecon requests ->
     ReconWorker.run ifft ReconWorker.initial requests
     = (ReconWorker.initial,
        map (fun _ => ReconWorker.error ReconWorker.SpectrumNotLoaded) requests)) /\
  (forall st rows cols re im cx cy radius,
     let loaded := fst (ReconWorker.onmessage ifft st
                          (ReconWorker.loadSpectrum rows cols re im)) in
     let reply := snd (ReconWorker.onmessage ifft loaded
                         (ReconWorker.circleRecon cx cy radius)) in
     rows <> 0%Z -> cols <> 0%Z ->
     reply <> [ReconWorker.error ReconWorker.SpectrumNotLoaded] /\
     ((exists px, reply = [ReconWorker.recon rows cols px]) \/
      (exists e, reply = [ReconWorker.error (ReconWorker.Caught e)]))) /\
  (forall getImageData fft ifft0 log1pAbs fround width height out msg st cx cy radius,
     (0 <= width)%Z -> (0 <= height)%Z ->
     Processing.processImage getImageData fft ifft0 log1pAbs fround width height
       = JS.Returned (out, msg) ->
     (exists re im,
        msg = ReconWorker.loadSpectrum (Loading.outRows out) (Loading.outCols out) re im /\
        (0 < Loading.outRows out)%Z /\ (0 < Loading.outCols out)%Z) /\
     forall reply,
       In reply (snd (ReconWorker.run ifft st [msg; ReconWorker.circleRecon cx cy radius])) ->
       reply <> ReconWorker.error ReconWorker.SpectrumNotLoaded).
Proof.
  assert (Hloaded : forall st rows cols re im cx cy radius,
     rows <> 0%Z -> cols <> 0%Z ->
     let reply := snd (ReconWorker.onmessage ifft
                         (fst (ReconWorker.onmessage ifft st
                                 (ReconWorker.loadSpectrum rows cols re im)))
                         (ReconWorker.circleRecon cx cy radius)) in
     reply <> [ReconWorker.error ReconWorker.SpectrumNotLoaded] /\
     ((exists px, reply = [ReconWorker.recon rows cols px]) \/
      (exists e, reply = [ReconWorker.error (ReconWorker.Caught e)]))).
  { intros st rows cols re im cx cy radius Hr Hc. simpl.
    unfold ReconWorker.notLoaded. simpl.
    destruct (Z.eqb_spec rows 0); [done|]. destruct (Z.eqb_spec cols 0); [done|]. simpl.
    destruct (ReconWorker.reconFromCircle ifft _ cx cy radius) as [px|e]; simpl.
    - split; [discriminate | left; eauto].
    - split; [discriminate | right; eauto]. }
  split; [apply run_before_load|]. split.
  - intros st rows cols re im cx cy radius loaded reply Hr Hc. by apply Hloaded.
  - intros getImageData fft ifft0 log1pAbs fround width height out msg st cx cy radius
      Hw Hh H.
    unfold Processing.processImage in H. unbind H. injection H as -> ->.
    destruct (computeSpectrumAndRecon_inv getImageData fft ifft0 log1pAbs width height 256
                out Hw Hh ltac:(lia) Ha) as (Hr & Hc & _).
    unfold Handover.loadMessage in Ha0. unbind Ha0. injection Ha0 as <-.
    split; [by eexists _, _|].
    intros reply Hin. simpl in Hin.
    unfold ReconWorker.notLoaded in Hin. simpl in Hin.
    destruct (Z.eqb_spec (Loading.outRows out) 0); [lia|].
    destruct (Z.eqb_spec (Loading.outCols out) 0); [lia|]. simpl in Hin.
    destruct (ReconWorker.reconFromCircle ifft _ cx cy radius) as [px|e]; simpl in Hin;
      destruct Hin as [<- | [<- | []]]; discriminate.
Qed.

(** X12.  When the spectrum computed by [processImage] is representable in
    float32, the worker answers a request whose disc contains the whole grid
    with the reconstruction that [processImage] has put on display. *)
Theorem worker_full_mask_reproduces_recon
  getImageData fft ifft log1pAbs fround width height out msg st cx cy radius :
  (0 <= width)%Z -> (0 <= height)%Z ->
  Processing.processImage getImageData fft ifft log1pAbs fround width height
    = JS.Returned (out, msg) ->
  float32Exact fround (Loading.spectrum out)
    (Z.to_nat (Loading.outRows out)) (Z.to_nat (Loading.outCols out)) ->
  coversGrid cx cy radius (Z.to_nat (Loading.outRows out)) (Z.to_nat (Loading.outCols out)) ->
  snd (ReconWorker.run ifft st [msg; ReconWorker.circleRecon cx cy radius])
  = [ReconWorker.loaded;
     ReconWorker.recon (Loading.outRows out) (Loading.outCols out) (Loading.reconUrl out)].
Proof.
  intros Hw Hh H Hexact Hcover. unfold Processing.processImage in H.
  unbind H. injection H as -> ->.
  destruct (computeSpectrumAndRecon_inv getImageData fft ifft log1pAbs width height 256 out
              Hw Hh ltac:(lia) Ha) as (Hr & Hc & _ & _ & Hrecon).
  rewrite (worker_after_handover fround ifft _ _ _ msg st cx cy radius Hr Hc Ha0).
  rewrite full_mask_eq by done.
  rewrite (renderReconFromSpectrum_ext ifft _ (Loading.spectrum out)).
  { by rewrite Hrecon. }
  intros y x Hy Hx. unfold roundedSpectrum.
  rewrite (at2_lookup _ y x _ _
             (lookup_map_seq
                (fun y => map (fun x => Handover.stored fround (at2 (Loading.spectrum out) y x))
                              (seq 0 (Z.to_nat (Loading.outCols out))))
                (Z.to_nat (Loading.outRows out)) y Hy)
             (lookup_map_seq
                (fun x => Handover.stored fround (at2 (Loading.spectrum out) y x))
                (Z.to_nat (Loading.outCols out)) x Hx)).
  by apply Hexact.
Qed.

(** ** Points inside the image, and requests *)

Section ImageBounds.

Lemma scaled_within x lim size :
  0 < size -> 0 <= lim -> 0 <= x -> x <= size ->
  0 <= x * (lim / size) /\ x * (lim / size) <= lim.
Proof.
  intros Hs Hl Hx0 Hx1.
  assert (E : x * (lim / size) == lim * (x / size)) by (field; lra).
  assert (H0 : 0 <= x / size) by (apply Qle_shift_div_l; lra).
  assert (H1 : x / size <= 1) by (apply Qle_shift_div_r; lra).
  rewrite E. split; nra.
Qed.

Lemma round_within q lim :
  0 <= q -> q <= inject_Z lim -> (0 <= JS.Math_round q <= lim)%Z.
Proof.
  intros H0 H1. split.
  - rewrite <- (Math_round_inject 0). by apply Math_round_mono.
  - rewrite <- (Math_round_inject lim). by apply Math_round_mono.
Qed.

End ImageBounds.

(** X19.  The centre of a dragged circle, clamped in display coordinates and
    converted to natural ones, has whole coordinates inside the image, as
    long as the element is at least as wide and as high as the circle. *)
Theorem clamped_point_in_image rc W H pt r :
  (0 <= W)%Z -> (0 <= H)%Z -> 0 < Rect.width rc -> 0 < Rect.height rc ->
  0 <= r -> 2 * r <= Rect.width rc -> 2 * r <= Rect.height rc ->
  exists a b,
    toNatural (Some rc) (inject_Z W) (inject_Z H) (clampDisplay (Some rc) pt r)
    = Point.mk (inject_Z a) (inject_Z b) /\
    (0 <= a <= W)%Z /\ (0 <= b <= H)%Z.
Proof.
  intros HW HH Hrw Hrh Hr Hfw Hfh. unfold toNatural. simpl.
  eexists _, _. split; [reflexivity|].
  destruct (clamp_spec r (Rect.width rc - r) (Point.x pt)) as (X1 & X2 & _).
  destruct (clamp_spec r (Rect.height rc - r) (Point.y pt)) as (Y1 & Y2 & _).
  simpl in X1, X2, Y1, Y2.
  assert (HWq : 0 <= inject_Z W) by (change 0 with (inject_Z 0); by rewrite <- Zle_Qle).
  assert (HHq : 0 <= inject_Z H) by (change 0 with (inject_Z 0); by rewrite <- Zle_Qle).
  specialize (X2 ltac:(lra)). specialize (Y2 ltac:(lra)).
  split; apply round_within; apply scaled_within; try done; lra.
Qed.

(** X15.  As long as the rows or the columns of the image are unknown, no call
    of [onMove] or [onResize] makes the application post a request to the
    worker. *)
Theorem no_request_without_dimensions app calls :
  App.rows app = None \/ App.cols app = None ->
  App.requests app calls = [].
Proof.
  revert app. induction calls as [|[c r|k] calls IH]; intros app Hnone; simpl; [done | |].
  - unfold App.onOverlayMove.
    destruct (App.rows app) eqn:Er, (App.cols app) eqn:Ec;
      try (destruct Hnone; discriminate); simpl; apply IH; simpl; rewrite ?Er, ?Ec; tauto.
  - by apply IH.
Qed.

(** * The theorems at concrete inputs *)

(** The exact transform returns on arrays of two entries. *)
Lemma exact_fft_returnsOn_2 : returnsOn Exact.fft 2.
Proof.
  intros l Hl. assert (length l = 2%nat) as E by lia.
  unfold Exact.fft, Exact.transform. rewrite E. simpl.
  eexists. split; [reflexivity|]. simpl. done.
Qed.

Lemma mask_keeps_exactly_the_disc_witness :
  at2 (Kspace.masked flatSpectrum 4 4 2 2 1) 2 2 = ofReal 1600 /\
  at2 (Kspace.masked flatSpectrum 4 4 2 2 1) 2 1 = at2 flatSpectrum 2 1 /\
  at2 (Kspace.masked flatSpectrum 4 4 1 1 1) 2 2 = czero /\
  ReconWorker.reconFromCircle Exact.ifft sampleWorker 1 1 1
  = (try! recon := Kspace.reconSamples Exact.ifft
                     (Kspace.masked (cachedSpectrum sampleWorker 2 2) 2 2 1 1 1) 2 2 in
     JS.Returned (Raster.normalize recon 2 2)).
Proof.
  split; [|split; [|split]].
  - refine (proj1 (proj1 mask_keeps_exactly_the_disc flatSpectrum 4%nat 4%nat 2 2 1
                     2%nat 2%nat _ _) _); [lia | lia |].
    unfold inDisc. vm_compute. intros H. discriminate H.
  - refine (proj1 (proj1 mask_keeps_exactly_the_disc flatSpectrum 4%nat 4%nat 2 2 1
                     2%nat 1%nat _ _) _); [lia | lia |].
    unfold inDisc. vm_compute. intros H. discriminate H.
  - refine (proj2 (proj1 mask_keeps_exactly_the_disc flatSpectrum 4%nat 4%nat 1 1 1
                     2%nat 2%nat _ _) _); [lia | lia |].
    unfold inDisc. vm_compute. intros H. apply H. reflexivity.
  - apply (proj2 (proj2 mask_keeps_exactly_the_disc) Exact.ifft sampleWorker 1 1 1).
    exists [1; -3; -7; 13], [0; 0; 0; 0]. simpl. repeat split; lia.
Defined.

Lemma mask_monotone_in_radius_witness :
  inside 2 2 (2 * 2) 1 2 = true.
Proof.
  apply (mask_monotone_in_radius 2 2 1 2 1 2).
  - vm_compute. intros H. discriminate H.
  - vm_compute. reflexivity.
  - vm_compute. reflexivity.
Defined.

Lemma forward_transform_dimensions_witness :
  Kspace.computeSpectrum Exact.fft [] (-1) 3 = JS.Thrown JS.RangeError /\
  Kspace.computeSpectrum Exact.fft [] 0 0 = JS.Returned [] /\
  exists spectrum,
    Kspace.computeSpectrum Exact.fft [[1; 2]; [3; 7]] 2 2 = JS.Returned spectrum /\
    Z.of_nat (length spectrum) = 2%Z /\
    Forall (fun row => Z.of_nat (length row) = 2%Z) spectrum.
Proof.
  split; [|split].
  - apply (proj1 (forward_transform_dimensions Exact.fft [] (-1) 3)). lia.
  - apply (proj1 (proj2 (forward_transform_dimensions Exact.fft [] 0 0))); [reflexivity | lia].
  - apply (proj2 (proj2 (forward_transform_dimensions Exact.fft [[1; 2]; [3; 7]] 2 2)));
      [lia | lia | | apply exact_fft_returnsOn_2 | apply exact_fft_returnsOn_2].
    split; [reflexivity | repeat constructor].
Defined.

Lemma rescale_bytes_witness :
  (exists b, (0 <= b <= 255)%Z /\
     Raster64.normalize (Kspace.magnitudes Exact.energy flatSpectrum 4 4) 4 4 !! 40%nat
     = Some b) /\
  (exists px b lo hi v,
     ReconWorker64.reconFromCircle Exact.ifft tieWorker 1 1 5 = JS.Returned px /\
     px !! 8%nat = Some b /\ lo < hi /\ v == 135 /\
     b = Z.max 0 (Z.min 255
           (JS.Math_round (Binary64.mul (Binary64.sub v lo)
                             (Binary64.div 255 (Binary64.sub hi lo))))) /\
     (Z.abs (b - Raster.specRescale lo hi v) <= 1)%Z).
Proof.
  split.
  - destruct (proj1 rescale_bytes Exact.energy flatSpectrum 4%Z 4%Z _ eq_refl
                2%nat 2%nat) as (lo & hi & _ & _ & _ & H);
      [simpl; lia | simpl; lia |].
    destruct (H 0%nat) as (b & Hb & Hr & _); [lia|].
    exists b. split; [exact Hr | exact Hb].
  - destruct (ReconWorker64.reconFromCircle Exact.ifft tieWorker 1 1 5) as [px|e] eqn:E;
      [|vm_compute in E; discriminate E].
    destruct (proj2 rescale_bytes Exact.ifft tieWorker 1 1 5 px E)
      as (recon & Hrecon & H).
    vm_compute in Hrecon. injection Hrecon as <-.
    destruct (H 1%nat 0%nat) as (lo & hi & [Hlo Hmin] & [Hhi Hmax] & _ & H');
      [simpl; lia | simpl; lia |].
    destruct (H' 0%nat) as (b & Hb & _ & Hlt & _); [lia|].
    assert (L1 : lo <= 2624 # 32) by (apply Hmin, list_elem_of_In; simpl; tauto).
    assert (L2 : (6016 # 32) <= hi) by (apply Hmax, list_elem_of_In; simpl; tauto).
    assert (L3 : (2624 # 32) <= lo).
    { apply list_elem_of_In in Hlo. simpl in Hlo.
      destruct Hlo as [<- | [<- | [<- | [<- | []]]]]; vm_compute; intros X; discriminate X. }
    assert (L4 : hi <= 6016 # 32).
    { apply list_elem_of_In in Hhi. simpl in Hhi.
      destruct Hhi as [<- | [<- | [<- | [<- | []]]]]; vm_compute; intros X; discriminate X. }
    assert (A : (2624 # 32) == 82) by reflexivity.
    assert (B : (6016 # 32) == 188) by reflexivity.
    assert (Hlohi : lo < hi) by lra.
    assert (Hmod : Raster64.moderate (hi - lo)).
    { split.
      - apply (Qle_trans _ 106); [vm_compute; intros X; discriminate X | lra].
      - apply (Qle_trans _ 106); [lra | vm_compute; intros X; discriminate X]. }
    destruct (Hlt Hlohi Hmod) as (_ & Hb1 & Hb2).
    exists px, b, lo, hi, (4320 # 32).
    split; [reflexivity|]. split; [exact Hb|]. split; [exact Hlohi|].
    split; [reflexivity|]. split; [exact Hb1 | exact Hb2].
Defined.

Lemma flat_grid_spectrum_and_rendering_witness :
  exists spectrum px,
    Kspace.computeSpectrum Exact.fft Exact.flat100 4 4 = JS.Returned spectrum /\
    Kspace.renderKspace Exact.energy spectrum 4 4 = JS.Returned px /\
    at2 spectrum 2 2 = ofReal 1600 /\ px !! 40%nat = Some 255%Z /\ px !! 0%nat = Some 0%Z.
Proof.
  destruct (flat_grid_spectrum_and_rendering Exact.energy) as (S & px & HS & Hpx & H).
  { vm_compute. reflexivity. }
  exists S, px. split; [exact HS|]. split; [exact Hpx|].
  split; [|split].
  - apply (proj1 (H 2%nat 2%nat ltac:(lia) ltac:(lia))).
  - apply (proj2 (H 2%nat 2%nat ltac:(lia) ltac:(lia)) 0%nat). lia.
  - apply (proj2 (H 0%nat 0%nat ltac:(lia) ltac:(lia)) 0%nat). lia.
Defined.

Lemma replies_shown_in_arrival_order_witness :
  App.reconUrl
    (App.deliver sampleApp
       [ReconWorker.recon 2 2 [0; 0; 0; 255; 153; 153; 153; 255;
                               51; 51; 51; 255; 255; 255; 255; 255]%Z;
        ReconWorker.recon 2 2 [0; 0; 0; 255; 179; 179; 179; 255;
                               77; 77; 77; 255; 255; 255; 255; 255]%Z])
  = Some {| App.imageRows := 2; App.imageCols := 2;
            App.imagePixels := [0; 0; 0; 255; 179; 179; 179; 255;
                                77; 77; 77; 255; 255; 255; 255; 255]%Z |}.
Proof.
  refine (proj1 (proj2 (replies_shown_in_arrival_order Exact.ifft sampleWorker sampleApp
           1 1 5 1 1 1 2%Z 2%Z
           [0; 0; 0; 255; 153; 153; 153; 255; 51; 51; 51; 255; 255; 255; 255; 255]%Z
           [0; 0; 0; 255; 179; 179; 179; 255; 77; 77; 77; 255; 255; 255; 255; 255]%Z
           _ _))).
  - vm_compute. reflexivity.
  - vm_compute. reflexivity.
Defined.

Lemma recon_result_opaque_gray_witness :
  opaqueGray [0; 0; 0; 255; 179; 179; 179; 255; 77; 77; 77; 255; 255; 255; 255; 255]%Z 2 2 /\
  (exists px, Kspace.renderReconFromSpectrum Exact.ifft flatSpectrum 4 4 = JS.Returned px /\
              opaqueGray px 4 4).
Proof.
  split.
  - apply (proj1 recon_result_opaque_gray Exact.ifft sampleWorker 1 1 1 sampleWorker).
    vm_compute. reflexivity.
  - eexists. split; [vm_compute; reflexivity|].
    apply (proj2 recon_result_opaque_gray Exact.ifft flatSpectrum 4%Z 4%Z).
    vm_compute. reflexivity.
Defined.


(** The exact inverse transform returns on arrays of two entries. *)
Lemma exact_ifft_returnsOn_2 : returnsOn Exact.ifft 2.
Proof.
  intros l Hl. assert (length l = 2%nat) as E by lia.
  unfold Exact.ifft, Exact.transform. rewrite E. simpl.
  eexists. split; [reflexivity|]. simpl. done.
Qed.

Lemma flatCanvas_bytes : canvasBytes flatCanvas.
Proof.
  intros w h Hw Hh. unfold flatCanvas. split.
  - rewrite length_replicate. nia.
  - apply Forall_replicate. lia.
Qed.

Lemma sampleSpectrum_shape : hasShape sampleSpectrum 2 2.
Proof. split; [reflexivity | repeat constructor]. Qed.

Lemma scaledSize_bounds_witness :
  (0 <= fst (Loading.scaledSize 1024 512 256) <= 1024)%Z /\
  (0 <= snd (Loading.scaledSize 1024 512 256) <= 512)%Z /\
  Z.max (fst (Loading.scaledSize 1024 512 256)) (snd (Loading.scaledSize 1024 512 256))
  = Z.min 256 (Z.max 1024 512) /\
  (Z.abs (2 * (fst (Loading.scaledSize 1024 512 256) * 512
               - 1024 * snd (Loading.scaledSize 1024 512 256))) <= Z.max 1024 512)%Z.
Proof. apply (scaledSize_bounds 1024 512 256); lia. Defined.

Lemma loadAndGrayscale_result_witness :
  match Loading.loadAndGrayscale flatCanvas 300 1000 256 with
  | JS.Returned img =>
      (Loading.cols img, Loading.rows img) = Loading.scaledSize 300 1000 256 /\
      (0 < Loading.rows img <= 256)%Z /\ (0 < Loading.cols img <= 256)%Z /\
      sampleGrid (Loading.gray img) (Loading.rows img) (Loading.cols img) /\
      Forall (Forall (fun v => 0 <= v /\ v <= 255)) (Loading.gray img)
  | JS.Thrown e =>
      e = JS.IndexSizeError /\
      (fst (Loading.scaledSize 300 1000 256) = 0%Z \/
       snd (Loading.scaledSize 300 1000 256) = 0%Z)
  end.
Proof.
  apply (loadAndGrayscale_result flatCanvas 300 1000 256); [lia | lia | lia |].
  apply flatCanvas_bytes.
Defined.

Lemma elongated_image_fails_witness :
  Loading.loadAndGrayscale flatCanvas 1000 1 256 = JS.Thrown JS.IndexSizeError.
Proof. apply (elongated_image_fails flatCanvas 1000 1 256); lia. Defined.

Lemma renderKspace_outcome_witness :
  (exists px, Kspace.renderKspace Exact.energy flatSpectrum 4 4 = JS.Returned px /\
              opaqueGray px 4 4) /\
  Kspace.renderKspace Exact.energy flatSpectrum 4 (-1) = JS.Thrown JS.RangeError /\
  Kspace.renderKspace Exact.energy flatSpectrum 4 0 = JS.Thrown JS.IndexSizeError.
Proof.
  split; [|split].
  - apply (proj1 (renderKspace_outcome Exact.energy flatSpectrum 4 4)); [lia | lia |].
    split; [reflexivity | repeat constructor].
  - apply (proj1 (proj2 (renderKspace_outcome Exact.energy flatSpectrum 4 (-1)))).
    right. lia.
  - apply (proj2 (proj2 (renderKspace_outcome Exact.energy flatSpectrum 4 0))).
    right. lia.
Defined.

Lemma computeSpectrumAndRecon_returns_witness :
  exists out,
    Loading.computeSpectrumAndRecon flatCanvas Exact.fft Exact.ifft Exact.energy 2 2 256
    = JS.Returned out /\
    Loading.outRows out = 2%Z /\ Loading.outCols out = 2%Z /\
    hasShape (Loading.spectrum out) 2 2 /\
    opaqueGray (Loading.kspaceUrl out) 2 2 /\
    opaqueGray (Loading.reconUrl out) 2 2.
Proof.
  refine (computeSpectrumAndRecon_returns flatCanvas Exact.fft Exact.ifft Exact.energy
            2 2 256
            {| Loading.gray := map (fun y => map (fun x =>
                                 Loading.luma (flatCanvas 2 2) ((y * 2 + x) * 4))
                                 (seq 0 2)) (seq 0 2);
               Loading.rows := 2; Loading.cols := 2 |} _ _ _ _ _ _ _ _).
  - lia.
  - lia.
  - lia.
  - reflexivity.
  - apply exact_fft_returnsOn_2.
  - apply exact_fft_returnsOn_2.
  - apply exact_ifft_returnsOn_2.
  - apply exact_ifft_returnsOn_2.
Defined.

Lemma full_mask_is_unmasked_witness :
  Kspace.renderReconFromCircle Exact.ifft flatSpectrum 4 4 2 2 8
  = Kspace.renderReconFromSpectrum Exact.ifft flatSpectrum 4 4.
Proof.
  apply (proj1 (full_mask_is_unmasked Exact.ifft flatSpectrum 4 4 2 2 8)).
  apply (proj2 (full_mask_is_unmasked Exact.ifft flatSpectrum 4 4 2 2 8));
    vm_compute; intros H; discriminate H.
Defined.

Lemma zero_radius_mask_witness :
  at2 (Kspace.masked flatSpectrum 4 4 2 2 0) 2 2 = at2 flatSpectrum 2 2 /\
  at2 (Kspace.masked flatSpectrum 4 4 2 2 0) 2 1 = czero.
Proof.
  split.
  - refine (proj1 (zero_radius_mask flatSpectrum 4 4 2 2 2 2 _ _) _); [lia | lia |].
    split; reflexivity.
  - refine (proj2 (zero_radius_mask flatSpectrum 4 4 2 2 2 1 _ _) _); [lia | lia |].
    intros [H _]. vm_compute in H. discriminate H.
Defined.

Lemma handover_roundtrip_witness :
  exists msg,
    Handover.loadMessage toEighths sampleSpectrum 2 2 = JS.Returned msg /\
    ReconWorker.complexAt
      (fst (ReconWorker.onmessage Exact.ifft ReconWorker.initial msg)) 1 0
    = JS.Returned (Handover.stored toEighths (at2 sampleSpectrum 0 1)).
Proof.
  eexists. split; [vm_compute; reflexivity|].
  refine (proj2 (proj2 (proj2 (handover_roundtrip toEighths Exact.ifft sampleSpectrum 2 2
                                 _ ReconWorker.initial _ _))) 1%nat 0%nat _ _).
  - apply sampleSpectrum_shape.
  - vm_compute. reflexivity.
  - simpl. lia.
  - simpl. lia.
Defined.

Lemma worker_matches_library_witness :
  exists msg,
    Handover.loadMessage toEighths sampleSpectrum 2 2 = JS.Returned msg /\
    snd (ReconWorker.run Exact.ifft ReconWorker.initial
           [msg; ReconWorker.circleRecon 1 1 1])
    = [ReconWorker.loaded;
       match Kspace.renderReconFromCircle Exact.ifft
               (roundedSpectrum toEighths sampleSpectrum 2 2) 2 2 1 1 1 with
       | JS.Returned px => ReconWorker.recon 2 2 px
       | JS.Thrown e => ReconWorker.error (ReconWorker.Caught e)
       end].
Proof.
  eexists. split; [vm_compute; reflexivity|].
  refine (worker_matches_library toEighths Exact.ifft sampleSpectrum 2 2 _
            ReconWorker.initial 1 1 1 _ _ _ _).
  - lia.
  - lia.
  - apply sampleSpectrum_shape.
  - vm_compute. reflexivity.
Defined.

Lemma not_loaded_reply_witness :
  ReconWorker.run Exact.ifft ReconWorker.initial
    [ReconWorker.circleRecon 0 0 1; ReconWorker.circleRecon 1 1 2]
  = (ReconWorker.initial,
     [ReconWorker.error ReconWorker.SpectrumNotLoaded;
      ReconWorker.error ReconWorker.SpectrumNotLoaded]) /\
  snd (ReconWorker.onmessage Exact.ifft
         (fst (ReconWorker.onmessage Exact.ifft ReconWorker.initial
                 (ReconWorker.loadSpectrum 2 2 [1; -3; -7; 13] [0; 0; 0; 0])))
         (ReconWorker.circleRecon 1 1 5))
  <> [ReconWorker.error ReconWorker.SpectrumNotLoaded] /\
  exists out msg,
    Processing.processImage flatCanvas Exact.fft Exact.ifft Exact.energy (fun q => q) 2 2
    = JS.Returned (out, msg) /\
    forall reply,
      In reply (snd (ReconWorker.run Exact.ifft ReconWorker.initial
                       [msg; ReconWorker.circleRecon 1 1 5])) ->
      reply <> ReconWorker.error ReconWorker.SpectrumNotLoaded.
Proof.
  split; [|split].
  - apply (proj1 (not_loaded_reply Exact.ifft)
             [ReconWorker.circleRecon 0 0 1; ReconWorker.circleRecon 1 1 2]).
    repeat constructor.
  - apply (proj1 (proj2 (not_loaded_reply Exact.ifft)) ReconWorker.initial
             2%Z 2%Z [1; -3; -7; 13] [0; 0; 0; 0] 1 1 5); lia.
  - destruct (processImage_returns flatCanvas Exact.fft Exact.ifft Exact.energy (fun q => q)
                2 2
                {| Loading.gray := map (fun y => map (fun x =>
                                     Loading.luma (flatCanvas 2 2) ((y * 2 + x) * 4))
                                     (seq 0 2)) (seq 0 2);
                   Loading.rows := 2; Loading.cols := 2 |})
      as (out & msg & E & _ & _).
    + lia.
    + lia.
    + reflexivity.
    + apply exact_fft_returnsOn_2.
    + apply exact_fft_returnsOn_2.
    + apply exact_ifft_returnsOn_2.
    + apply exact_ifft_returnsOn_2.
    + exists out, msg. split; [exact E|].
      refine (proj2 (proj2 (proj2 (not_loaded_reply Exact.ifft)) flatCanvas Exact.fft
                Exact.ifft Exact.energy (fun q => q) 2%Z 2%Z out msg ReconWorker.initial
                1 1 5 _ _ E)); lia.
Defined.

Lemma worker_full_mask_reproduces_recon_witness :
  exists out msg,
    Processing.processImage flatCanvas Exact.fft Exact.ifft Exact.energy (fun q => q) 2 2
    = JS.Returned (out, msg) /\
    snd (ReconWorker.run Exact.ifft ReconWorker.initial
           [msg; ReconWorker.circleRecon 1 1 4])
    = [ReconWorker.loaded;
       ReconWorker.recon (Loading.outRows out) (Loading.outCols out) (Loading.reconUrl out)].
Proof.
  destruct (processImage_returns flatCanvas Exact.fft Exact.ifft Exact.energy (fun q => q)
              2 2
              {| Loading.gray := map (fun y => map (fun x =>
                                   Loading.luma (flatCanvas 2 2) ((y * 2 + x) * 4))
                                   (seq 0 2)) (seq 0 2);
                 Loading.rows := 2; Loading.cols := 2 |})
    as (out & msg & E & Hrows & Hcols).
  - lia.
  - lia.
  - reflexivity.
  - apply exact_fft_returnsOn_2.
  - apply exact_fft_returnsOn_2.
  - apply exact_ifft_returnsOn_2.
  - apply exact_ifft_returnsOn_2.
  - exists out, msg. split; [exact E|].
    refine (worker_full_mask_reproduces_recon flatCanvas Exact.fft Exact.ifft Exact.energy
              (fun q => q) 2 2 out msg ReconWorker.initial 1 1 4 _ _ E _ _).
    + lia.
    + lia.
    + intros y x _ _. by destruct (at2 (Loading.spectrum out) y x).
    + rewrite Hrows, Hcols. apply (grid_in_large_disc 1 1 4 2 2);
        vm_compute; intros H; discriminate H.
Defined.

Lemma toNatural_toDisplay_witness :
  toNatural (Some (Rect.mk 10 20 512 384)) 256 192
    (toDisplay (Some (Rect.mk 10 20 512 384)) 256 192 (Point.mk (inject_Z 100) (inject_Z 90)))
  = Point.mk (inject_Z 100) (inject_Z 90).
Proof.
  apply (toNatural_toDisplay (Rect.mk 10 20 512 384) 256 192 100 90);
    vm_compute; intros H; discriminate H.
Defined.

Lemma clampDisplay_inside_witness :
  (35 <= Point.x (clampDisplay (Some (Rect.mk 0 0 256 256)) (Point.mk 300 (-4)) 35) /\
   35 <= Point.y (clampDisplay (Some (Rect.mk 0 0 256 256)) (Point.mk 300 (-4)) 35)) /\
  Point.x (clampDisplay (Some (Rect.mk 0 0 256 256)) (Point.mk 300 (-4)) 35) <= 256 - 35 /\
  Point.x (clampDisplay (Some (Rect.mk 0 0 256 256)) (Point.mk 100 90) 35) == 100.
Proof.
  split; [|split].
  - apply (proj1 (clampDisplay_inside (Rect.mk 0 0 256 256) (Point.mk 300 (-4)) 35)).
  - apply (proj1 (proj2 (clampDisplay_inside (Rect.mk 0 0 256 256) (Point.mk 300 (-4)) 35))).
    vm_compute. intros H. discriminate H.
  - apply (proj1 (proj2 (proj2 (proj2
             (clampDisplay_inside (Rect.mk 0 0 256 256) (Point.mk 100 90) 35)))));
      vm_compute; intros H; discriminate H.
Defined.

Lemma clampRadius_bounds_witness :
  5 <= clampRadius (Rect.mk 0 0 256 256) (Point.mk 100 90) 200 /\
  clampRadius (Rect.mk 0 0 256 256) (Point.mk 100 90) 200 <= 200 /\
  0 <= 100 - clampRadius (Rect.mk 0 0 256 256) (Point.mk 100 90) 200 /\
  90 + clampRadius (Rect.mk 0 0 256 256) (Point.mk 100 90) 200 <= 256.
Proof.
  pose proof (clampRadius_bounds (Rect.mk 0 0 256 256) (Point.mk 100 90) 200) as (H1 & H2 & H3).
  split; [exact H1|]. split.
  - apply H2. vm_compute. intros H. discriminate H.
  - destruct H3 as (A & _ & _ & B); try (vm_compute; intros H; discriminate H).
    split; [exact A | exact B].
Defined.

Lemma clamped_point_in_image_witness :
  exists a b,
    toNatural (Some (Rect.mk 0 0 512 512)) (inject_Z 256) (inject_Z 256)
      (clampDisplay (Some (Rect.mk 0 0 512 512)) (Point.mk 600 (-3)) 35)
    = Point.mk (inject_Z a) (inject_Z b) /\
    (0 <= a <= 256)%Z /\ (0 <= b <= 256)%Z.
Proof.
  apply (clamped_point_in_image (Rect.mk 0 0 512 512) 256 256 (Point.mk 600 (-3)) 35);
    first [lia | (vm_compute; reflexivity) | (vm_compute; intros H; discriminate H)].
Defined.

Lemma canvas_commits_whole_radius_witness :
  exists z : Z, (1 <= z)%Z /\ 35 = inject_Z z.
Proof.
  apply (canvas_commits_whole_radius Exact.isqrt CanvasSample.sampleProps
           pressMoveRelease 1000 (Point.mk 109 90) 35).
  - split; [reflexivity|]. split; [reflexivity|].
    intros rc [= <-]. split; reflexivity.
  - vm_compute. left.
Defined.

Lemma canvas_inert_witness :
  KSpaceCanvas.runUntil Exact.isqrt CanvasIdle.hiddenProps KSpaceCanvas.initial
    pressMoveRelease 1000
  = (KSpaceCanvas.initial, []).
Proof.
  apply (canvas_inert Exact.isqrt CanvasIdle.hiddenProps pressMoveRelease 1000).
  left. reflexivity.
Defined.

Lemma pointer_up_flushes_drag_witness :
  exists args,
    commits (snd (KSpaceCanvas.runUntil Exact.isqrt CanvasSample.sampleProps
                    (KSpaceCanvas.onPointerDown Exact.isqrt CanvasSample.sampleProps
                       128 128 KSpaceCanvas.initial)
                    (CanvasSpec.moveEvents (nineMoves ++ [(90%Z, (109, 90))])
                     ++ [(95%Z, KSpaceCanvas.PointerUp)]) 1000))
    = [args].
Proof.
  destruct (pointer_up_flushes_drag Exact.isqrt CanvasSample.sampleProps
              (KSpaceCanvas.onPointerDown Exact.isqrt CanvasSample.sampleProps
                 128 128 KSpaceCanvas.initial)
              nineMoves 90%Z 109 90 95%Z 1000%Z) as (args & _ & H & _).
  - reflexivity.
  - reflexivity.
  - eexists. reflexivity.
  - vm_compute. reflexivity.
  - vm_compute. reflexivity.
  - cbv. repeat split; try reflexivity; intros H; discriminate H.
  - simpl. lia.
  - exists args. exact H.
Defined.


Lemma overlay_disabled_inert_witness :
  KSpaceOverlay.runUntil Exact.isqrt OverlaySample.disabledProps KSpaceOverlay.initial
    overlayPressMoveRelease 1000
  = (KSpaceOverlay.initial, []).
Proof.
  apply (overlay_disabled_inert Exact.isqrt OverlaySample.disabledProps
           overlayPressMoveRelease 1000).
  reflexivity.
Defined.


Lemma busy_cleared_by_reply_witness :
  App.reconBusy
    (App.deliver (fst (App.onOverlayMove sampleApp (Point.mk 1 1) 1))
       (snd (ReconWorker.run Exact.ifft sampleWorker
               (snd (App.onOverlayMove sampleApp (Point.mk 1 1) 1)))))
  = false.
Proof.
  refine (proj2 (proj2 (busy_cleared_by_reply Exact.ifft sampleWorker sampleApp
                          (Point.mk 1 1) 1 _ _))).
  - eexists. reflexivity.
  - eexists. reflexivity.
Defined.

Lemma no_request_without_dimensions_witness :
  App.requests freshApp [onMove (Point.mk 1 1) 5; onResize 40; onMove (Point.mk 2 1) 5] = [].
Proof.
  apply (no_request_without_dimensions freshApp). left. reflexivity.
Defined.

Lemma normalize_preserves_order_witness :
  exists b b',
    Raster.normalize [[1; 2]; [3; 7]] 2 2 !! ((0 * 2 + 1) * 4)%nat = Some b /\
    Raster.normalize [[1; 2]; [3; 7]] 2 2 !! ((1 * 2 + 0) * 4)%nat = Some b' /\
    (b <= b')%Z.
Proof.
  apply (normalize_preserves_order [[1; 2]; [3; 7]] 2 2 0 1 1 0); try lia.
  vm_compute. intros H. discriminate H.
Defined.

Lemma sample_minimum : Raster.minimumOf [[1; 2]; [3; 7]] 1.
Proof.
  split; [by left|]. intros v Hv. simpl in Hv.
  repeat (apply elem_of_cons in Hv as [-> | Hv]; [vm_compute; intros H; discriminate H|]).
  by apply elem_of_nil in Hv.
Qed.

Lemma sample_maximum : Raster.maximumOf [[1; 2]; [3; 7]] 7.
Proof.
  split; [simpl; do 3 right; by left|]. intros v Hv. simpl in Hv.
  repeat (apply elem_of_cons in Hv as [-> | Hv]; [vm_compute; intros H; discriminate H|]).
  by apply elem_of_nil in Hv.
Qed.

Lemma normalize_full_range_witness :
  exists b,
    Raster.normalize [[1; 2]; [3; 7]] 2 2 !! ((1 * 2 + 1) * 4)%nat = Some b /\
    (7 == 1 -> b = 0%Z) /\
    (1 < 7 -> 7 == 7 -> b = 255%Z) /\
    (~ 1 < 7 -> b = 0%Z).
Proof.
  apply (normalize_full_range [[1; 2]; [3; 7]] 2 2 1 1 [3; 7] 7 1 7).
  - reflexivity.
  - reflexivity.
  - lia.
  - lia.
  - apply sample_minimum.
  - apply sample_maximum.
Defined.
